(** * scripts/scrape_soundcloud.py: a shallow embedding and its properties

    The script fetches a SoundCloud profile or playlist page and runs a
    cascade of regular-expression passes over the HTML text.  This file
    embeds the three functions [scrape_profile],
    [extract_tracks_from_hydration] and [scrape_playlist] together with the
    Python primitives they call ([str] methods and the backtracking [re]
    engine restricted to the constructs the patterns of the script use),
    and the entry point [main].

    Modelling conventions.
    - A Python [str] is a [list ascii].  Case mapping and white space follow
      Python on the code points below 128; the remaining 128 values stand
      for characters that are neither cased nor white space.  Python cases
      and trims characters above 127 as well, so a statement whose truth
      depends on case or white space is made of texts that satisfy
      [ascii_text], as a hypothesis.
    - The network ([Request], [urlopen], [read]) is a function from the
      requested URL to either the text of the raised exception or the page.
    - [set] objects are lists used through membership only.
    - A run of [main] is the value it gives to [json.dumps] and prints,
      with the exit status of the process. *)

From Stdlib Require Import Ascii String List Bool Arith Lia ZArith.
Import ListNotations.

Set Implicit Arguments.

(* ================================================================= *)
(** * Python strings *)

(** A Python [str]. *)
Definition str := list ascii.

Notation "$ s" := (list_ascii_of_string s) (at level 1, format "$ s").

(** The double quote character; the comments of this file write it [\q]
    when they quote a pattern of the script. *)
Definition dq : ascii := "034"%char.

(** [ord(c)] *)
Definition code (c : ascii) : nat := nat_of_ascii c.

(** The cased characters are the letters A-Z and a-z: those of the
    characters below 128.  Python also cases letters above 127, which
    [ascii_text] excludes. *)
Definition is_upper (c : ascii) : bool := (65 <=? code c) && (code c <=? 90).
Definition is_lower (c : ascii) : bool := (97 <=? code c) && (code c <=? 122).

(** [c.lower()] and [c.upper()] *)
Definition lower_char (c : ascii) : ascii :=
  if is_upper c then ascii_of_nat (code c + 32) else c.
Definition upper_char (c : ascii) : ascii :=
  if is_lower c then ascii_of_nat (code c - 32) else c.

(** [str.isspace] on one character, which is also the class [\s] of [re]
    for [str] patterns: TAB, LF, VT, FF, CR, FS, GS, RS, US and space,
    which are the white space among the characters below 128.  (Python
    also counts U+0085, U+00A0 and others above 127.) *)
Definition is_space (c : ascii) : bool :=
  ((9 <=? code c) && (code c <=? 13)) ||
  ((28 <=? code c) && (code c <=? 32)).

(** Equality of characters under [re.IGNORECASE]. *)
Definition ascii_eqb_ci (a b : ascii) : bool :=
  Ascii.eqb (lower_char a) (lower_char b).

(** [a == b] *)
Definition str_eqb (a b : str) : bool :=
  if list_eq_dec ascii_dec a b then true else false.

(** [s.lower()] *)
Definition lower (s : str) : str := map lower_char s.

(** [s.title()]: a cased character is upper-cased when the previous
    character is not cased, and lower-cased otherwise.  This is Python's
    result on ASCII text; above 127 Python cases more letters and can
    change the length of the text. *)
Fixpoint title_from (prev_cased : bool) (s : str) : str :=
  match s with
  | [] => []
  | c :: s' =>
      if is_lower c then
        (if prev_cased then c else upper_char c) :: title_from true s'
      else if is_upper c then
        (if prev_cased then lower_char c else c) :: title_from true s'
      else c :: title_from false s'
  end.

Definition str_title (s : str) : str := title_from false s.

(** [s] without its longest prefix of characters that satisfy [p]. *)
Fixpoint drop_while (p : ascii -> bool) (s : str) : str :=
  match s with
  | [] => []
  | c :: s' => if p c then drop_while p s' else s
  end.

Definition lstrip_by (p : ascii -> bool) (s : str) : str := drop_while p s.
Definition rstrip_by (p : ascii -> bool) (s : str) : str :=
  rev (drop_while p (rev s)).

(** [s.strip()], for the white space of [is_space]. *)
Definition strip (s : str) : str := rstrip_by is_space (lstrip_by is_space s).

(** [s.rstrip('/')] *)
Definition rstrip_char (c : ascii) (s : str) : str := rstrip_by (Ascii.eqb c) s.

(** [s.startswith(p)], returning the rest of [s] after [p]. *)
Fixpoint strip_prefix (p s : str) : option str :=
  match p, s with
  | [], _ => Some s
  | _ :: _, [] => None
  | a :: p', b :: s' => if Ascii.eqb a b then strip_prefix p' s' else None
  end.

(** The same comparison under [re.IGNORECASE]. *)
Fixpoint strip_prefix_ci (p s : str) : option str :=
  match p, s with
  | [], _ => Some s
  | _ :: _, [] => None
  | a :: p', b :: s' => if ascii_eqb_ci a b then strip_prefix_ci p' s' else None
  end.

(** [s.startswith(p)] *)
Definition startswith (s p : str) : bool :=
  match strip_prefix p s with Some _ => true | None => false end.

(** [s.endswith(p)] *)
Definition endswith (s p : str) : bool := startswith (rev s) (rev p).

(** [sub in s] for strings. *)
Fixpoint contains (sub s : str) : bool :=
  startswith s sub ||
  match s with
  | [] => false
  | _ :: s' => contains sub s'
  end.

(** [s.find(sub)]: the lowest index where [sub] starts, [None] for [-1]. *)
Fixpoint find (sub s : str) : option nat :=
  if startswith s sub then Some 0
  else match s with
       | [] => None
       | _ :: s' => option_map S (find sub s')
       end.

(** [s[i:j]] for [0 <= i] and [0 <= j]. *)
Definition slice (s : str) (i j : nat) : str := firstn (j - i) (skipn i s).

(** [s.replace(old, new)] for a non-empty [old]: occurrences are replaced
    from left to right and do not overlap; [skip] counts the characters of
    the occurrence just replaced that are still to be passed over. *)
Fixpoint replace_from (old new s : str) (skip : nat) : str :=
  match s with
  | [] => []
  | c :: s' =>
      match skip with
      | S k => replace_from old new s' k
      | O =>
          if startswith s old
          then new ++ replace_from old new s' (length old - 1)
          else c :: replace_from old new s' 0
      end
  end.

Definition replace (old new s : str) : str := replace_from old new s 0.

(** [s.split(c)] for a one-character separator. *)
Fixpoint split (c : ascii) (s : str) : list str :=
  match s with
  | [] => [[]]
  | a :: s' =>
      if Ascii.eqb a c then [] :: split c s'
      else match split c s' with
           | [] => [[a]]
           | w :: ws => (a :: w) :: ws
           end
  end.

(** [s.split(c)[0]] *)
Fixpoint before (c : ascii) (s : str) : str :=
  match s with
  | [] => []
  | a :: s' => if Ascii.eqb a c then [] else a :: before c s'
  end.

(** [x in xs] for a list or set of strings. *)
Definition mem (x : str) (xs : list str) : bool := existsb (str_eqb x) xs.

(** Truth value of a string. *)
Definition truthy (s : str) : bool :=
  match s with [] => false | _ :: _ => true end.

(* ================================================================= *)
(** * The [re] engine

    The patterns of the script are sequences of literals, repetitions of a
    character class ([c*], [c+], [c*?]), an optional character, capture
    groups that are neither nested nor repeated, and [$].  [re] matches by
    backtracking: a greedy repetition tries the longest run first, a lazy
    one the shortest, and the first complete match in that order is the
    result. *)

(** Character classes. *)
Inductive cls : Type :=
| CNot (excluded : list ascii)   (* [^...] *)
| CAny                           (* . under re.DOTALL *)
| CSpace.                        (* \s *)

Definition cls_match (c : cls) (a : ascii) : bool :=
  match c with
  | CNot ex => negb (existsb (Ascii.eqb a) ex)
  | CAny => true
  | CSpace => is_space a
  end.

(** The items of a pattern. *)
Inductive item : Type :=
| Lit (l : str)                          (* literal text *)
| Rep (greedy : bool) (min : nat) (c : cls)
| Opt (a : ascii)                        (* a? *)
| GOpen                                  (* ( *)
| GClose                                 (* ) *)
| Eos.                                   (* $ *)

(** A pattern is a sequence of items. *)
Definition regex := list item.

(** The result of a match: the groups in order and the unread input. *)
Definition mres : Type := list str * str.

(** The first alternative that succeeds. *)
Definition orelse (A : Type) (x y : option A) : option A :=
  match x with Some _ => x | None => y end.

(** One repetition [c{min,}]: [n] characters are already taken, [k] runs
    the rest of the pattern. *)
Fixpoint rep_match (k : str -> option mres) (greedy : bool) (min : nat)
         (c : cls) (s : str) (n : nat) : option mres :=
  let stop := if min <=? n then k s else None in
  match s with
  | [] => stop
  | a :: s' =>
      if cls_match c a then
        if greedy then orelse (rep_match k greedy min c s' (S n)) stop
        else orelse stop (rep_match k greedy min c s' (S n))
      else stop
  end.

(** [$]: at the end of the text or before a final newline. *)
Definition at_end (s : str) : bool :=
  match s with
  | [] => true
  | [c] => Ascii.eqb c "010"%char
  | _ => false
  end.

(** [match_here ci r s opened caps]: match [r] at the start of [s];
    [ci] is [re.IGNORECASE], [opened] the input at the last unclosed [(],
    [caps] the groups closed so far, most recent first. *)
Fixpoint match_here (ci : bool) (r : regex) (s : str) (opened : option str)
         (caps : list str) : option mres :=
  match r with
  | [] => Some (rev caps, s)
  | Lit l :: r' =>
      match (if ci then strip_prefix_ci l s else strip_prefix l s) with
      | Some s' => match_here ci r' s' opened caps
      | None => None
      end
  | Rep g mn c :: r' =>
      rep_match (fun s' => match_here ci r' s' opened caps) g mn c s 0
  | Opt a :: r' =>
      match s with
      | b :: s' =>
          if Ascii.eqb a b
          then orelse (match_here ci r' s' opened caps)
                      (match_here ci r' s opened caps)
          else match_here ci r' s opened caps
      | [] => match_here ci r' s opened caps
      end
  | GOpen :: r' => match_here ci r' s (Some s) caps
  | GClose :: r' =>
      match opened with
      | Some s0 =>
          match_here ci r' s None (firstn (length s0 - length s) s0 :: caps)
      | None => None
      end
  | Eos :: r' => if at_end s then match_here ci r' s opened caps else None
  end.

(** [re.match(r, s)] *)
Definition re_match (ci : bool) (r : regex) (s : str) : option mres :=
  match_here ci r s None [].

(** [re.search(r, s)]: the match at the lowest position that has one. *)
Fixpoint search (ci : bool) (r : regex) (s : str) : option (list str) :=
  match re_match ci r s with
  | Some (caps, _) => Some caps
  | None =>
      match s with
      | [] => None
      | _ :: s' => search ci r s'
      end
  end.

(** [re.findall(r, s)]: the groups of the successive non-overlapping
    matches.  [skip] counts the characters of the last match still to be
    passed over.  (After an empty match the scan moves on by one character;
    no pattern of the script matches the empty string.) *)
Fixpoint findall_from (ci : bool) (r : regex) (s : str) (skip : nat)
  : list (list str) :=
  match s with
  | [] =>
      match skip, re_match ci r s with
      | O, Some (caps, _) => [caps]
      | _, _ => []
      end
  | _ :: s' =>
      match skip with
      | S k => findall_from ci r s' k
      | O =>
          match re_match ci r s with
          | Some (caps, rest) =>
              caps :: findall_from ci r s' (length s - length rest - 1)
          | None => findall_from ci r s' 0
          end
      end
  end.

Definition findall (ci : bool) (r : regex) (s : str) : list (list str) :=
  findall_from ci r s 0.

(* ================================================================= *)
(** * Track records and results *)

(** A track dictionary: the keys [url], [title], [artist], [fullTitle]
    and [thumbnail]. *)
Record track : Type := {
  url : str;
  title : str;
  artist : option str;       (* [None] is Python's None *)
  fullTitle : str;
  thumbnail : option str
}.

(** What a scrape function returns: the list of tracks or the dictionary
    [{'error': msg}]. *)
Inductive result : Type :=
| Tracks (ts : list track)
| Error (msg : str).

(** The running state of the passes: the list [tracks] and the set
    [seen_urls]. *)
Record acc : Type := { tracks : list track; seen_urls : list str }.

(** [tracks = []] and [seen_urls = set()] *)
Definition init : acc := {| tracks := []; seen_urls := [] |}.

(** [seen_urls.add(u)] *)
Definition see (u : str) (st : acc) : acc :=
  {| tracks := tracks st; seen_urls := u :: seen_urls st |}.

(** [tracks.append(t)] *)
Definition append (t : track) (st : acc) : acc :=
  {| tracks := tracks st ++ [t]; seen_urls := seen_urls st |}.

(** [next((t for t in tracks if t['url'] == track_url), None)] *)
Definition existing (u : str) (st : acc) : option track :=
  List.find (fun t => str_eqb (url t) u) (tracks st).

(** The group of index [n], counted from 0, of a match. *)
Definition group (n : nat) (caps : list str) : str := nth n caps [].

(** What the network returns for a request: an exception, given by its
    message [str(e)], or the decoded page. *)
Inductive fetched : Type :=
| Raised (msg : str)
| Page (html : str).

(** Computations that may raise. *)
Inductive exc (A : Type) : Type :=
| Raise (msg : str)
| Ret (a : A).
Arguments Raise {A} msg.
Arguments Ret {A} a.

(** Sequencing: the first exception ends the computation. *)
Definition bind (A B : Type) (m : exc A) (f : A -> exc B) : exc B :=
  match m with
  | Raise e => Raise e
  | Ret a => f a
  end.

Notation "x <- m ;; f" := (bind m (fun x => f))
  (at level 61, m at next level, right associativity).

(** [with urlopen(req, timeout=30) as response: html = response.read()...] *)
Definition urlopen (net : str -> fetched) (u : str) : exc str :=
  match net u with
  | Raised e => Raise e
  | Page html => Ret html
  end.

(** [try: body  except Exception as e: return {'error': str(e)}] *)
Definition try_except (body : exc result) : result :=
  match body with
  | Raise e => Error e
  | Ret r => r
  end.

(** The prefix of every absolute track URL. *)
Definition host : str := $"https://soundcloud.com/".
Arguments host : simpl never.

(** The character [/]. *)
Definition slash : ascii := "/"%char.

(** [soundcloud\.com/([^/]+)] *)
Definition user_re : regex :=
  [Lit $"soundcloud.com/"; GOpen; Rep true 1 (CNot [slash]); GClose].

(** [soundcloud\.com/([^/]+)/?$] *)
Definition user_end_re : regex :=
  [Lit $"soundcloud.com/"; GOpen; Rep true 1 (CNot [slash]); GClose;
   Opt slash; Eos].

(** [href=\q(https://soundcloud\.com/[^/]+/[^/\q]+)\q] *)
Definition full_url_re : regex :=
  [Lit ($"href=" ++ [dq]); GOpen; Lit $"https://soundcloud.com/";
   Rep true 1 (CNot [slash]); Lit [slash]; Rep true 1 (CNot [slash; dq]);
   GClose; Lit [dq]].

(** [href=\q/([^/]+/[^/\q]+)\q] *)
Definition relative_url_re : regex :=
  [Lit ($"href=" ++ [dq] ++ [slash]); GOpen;
   Rep true 1 (CNot [slash]); Lit [slash]; Rep true 1 (CNot [slash; dq]);
   GClose; Lit [dq]].

(** The two patterns of the href scan. *)
Definition track_patterns : list regex := [full_url_re; relative_url_re].

(** [<li[^>]*class=\qsoundList__item\q[^>]*>.*?aria-label=\qTrack:\s*([^\q]+)\s+by\s+([^\q]+)\q] *)
Definition sound_item_pattern : regex :=
  [Lit $"<li"; Rep true 0 (CNot [">"%char]);
   Lit ($"class=" ++ [dq] ++ $"soundList__item" ++ [dq]);
   Rep true 0 (CNot [">"%char]); Lit $">"; Rep false 0 CAny;
   Lit ($"aria-label=" ++ [dq] ++ $"Track:"); Rep true 0 CSpace;
   GOpen; Rep true 1 (CNot [dq]); GClose;
   Rep true 1 CSpace; Lit $"by"; Rep true 1 CSpace;
   GOpen; Rep true 1 (CNot [dq]); GClose; Lit [dq]].

(** [href=\q/([^/]+)/([^/\q]+)\q] *)
Definition href_pattern : regex :=
  [Lit ($"href=" ++ [dq] ++ [slash]); GOpen; Rep true 1 (CNot [slash]); GClose;
   Lit [slash]; GOpen; Rep true 1 (CNot [slash; dq]); GClose; Lit [dq]].

(** [<a[^>]*class=\q[^\q]*sound__coverArt[^\q]*\q[^>]*href=\q/([^/]+)/([^/\q]+)\q] *)
Definition cover_art_pattern : regex :=
  [Lit $"<a"; Rep true 0 (CNot [">"%char]); Lit ($"class=" ++ [dq]);
   Rep true 0 (CNot [dq]); Lit $"sound__coverArt"; Rep true 0 (CNot [dq]);
   Lit [dq]; Rep true 0 (CNot [">"%char]);
   Lit ($"href=" ++ [dq] ++ [slash]); GOpen; Rep true 1 (CNot [slash]); GClose;
   Lit [slash]; GOpen; Rep true 1 (CNot [slash; dq]); GClose; Lit [dq]].

(** The second path segments that name a page of a profile. *)
Definition reserved : list str :=
  [$"tracks"; $"albums"; $"sets"; $"reposts"; $"followers"; $"following"].

(** The endings of a URL that names a page of a profile. *)
Definition profile_pages : list str :=
  [$"/tracks"; $"/popular-tracks"; $"/albums"; $"/sets"; $"/playlists";
   $"/reposts"].

(** [s.replace('-', ' ').replace('_', ' ').title()] *)
Definition display (s : str) : str :=
  str_title (replace $"_" $" " (replace $"-" $" " s)).

(** [s.replace('-', ' ').title()] *)
Definition display_artist (s : str) : str := str_title (replace $"-" $" " s).

(** The record built from slugs. *)
Definition slug_track (u a t : str) : track :=
  {| url := u; title := display t; artist := Some (display_artist a);
     fullTitle := display_artist a ++ $" - " ++ display t;
     thumbnail := None |}.

(** The record built from an aria-label. *)
Definition label_track (u track_name artist_name : str) : track :=
  {| url := u; title := strip track_name; artist := Some (strip artist_name);
     fullTitle := strip artist_name ++ $" - " ++ strip track_name;
     thumbnail := None |}.

(* ================================================================= *)
(** * [scrape_profile] *)

(** Method 1, the body of the loop over the matches of one pattern. *)
Definition profile_href_step (username : option str) (st : acc) (m : str)
  : acc :=
  let track_url := if negb (startswith m $"http") then host ++ m else m in
  if contains $"/sets/" track_url || contains $"/playlists/" track_url
     || contains $"/reposts" track_url
  then st
  else
    match split slash (replace host [] track_url) with
    | [artist_part; track_name] =>
        if truthy artist_part && truthy track_name then
          if negb (mem track_url (seen_urls st)) then
            let display_name := display track_name in
            append
              {| url := track_url;
                 title := display_name;
                 artist :=
                   match username with
                   | Some u => if truthy u then Some (display_artist u) else None
                   | None => None
                   end;
                 fullTitle :=
                   match username with
                   | Some u =>
                       if truthy u
                       then display_artist u ++ $" - " ++ display_name
                       else display_name
                   | None => display_name
                   end;
                 thumbnail := None |}
              (see track_url st)
          else st
        else st
    | _ => st
    end.

(** Method 1 (lines 55-91): the href scan. *)
Definition profile_pass1 (username : option str) (html : str) (st : acc) : acc :=
  fold_left
    (fun st pattern =>
       fold_left (profile_href_step username)
                 (map (group 0) (findall false pattern html)) st)
    track_patterns st.

(** The test that skips a slug in methods 2 and 3. *)
Definition skip_slug (track_slug : str) : bool :=
  contains $"/sets/" track_slug || contains $"/playlists/" track_slug
  || mem track_slug reserved.

(** Method 2, the loop over [href_matches], left at the first URL that
    is not yet in [seen_urls]. *)
Fixpoint claim_href (track_name artist_name : str)
         (href_matches : list (list str)) (st : acc) : acc :=
  match href_matches with
  | [] => st
  | m :: rest =>
      let artist_slug := group 0 m in
      let track_slug := group 1 m in
      if skip_slug track_slug then claim_href track_name artist_name rest st
      else
        let track_url := host ++ artist_slug ++ [slash] ++ track_slug in
        if negb (mem track_url (seen_urls st)) then
          let st' := see track_url st in
          match existing track_url st' with
          | None => append (label_track track_url track_name artist_name) st'
          | Some _ => st'
          end
        else claim_href track_name artist_name rest st
  end.

(** Method 2, the body of the loop over the sound-list items. *)
Definition profile_label_step (html : str) (st : acc) (m : list str) : acc :=
  let track_name := group 0 m in
  let artist_name := group 1 m in
  match find ($"aria-label=" ++ [dq] ++ $"Track: " ++ track_name) html with
  | Some aria_pos =>
      let context_start := Nat.max 0 (aria_pos - 1000) in
      let context_end := Nat.min (length html) (aria_pos + 1000) in
      let context := slice html context_start context_end in
      claim_href track_name artist_name (findall false href_pattern context) st
  | None => st
  end.

(** Method 2 (lines 93-137): the aria-label scan. *)
Definition profile_pass2 (html : str) (st : acc) : acc :=
  fold_left (profile_label_step html) (findall false sound_item_pattern html) st.

(** Method 3, the body of the loop over the cover-art links. *)
Definition profile_cover_step (st : acc) (m : list str) : acc :=
  let artist_slug := group 0 m in
  let track_slug := group 1 m in
  if skip_slug track_slug then st
  else
    let track_url := host ++ artist_slug ++ [slash] ++ track_slug in
    if negb (mem track_url (seen_urls st)) then
      let st' := see track_url st in
      match existing track_url st' with
      | None => append (slug_track track_url artist_slug track_slug) st'
      | Some _ => st'
      end
    else st.

(** Method 3 (lines 139-166): the cover-art scan. *)
Definition profile_pass3 (html : str) (st : acc) : acc :=
  fold_left profile_cover_step (findall false cover_art_pattern html) st.

(** The final loop that removes duplicates: [unique_tracks] and [seen]. *)
Definition unique_step (us : list track * list str) (t : track)
  : list track * list str :=
  if negb (mem (url t) (snd us)) then (fst us ++ [t], url t :: snd us)
  else us.

(** The list [unique_tracks] after the loop (lines 168-174). *)
Definition unique_tracks (ts : list track) : list track :=
  fst (fold_left unique_step ts ([], [])).

(** [return unique_tracks if unique_tracks else {'error': 'No tracks found'}] *)
Definition finish (ts : list track) : result :=
  match unique_tracks ts with
  | [] => Error $"No tracks found"
  | us => Tracks us
  end.

(** The URL that is requested: [url.rstrip('/')], and [/tracks] appended
    unless the URL ends with one of [profile_pages]. *)
Definition profile_url (url0 : str) : str :=
  let u := rstrip_char slash url0 in
  let has_profile_page := existsb (endswith u) profile_pages in
  if negb has_profile_page then
    match search false user_end_re u with
    | Some _ => u ++ $"/tracks"
    | None => u ++ $"/tracks"
    end
  else u.

(** [username_match.group(1) if username_match else None] *)
Definition username_of (u : str) : option str :=
  option_map (group 0) (search false user_re u).

(** The list [tracks] after the three methods. *)
Definition profile_tracks (u html : str) : acc :=
  profile_pass3 html (profile_pass2 html (profile_pass1 (username_of u) html init)).

(** The body of the [try] statement of [scrape_profile]. *)
Definition scrape_profile_body (net : str -> fetched) (url0 : str) : exc result :=
  let u := profile_url url0 in
  html <- urlopen net u ;;
  Ret (finish (tracks (profile_tracks u html))).

(** [scrape_profile(url)] on the network [net]. *)
Definition scrape_profile (net : str -> fetched) (url0 : str) : result :=
  try_except (scrape_profile_body net url0).

(** A network that serves one page whatever the URL. *)
Definition serve (html : str) : str -> fetched := fun _ => Page html.

(** The text [s] between double quotes. *)
Definition q (s : string) : str := dq :: $s ++ [dq].

(* ================================================================= *)
(** * [scrape_playlist] *)

(** [<a[^>]*class=\q[^\q]*trackItem__trackTitle[^\q]*\q[^>]*href=\q/([^/]+/[^?\q#]+)] *)
Definition track_station_pattern : regex :=
  [Lit $"<a"; Rep true 0 (CNot [">"%char]); Lit ($"class=" ++ [dq]);
   Rep true 0 (CNot [dq]); Lit $"trackItem__trackTitle"; Rep true 0 (CNot [dq]);
   Lit [dq]; Rep true 0 (CNot [">"%char]);
   Lit ($"href=" ++ [dq] ++ [slash]); GOpen; Rep true 1 (CNot [slash]);
   Lit [slash]; Rep true 1 (CNot ["?"%char; dq; "#"%char]); GClose].

(** The profile pattern followed by [[^>]*>.*?</li>]. *)
Definition playlist_sound_item_pattern : regex :=
  sound_item_pattern ++
  [Rep true 0 (CNot [">"%char]); Lit $">"; Rep false 0 CAny; Lit $"</li>"].

(** [track_name.lower().replace(' ', '-').replace('(', '').replace(')', '')
    .replace('.', '').replace('mp3', '')] *)
Definition track_name_slug (track_name : str) : str :=
  replace $"mp3" []
    (replace $"." []
       (replace $")" []
          (replace $"(" []
             (replace $" " $"-" (lower track_name))))).

(** [href=\q/([^/]+)/(G)\q] where the group G is SLUG between two
    repetitions [[^\q]*] and SLUG is [re.escape(track_name_slug[:30])];
    used with [re.IGNORECASE]. *)
Definition fuzzy_href_pattern (slug : str) : regex :=
  [Lit ($"href=" ++ [dq] ++ [slash]); GOpen; Rep true 1 (CNot [slash]); GClose;
   Lit [slash]; GOpen; Rep true 0 (CNot [dq]); Lit (firstn 30 slug);
   Rep true 0 (CNot [dq]); GClose; Lit [dq]].

(** Method 0, the body of the loop over the track-station links. *)
Definition station_step (st : acc) (m : str) : acc :=
  let clean_match := before "?"%char m in
  let track_url := host ++ clean_match in
  if negb (mem track_url (seen_urls st))
     && negb (contains $"/sets/" track_url)
     && negb (contains $"/playlists/" track_url)
  then
    let st' := see track_url st in
    match split slash clean_match with
    | [artist_part; track_name] =>
        if truthy artist_part && truthy track_name
        then append (slug_track track_url artist_part track_name) st'
        else st'
    | _ => st'
    end
  else st.

(** Method 0 (lines 236-258): the track-station scan. *)
Definition playlist_pass0 (html : str) (st : acc) : acc :=
  fold_left station_step
            (map (group 0) (findall false track_station_pattern html)) st.

(** Method 1, the body of the loop over the sound-list items. *)
Definition playlist_label_step (html : str) (st : acc) (m : list str) : acc :=
  let track_name := group 0 m in
  let artist_name := group 1 m in
  match search true (fuzzy_href_pattern (track_name_slug track_name)) html with
  | Some href_match =>
      let artist_slug := group 0 href_match in
      let track_slug := group 1 href_match in
      let track_url := host ++ artist_slug ++ [slash] ++ track_slug in
      if negb (mem track_url (seen_urls st))
         && negb (contains $"/sets/" track_url)
         && negb (contains $"/playlists/" track_url)
      then append (label_track track_url track_name artist_name)
                  (see track_url st)
      else st
  | None => st
  end.

(** Method 1 (lines 260-284): the aria-label scan. *)
Definition playlist_pass1 (html : str) (st : acc) : acc :=
  fold_left (playlist_label_step html)
            (findall false playlist_sound_item_pattern html) st.

(** Method 2, the body of the loop over the matches of one pattern. *)
Definition playlist_href_step (st : acc) (m : str) : acc :=
  let track_url :=
    if negb (startswith m $"http") then host ++ before "?"%char m
    else before "?"%char m in
  if contains $"/sets/" track_url || contains $"/playlists/" track_url
  then st
  else
    match split slash (replace host [] track_url) with
    | [artist_part; track_name] =>
        if truthy artist_part && truthy track_name then
          if negb (mem track_url (seen_urls st))
          then append (slug_track track_url artist_part track_name)
                      (see track_url st)
          else st
        else st
    | _ => st
    end.

(** Method 2 (lines 286-323): the href scan. *)
Definition playlist_pass2 (html : str) (st : acc) : acc :=
  fold_left
    (fun st pattern =>
       fold_left playlist_href_step
                 (map (group 0) (findall false pattern html)) st)
    track_patterns st.

(** The list [tracks] after the three methods. *)
Definition playlist_tracks (html : str) : acc :=
  playlist_pass2 html (playlist_pass1 html (playlist_pass0 html init)).

(** The body of the [try] statement of [scrape_playlist]. *)
Definition scrape_playlist_body (net : str -> fetched) (url0 : str) : exc result :=
  html <- urlopen net url0 ;;
  Ret (finish (tracks (playlist_tracks html))).

(** [scrape_playlist(url)] on the network [net]. *)
Definition scrape_playlist (net : str -> fetched) (url0 : str) : result :=
  try_except (scrape_playlist_body net url0).

(* ================================================================= *)
(** * [extract_tracks_from_hydration]

    The argument is an arbitrary Python value, as [json.loads] builds it
    or with sharing and cycles.  Dictionaries and lists are objects of a
    heap and are referred to by address; a dictionary is the list of its
    items in insertion order. *)

Module Hydration.

(** A Python value.  [VInt] stands for any number: the function uses a
    number through its truth value only.  [VRef] is the address of a
    dictionary or of a list. *)
Inductive value : Type :=
| VNone
| VBool (b : bool)
| VInt (z : Z)
| VStr (s : str)
| VRef (a : nat).

(** The objects of the heap. *)
Inductive object : Type :=
| ODict (items : list (str * value))
| OList (items : list value).

(** The heap: the object at address [a] is the element of index [a]. *)
Definition heap := list object.

(** The object at an address. *)
Definition deref (h : heap) (a : nat) : option object := nth_error h a.

(** The exceptions the function can raise. *)
Inductive pyerr : Type := TypeError | AttributeError.

(** What a call does: it raises or it returns. *)
Inductive outcome (A : Type) : Type :=
| Raises (e : pyerr)
| Returns (a : A).
Arguments Raises {A} e.
Arguments Returns {A} a.

(** [f"{artist} - {title}" if artist else title], kept as the values
    that are formatted: the text is not computed.  Formatting a string,
    a boolean or [None] cannot fail; Python raises ValueError for an
    integer of more than 4300 digits and RecursionError for a value nested
    too deep, which this embedding leaves out: a statement that no
    exception is raised is made of data whose formatted values are
    strings or [None]. *)
Inductive ftitle : Type :=
| Joined (artist title : value)
| Plain (title : value).

(** A track dictionary; its values are the values found in the data. *)
Record record : Type := {
  url : value;
  title : value;
  artist : value;
  fullTitle : ftitle;
  thumbnail : value
}.

(** [d.get(k)], [None] when the key is absent. *)
Fixpoint get (k : str) (items : list (str * value)) : option value :=
  match items with
  | [] => None
  | (k', v) :: rest => if str_eqb k' k then Some v else get k rest
  end.

(** [d.get(k, default)] *)
Definition get_or (k : str) (items : list (str * value)) (default : value)
  : value :=
  match get k items with Some v => v | None => default end.

(** [k in d] *)
Definition has_key (k : str) (items : list (str * value)) : bool :=
  match get k items with Some _ => true | None => false end.

(** Truth value of a Python value; an address without object stands for
    an object of another type, which is true. *)
Definition is_true (h : heap) (v : value) : bool :=
  match v with
  | VNone => false
  | VBool b => b
  | VInt z => negb (Z.eqb z 0)
  | VStr s => truthy s
  | VRef a =>
      match deref h a with
      | Some (ODict []) => false
      | Some (OList []) => false
      | _ => true
      end
  end.

(** [needle in v] for a string [needle]: substring of a string, key of a
    dictionary, element of a list; TypeError for the other values. *)
Definition py_in (h : heap) (needle : str) (v : value) : outcome bool :=
  match v with
  | VStr s => Returns (contains needle s)
  | VRef a =>
      match deref h a with
      | Some (ODict items) => Returns (has_key needle items)
      | Some (OList items) =>
          Returns (existsb (fun x => match x with
                                     | VStr s => str_eqb s needle
                                     | _ => false
                                     end) items)
      | None => Raises TypeError
      end
  | _ => Raises TypeError
  end.

(** [user.get(k, default) if user else None], where [user] is
    [obj.get('user', {})]: AttributeError when [user] is true and is not a
    dictionary. *)
Definition user_get (h : heap) (user : option value) (k : str)
           (default : value) : outcome value :=
  match user with
  | None => Returns VNone
  | Some u =>
      if is_true h u then
        match u with
        | VRef a =>
            match deref h a with
            | Some (ODict uitems) => Returns (get_or k uitems default)
            | _ => Raises AttributeError
            end
        | _ => Raises AttributeError
        end
      else Returns VNone
  end.

(** Sequencing: the first exception ends the computation. *)
Definition obind (A B : Type) (m : outcome A) (f : A -> outcome B)
  : outcome B :=
  match m with
  | Raises e => Raises e
  | Returns a => f a
  end.

(** The test of a dictionary and the [tracks.append] it may lead to. *)
Definition look (h : heap) (obj : list (str * value)) (tracks : list record)
  : outcome (list record) :=
  if has_key $"permalink_url" obj || has_key $"uri" obj then
    let url :=
      let p := get_or $"permalink_url" obj VNone in
      if is_true h p then p else get_or $"uri" obj (VStr []) in
    if is_true h url then
      obind (py_in h $"soundcloud.com" url) (fun in_sc =>
      if in_sc then
        obind (py_in h $"/sets/" url) (fun in_sets =>
        if negb in_sets then
          obind (py_in h $"/playlists/" url) (fun in_playlists =>
          if negb in_playlists then
            let title := get_or $"title" obj (VStr $"Unknown Track") in
            let user := get $"user" obj in
            obind (user_get h user $"username" (VStr [])) (fun artist =>
            let art := get_or $"artwork_url" obj VNone in
            obind (if is_true h art then Returns art
                   else user_get h user $"avatar_url" VNone) (fun thumb =>
            Returns (tracks ++
              [{| url := url; title := title; artist := artist;
                  fullTitle := if is_true h artist then Joined artist title
                               else Plain title;
                  thumbnail := thumb |}])))
          else Returns tracks)
        else Returns tracks)
      else Returns tracks)
    else Returns tracks
  else Returns tracks.

(** The bound of the test [depth > 10]. *)
Definition depth_limit : nat := 10.

(** The loops [for value in obj.values()] and [for item in obj], whose
    body [call] is the recursive call: they stop at the first call that
    raises or does not return. *)
Fixpoint for_each (call : value -> list record -> option (outcome (list record)))
         (vs : list value) (tracks : list record)
  : option (outcome (list record)) :=
  match vs with
  | [] => Some (Returns tracks)
  | v :: vs' =>
      match call v tracks with
      | Some (Returns tracks') => for_each call vs' tracks'
      | other => other
      end
  end.

(** [search_dict(obj, depth)].  [fuel] bounds the number of nested calls:
    [None] means that the bound was reached. *)
Fixpoint search_dict (fuel : nat) (h : heap) (obj : value) (depth : nat)
         (tracks : list record) {struct fuel}
  : option (outcome (list record)) :=
  match fuel with
  | O => None
  | S fuel' =>
      if depth_limit <? depth then Some (Returns tracks)
      else
        match obj with
        | VRef a =>
            match deref h a with
            | Some (ODict items) =>
                match look h items tracks with
                | Returns tracks' =>
                    for_each (fun value => search_dict fuel' h value (depth + 1))
                             (map snd items) tracks'
                | Raises e => Some (Raises e)
                end
            | Some (OList items) =>
                for_each (fun item => search_dict fuel' h item (depth + 1))
                         items tracks
            | None => Some (Returns tracks)
            end
        | _ => Some (Returns tracks)
        end
  end.

(** [search_dict(data)] from [tracks = []], and [return tracks]. *)
Definition extract_tracks_from_hydration (fuel : nat) (h : heap)
           (data : value) : option (outcome (list record)) :=
  search_dict fuel h data 0 [].

(** The outcome [o] of a traversal started with no record, when the
    traversal is started with the records [tracks] instead. *)
Definition after (tracks : list record)
           (o : option (outcome (list record)))
  : option (outcome (list record)) :=
  match o with
  | Some (Returns found) => Some (Returns (tracks ++ found))
  | other => other
  end.

(** A dictionary that contains itself: [d = {}; d['self'] = d]. *)
Definition cyclic_heap : heap := [ODict [($"self", VRef 0)]].

(** A track URL. *)
Definition same_url : str := $"https://soundcloud.com/artist/track".

(** The list of two dictionaries [{'permalink_url': u, 'title': 'A'}] and
    [{'permalink_url': u, 'title': 'B'}] with the same [u]. *)
Definition twice_heap : heap :=
  [ OList [VRef 1; VRef 2];
    ODict [($"permalink_url", VStr same_url); ($"title", VStr $"A")];
    ODict [($"permalink_url", VStr same_url); ($"title", VStr $"B")] ].

(** The record of the dictionary whose title is [t]. *)
Definition twice_record (t : str) : record :=
  {| url := VStr same_url; title := VStr t; artist := VNone;
     fullTitle := Plain (VStr t); thumbnail := VNone |}.

End Hydration.

(* ================================================================= *)
(** * [main] *)

(** What a run of the script leaves: the value given to [json.dumps] and
    printed, and the exit status of the process. *)
Record run : Type := { printed : result; status : nat }.

(** [main()] with [sys.argv = argv] (lines 338-353): with fewer than
    three arguments the usage error is printed and [sys.exit(1)] ends the
    run; otherwise [argv[1]] selects the function, [argv[2]] is its URL,
    the result or the error for an unknown type is printed, and the run
    ends with status 0. *)
Definition main (net : str -> fetched) (argv : list str) : run :=
  if length argv <? 3 then
    {| printed := Error $"Usage: python scrape_soundcloud.py <type> <url>";
       status := 1 |}
  else
    let scrape_type := nth 1 argv [] in
    let url0 := nth 2 argv [] in
    {| printed :=
         if str_eqb scrape_type $"profile" then scrape_profile net url0
         else if str_eqb scrape_type $"playlist" then scrape_playlist net url0
         else Error ($"Unknown type: " ++ scrape_type);
       status := 0 |}.

(* ================================================================= *)
(** * Specification vocabulary *)

(** [s] occurs in [t]. *)
Definition occurs (s t : str) : Prop := exists pre post, t = pre ++ s ++ post.

(** Equality of texts under [re.IGNORECASE]. *)
Definition eq_ci (a b : str) : Prop := lower a = lower b.

(** The text has only characters with a code below 128: on such a text
    [lower], [title], [strip], the class [\s] and [re.IGNORECASE] are the
    functions of this file. *)
Definition ascii_text (s : str) : bool := forallb (fun c => code c <? 128) s.


(** The text [y] is the literal [l]. *)
Definition lit_ok (ci : bool) (l y : str) : Prop :=
  if ci then eq_ci l y /\ length y = length l else y = l.

(** The text of the open group, if any, grows by [y]. *)
Definition extend (cur : option str) (y : str) : option str :=
  option_map (fun c => c ++ y) cur.

(** What a pattern denotes: [matches ci r s cur caps res] holds when [r]
    can consume a prefix of [s], leaving the groups and the rest [res];
    [cur] is the text consumed since the last unclosed parenthesis.
    Unlike [match_here] it does not say which of several matches is
    preferred. *)
Inductive matches (ci : bool)
  : regex -> str -> option str -> list str -> mres -> Prop :=
| M_end s cur caps : matches ci [] s cur caps (rev caps, s)
| M_lit l r y s' cur caps res :
    lit_ok ci l y ->
    matches ci r s' (extend cur y) caps res ->
    matches ci (Lit l :: r) (y ++ s') cur caps res
| M_rep g mn c r w s' cur caps res :
    Forall (fun a => cls_match c a = true) w ->
    mn <= length w ->
    matches ci r s' (extend cur w) caps res ->
    matches ci (Rep g mn c :: r) (w ++ s') cur caps res
| M_opt_take a r s' cur caps res :
    matches ci r s' (extend cur [a]) caps res ->
    matches ci (Opt a :: r) (a :: s') cur caps res
| M_opt_skip a r s cur caps res :
    matches ci r s cur caps res ->
    matches ci (Opt a :: r) s cur caps res
| M_open r s cur caps res :
    matches ci r s (Some []) caps res ->
    matches ci (GOpen :: r) s cur caps res
| M_close r s c caps res :
    matches ci r s None (c :: caps) res ->
    matches ci (GClose :: r) s (Some c) caps res
| M_eos r s cur caps res :
    at_end s = true ->
    matches ci r s cur caps res ->
    matches ci (Eos :: r) s cur caps res.

(** [r] has a match that starts at the beginning of [s]. *)
Definition matches_at (ci : bool) (r : regex) (s : str) : Prop :=
  exists res, matches ci r s None [] res.

(** The final loop as a recursive function: the records of [ts] whose URL
    is neither in [seen] nor carried by an earlier record. *)
Fixpoint dedupe (ts : list track) (seen : list str) : list track :=
  match ts with
  | [] => []
  | t :: rest =>
      if mem (url t) seen then dedupe rest seen
      else t :: dedupe rest (url t :: seen)
  end.

(** The records of [ts] with the URL [u]. *)
Definition with_url (u : str) (ts : list track) : list track :=
  filter (fun t => str_eqb (url t) u) ts.

(** The invariant of the passes: the URLs of [tracks] are pairwise
    distinct and all in [seen_urls]. *)
Definition consistent (st : acc) : Prop :=
  NoDup (map url (tracks st)) /\ incl (map url (tracks st)) (seen_urls st).

(** Every URL of [seen_urls] that satisfies [V] has a record. *)
Definition kept (V : str -> Prop) (st : acc) : Prop :=
  forall u, In u (seen_urls st) -> V u -> In u (map url (tracks st)).

(** One iteration of a loop of a pass does nothing, or records a URL
    that has a record already unless [V] fails for it, or records a new URL
    and appends a record for it that satisfies [P]. *)
Inductive moves (V : str -> Prop) (P : track -> Prop) (st : acc)
  : acc -> Prop :=
| moves_none : moves V P st st
| moves_see u :
    (V u -> In u (map url (tracks st))) -> moves V P st (see u st)
| moves_add r :
    mem (url r) (seen_urls st) = false -> P r ->
    moves V P st (append r (see (url r) st)).

(** Any number of such iterations. *)
Inductive reaches (V : str -> Prop) (P : track -> Prop) : acc -> acc -> Prop :=
| reaches_refl st : reaches V P st st
| reaches_step st1 st2 st3 :
    reaches V P st1 st2 -> moves V P st2 st3 -> reaches V P st1 st3.

(** [u] is [https://soundcloud.com/a/t] for some non-empty [a] and [t]
    free of [/]. *)
Definition track_url_form (u : str) : Prop :=
  exists a t, u = host ++ a ++ [slash] ++ t /\
              a <> [] /\ ~ In slash a /\ t <> [] /\ ~ In slash t.

(** The condition on URLs that always holds. *)
Definition any_url (u : str) : Prop := True.

(** [url.replace('https://soundcloud.com/', '').split('/')] *)
Definition url_parts (u : str) : list str := split slash (replace host [] u).

(** The URL without its host prefix is [artist/track], both non-empty. *)
Definition two_segments (u : str) : Prop :=
  exists a t, url_parts u = [a; t] /\ a <> [] /\ t <> [].

(** The input at the last unclosed parenthesis, when [cur] has been
    consumed since and [s] is left. *)
Definition opened_of (cur : option str) (s : str) : option str :=
  option_map (fun c => c ++ s) cur.

(** [u] is not the URL of a set or of a playlist. *)
Definition no_sets (u : str) : Prop :=
  ~ occurs $"/sets/" u /\ ~ occurs $"/playlists/" u.

(** [u] is not the URL of a reposts page. *)
Definition no_reposts (u : str) : Prop := ~ occurs $"/reposts" u.

(** [u] is [https://soundcloud.com/a/t] with two non-empty segments. *)
Definition slug_form (u a t : str) : Prop :=
  u = host ++ a ++ [slash] ++ t /\
  a <> [] /\ ~ In slash a /\ t <> [] /\ ~ In slash t.

(** Records of method 1 of [scrape_profile]. *)
Definition href_scanned (r : track) : Prop :=
  no_sets (url r) /\ no_reposts (url r) /\ two_segments (url r).

(** Records of methods 2 and 3 of [scrape_profile]. *)
Definition slug_checked (r : track) : Prop :=
  exists a t, slug_form (url r) a t /\ ~ In t reserved /\ ~ In dq t.

(** Records of [scrape_profile]. *)
Definition profile_record (r : track) : Prop :=
  href_scanned r \/ slug_checked r.

(** Records of methods 0 and 2 of [scrape_playlist]. *)
Definition canonical (r : track) : Prop :=
  no_sets (url r) /\ two_segments (url r) /\ ~ In "?"%char (url r).

(** Records of method 1 of [scrape_playlist]. *)
Definition label_resolved (r : track) : Prop :=
  no_sets (url r) /\
  exists a t, url r = host ++ a ++ [slash] ++ t /\
              a <> [] /\ ~ In slash a /\ ~ In dq t.

(** Records of [scrape_playlist]. *)
Definition playlist_record (r : track) : Prop :=
  canonical r \/ label_resolved r.

(** The groups of a match of [href_pattern] or [cover_art_pattern]. *)
Definition slug_pair (m : list str) : Prop :=
  exists a t, m = [a; t] /\
    a <> [] /\ ~ In slash a /\ t <> [] /\ ~ In slash t /\ ~ In dq t.

(** The groups of a match of the sound-item patterns. *)
Definition label_pair (m : list str) : Prop :=
  exists name artist_name, m = [name; artist_name] /\
    name <> [] /\ ~ In dq name /\ artist_name <> [] /\ ~ In dq artist_name.

(** [s] begins with an href attribute whose value is [/a/t], where [t]
    contains the first 30 characters of [slug], case ignored. *)
Definition href_hit (slug s a t rest : str) : Prop :=
  exists h,
    s = h ++ a ++ [slash] ++ t ++ [dq] ++ rest /\
    eq_ci ($"href=" ++ [dq; slash]) h /\
    a <> [] /\ ~ In slash a /\ ~ In dq t /\
    exists x y z, t = x ++ y ++ z /\ eq_ci (firstn 30 slug) y.

(** No position of [html] has such an attribute. *)
Definition no_href (slug html : str) : Prop :=
  forall pre s a t rest, html = pre ++ s -> ~ href_hit slug s a t rest.

(** The first such attribute of [html], in document order, has the value
    [/a/t]. *)
Definition first_href (slug html a t : str) : Prop :=
  exists pre s rest,
    html = pre ++ s /\ href_hit slug s a t rest /\
    forall p1 p2 a' t' rest',
      pre = p1 ++ p2 -> p2 <> [] -> ~ href_hit slug (p2 ++ s) a' t' rest'.

(** The state after the iteration for one label whose href resolves to
    [/a/t]. *)
Definition label_outcome (name artist_name a t : str) (st : acc) : acc :=
  let u := host ++ a ++ [slash] ++ t in
  if negb (mem u (seen_urls st)) && negb (contains $"/sets/" u)
     && negb (contains $"/playlists/" u)
  then append {| url := u; title := strip name;
                 artist := Some (strip artist_name);
                 fullTitle := strip artist_name ++ $" - " ++ strip name;
                 thumbnail := None |}
              (see u st)
  else st.


(* ----------------------------------------------------------------- *)
(** ** Example pages and records *)

(** A page with one cover-art link: the href scan and the cover-art scan
    both find its URL. *)
Definition cover_page : str :=
  $"<a class=" ++ q "sound__coverArt" ++ $" href="
  ++ q "/artist-name/my-track" ++ $"></a>".

(** The record of the example of the specification. *)
Definition my_track : track :=
  {| url := $"https://soundcloud.com/artist-name/my-track";
     title := $"My Track"; artist := Some $"Artist Name";
     fullTitle := $"Artist Name - My Track"; thumbnail := None |}.

(** A playlist page with a link to a reposts page. *)
Definition reposts_page : str := $"<a href=" ++ q "/artist/reposts" ++ $">Reposts</a>".

(** The record [scrape_playlist] returns for it. *)
Definition reposts_track : track :=
  {| url := $"https://soundcloud.com/artist/reposts";
     title := $"Reposts"; artist := Some $"Artist";
     fullTitle := $"Artist - Reposts"; thumbnail := None |}.




(** A playlist page with one sound-list item whose link carries a query
    string. *)
Definition label_query_page : str :=
  $"<li class=" ++ q "soundList__item" ++ $"><a href="
  ++ q "/artist/track-x?in_system_playlist=1" ++ $" aria-label="
  ++ q "Track: Track X by Artist" ++ $">x</a></li>".


(** The text that opens an href attribute. *)
Definition href_open : str := $"href=" ++ [dq].

(** The attribute [href=\q/artist-name/my-track\q]. *)
Definition the_href : str := $"href=" ++ q "/artist-name/my-track".

(** The URL built from it. *)
Definition the_url : str := $"https://soundcloud.com/artist-name/my-track".

(** A page whose text around the attribute is [pre] and [post]. *)
Definition single_href_page (pre post : str) : str := pre ++ the_href ++ post.

(** The record of method 1 for the href [/artist-name/my-track] on the
    profile page of [username]. *)
Definition href_track (username : option str) : track :=
  {| url := the_url;
     title := $"My Track";
     artist := option_map display_artist username;
     fullTitle := match username with
                  | Some u => display_artist u ++ $" - " ++ $"My Track"
                  | None => $"My Track"
                  end;
     thumbnail := None |}.

(** A profile page with the single link of the example. *)
Definition href_page : str := $"<a " ++ the_href ++ $">My Track</a>".

(** The record of method 1 for that link on the profile page of
    [someone]; method 3 would give the artist [Artist Name]. *)
Definition someone_track : track :=
  {| url := $"https://soundcloud.com/artist-name/my-track";
     title := $"My Track"; artist := Some $"Someone";
     fullTitle := $"Someone - My Track"; thumbnail := None |}.

(** The page of the example followed by a second plain link. *)
Definition two_href_page : str :=
  href_page ++ $"<a href=" ++ q "/artist-name/tracks" ++ $">All</a>".

(** The record of the second link. *)
Definition tracks_track : track :=
  {| url := $"https://soundcloud.com/artist-name/tracks";
     title := $"Tracks"; artist := Some $"Artist Name";
     fullTitle := $"Artist Name - Tracks"; thumbnail := None |}.

(** A cover-art link to the path [/sets/mix], which method 1 rejects. *)
Definition sets_url : str := $"https://soundcloud.com/sets/mix".

(** The page of the example followed by that cover-art link: method 1
    stores the first link and method 3 the second. *)
Definition sets_cover_page : str :=
  href_page ++ $"<a class=" ++ q "sound__coverArt" ++ $" href="
  ++ q "/sets/mix" ++ $"></a>".

(** The record of method 3 for that link. *)
Definition sets_track : track :=
  {| url := sets_url; title := $"Mix"; artist := Some $"Sets";
     fullTitle := $"Sets - Mix"; thumbnail := None |}.

(* ----------------------------------------------------------------- *)
(** ** Vocabulary of the further properties *)

(** The record has no thumbnail and its [fullTitle] is made of its artist
    and title. *)
Definition well_titled (r : track) : Prop :=
  thumbnail r = None /\
  fullTitle r = match artist r with
                | Some a => a ++ $" - " ++ title r
                | None => title r
                end.

(** From [st] to [st'] the list [tracks] only grows, by records that
    satisfy [Q]. *)
Definition extends (Q : track -> Prop) (st st' : acc) : Prop :=
  exists l, tracks st' = tracks st ++ l /\ Forall Q l.

(** From [st] to [st'] the list [tracks] gets at most [n] records. *)
Definition grows (n : nat) (st st' : acc) : Prop :=
  length (tracks st') <= length (tracks st) + n.

(** The text of an href attribute whose value is the path [/a/t]. *)
Definition href_attr (a t : str) : str :=
  href_open ++ [slash] ++ a ++ [slash] ++ t ++ [dq].

(** The URL [u] is the value of an href attribute of [html], completed
    with the host when the value is a path. *)
Definition linked (html u : str) : Prop :=
  (exists x, u = host ++ x /\ occurs (href_open ++ u ++ [dq]) html) \/
  (exists p, u = host ++ p /\ occurs (href_open ++ [slash] ++ p ++ [dq]) html) \/
  (startswith u $"http" = true /\
   occurs (href_open ++ [slash] ++ u ++ [dq]) html).

(** The URL [u], with or without its host prefix, is in [html] the
    beginning of the value of an href attribute, the name of the attribute
    in any letter case. *)
Definition linked_ci (html u : str) : Prop :=
  exists h p,
    (u = host ++ p \/ u = p) /\ occurs (h ++ p) html /\
    (eq_ci href_open h \/ eq_ci (href_open ++ [slash]) h).

(** The record is the one built from the two segments of its URL. *)
Definition slug_made (r : track) : Prop :=
  exists a t, url_parts (url r) = [a; t] /\ r = slug_track (url r) a t.

(** The separators [-] and [_] replaced by a space. *)
Definition unsep (c : ascii) : ascii :=
  if Ascii.eqb c "-"%char || Ascii.eqb c "_"%char then " "%char else c.

(* ----------------------------------------------------------------- *)
(** ** Vocabulary of the further properties of the structured-data
    extraction *)

Module HydrationShape.

Import Hydration.

(** The tests that a URL passes before a record is appended, and the
    shape of the record. *)
Definition accepted (h : heap) (r : record) : Prop :=
  is_true h (url r) = true /\
  py_in h $"soundcloud.com" (url r) = Returns true /\
  py_in h $"/sets/" (url r) = Returns false /\
  py_in h $"/playlists/" (url r) = Returns false /\
  fullTitle r = (if is_true h (artist r) then Joined (artist r) (title r)
                 else Plain (title r)).

(** The record is the one that the dictionary at some address gives. *)
Definition from_dict (h : heap) (r : record) : Prop :=
  exists a items, deref h a = Some (ODict items) /\ look h items [] = Returns [r].

(** [None] or a string. *)
Definition str_or_none (v : value) : bool :=
  match v with VNone | VStr _ => true | _ => false end.

(** The value of the key [k], when present, satisfies [p]. *)
Definition field (p : value -> bool) (k : str) (items : list (str * value))
  : bool :=
  match get k items with Some v => p v | None => true end.

(** [None], or the address of a dictionary whose [username], when
    present, is a string or [None]. *)
Definition user_or_none (h : heap) (v : value) : bool :=
  match v with
  | VNone => true
  | VRef a =>
      match deref h a with
      | Some (ODict uitems) => field str_or_none $"username" uitems
      | _ => false
      end
  | _ => false
  end.

(** The dictionary has the types of a track of the hydration data: its
    [permalink_url], [uri] and [title] are strings or [None], its [user]
    is [None] or a dictionary whose [username] is a string or [None]; each
    of these when present.  The values that line 202 formats are then
    strings or [None], and formatting those cannot fail; a number of
    thousands of digits or a deeply nested value can make the formatting
    raise, which [look] does not show. *)
Definition typed_dict (h : heap) (items : list (str * value)) : bool :=
  field str_or_none $"permalink_url" items && field str_or_none $"uri" items
  && field str_or_none $"title" items
  && field (user_or_none h) $"user" items.

(** The url, the title and the artist of the record are strings or
    [None]. *)
Definition plain_record (r : record) : Prop :=
  str_or_none (url r) = true /\ str_or_none (title r) = true /\
  str_or_none (artist r) = true.

(** Every dictionary of the heap has these types. *)
Definition typed_heap (h : heap) : Prop :=
  forall a items, deref h a = Some (ODict items) -> typed_dict h items = true.

(** Numbers, strings, booleans and [None]. *)
Definition scalar (v : value) : bool :=
  match v with VRef _ => false | _ => true end.

(** The dictionary [items] inside [n] nested lists: the dictionary is at
    address 0 and the list at address [i + 1] holds the object at address
    [i]. *)
Definition nest (n : nat) (items : list (str * value)) : heap :=
  ODict items :: map (fun i => OList [VRef i]) (seq 0 n).

(** [{'uri': 5}] *)
Definition number_url_heap : heap := [ODict [($"uri", VInt 5)]].

(** [{'uri': u, 'user': 'bob'}] for a track URL [u]. *)
Definition text_user_heap : heap :=
  [ODict [($"uri", VStr same_url); ($"user", VStr $"bob")]].

End HydrationShape.

(** * Properties of the string primitives *)

Lemma str_eqb_eq (a b : str) : str_eqb a b = true <-> a = b.
Proof.
  unfold str_eqb. destruct (list_eq_dec ascii_dec a b); split; congruence.
Qed.

Lemma str_eqb_refl (a : str) : str_eqb a a = true.
Proof. now apply str_eqb_eq. Qed.

Lemma str_eqb_neq (a b : str) : str_eqb a b = false <-> a <> b.
Proof.
  unfold str_eqb. destruct (list_eq_dec ascii_dec a b); split; congruence.
Qed.

Lemma mem_In (x : str) (xs : list str) : mem x xs = true <-> In x xs.
Proof.
  unfold mem. rewrite existsb_exists. split.
  - intros (y & Hy & E). apply str_eqb_eq in E. now subst.
  - intros H. exists x. split; [assumption | apply str_eqb_refl].
Qed.

Lemma mem_not_In (x : str) (xs : list str) : mem x xs = false <-> ~ In x xs.
Proof.
  rewrite <- mem_In. destruct (mem x xs); split; congruence.
Qed.

Lemma strip_prefix_app (p s r : str) :
  strip_prefix p s = Some r <-> s = p ++ r.
Proof.
  revert s. induction p as [|a p IH]; intros s; simpl.
  - split; congruence.
  - destruct s as [|b s]; [split; discriminate|].
    destruct (Ascii.eqb_spec a b) as [->|N].
    + rewrite IH. split; congruence.
    + split; [discriminate | congruence].
Qed.

Lemma strip_prefix_ci_app (p s r : str) :
  strip_prefix_ci p s = Some r <->
  exists y, s = y ++ r /\ eq_ci p y /\ length y = length p.
Proof.
  unfold eq_ci. revert s. induction p as [|a p IH]; intros s; simpl.
  - split.
    + intros [= ->]. now exists [].
    + intros (y & -> & _ & L). destruct y; [reflexivity | discriminate].
  - destruct s as [|b s].
    + split; [discriminate|]. intros ([|c y] & E & _ & L); discriminate.
    + unfold ascii_eqb_ci. destruct (Ascii.eqb_spec (lower_char a) (lower_char b)) as [E|N].
      * rewrite IH. split.
        -- intros (y & -> & Hy & L). exists (b :: y). simpl. now rewrite E, Hy, L.
        -- intros ([|c y] & Hs & Hy & L); [discriminate|].
           simpl in *. injection Hs as -> ->. injection Hy as _ Hy. injection L as L.
           now exists y.
      * split; [discriminate|].
        intros ([|c y] & Hs & Hy & L); [discriminate|].
        simpl in *. injection Hs as -> ->. now injection Hy as Hc _.
Qed.

Lemma startswith_app (s p : str) :
  startswith s p = true <-> exists r, s = p ++ r.
Proof.
  unfold startswith. destruct (strip_prefix p s) as [r|] eqn:E.
  - apply strip_prefix_app in E. split; [now exists r | reflexivity].
  - split; [discriminate|]. intros [r Hr].
    apply strip_prefix_app in Hr. congruence.
Qed.

Lemma contains_occurs (sub s : str) : contains sub s = true <-> occurs sub s.
Proof.
  unfold occurs. induction s as [|c s IH].
  - simpl. rewrite orb_false_r, startswith_app. split.
    + intros [r Hr]. now exists [], r.
    + intros (pre & post & H). destruct pre; [now exists post|discriminate].
  - simpl. rewrite orb_true_iff, IH, startswith_app. split.
    + intros [[r Hr] | (pre & post & H)].
      * now exists [], r.
      * exists (c :: pre), post. now rewrite H.
    + intros ([|d pre] & post & H).
      * left. now exists post.
      * right. injection H as _ H. now exists pre, post.
Qed.

Lemma contains_false (sub s : str) :
  contains sub s = false <-> ~ occurs sub s.
Proof.
  rewrite <- contains_occurs. destruct (contains sub s); split; congruence.
Qed.

Lemma before_spec (c : ascii) (s : str) :
  ~ In c (before c s) /\ exists r, s = before c s ++ r.
Proof.
  induction s as [|a s [IH1 [r IH2]]]; simpl.
  - split; [tauto | now exists []].
  - destruct (Ascii.eqb_spec a c) as [->|N].
    + split; [tauto | now exists (c :: s)].
    + split.
      * simpl. intros [E|I]; [congruence | tauto].
      * exists r. simpl. now rewrite <- IH2.
Qed.

Lemma split_not_nil (c : ascii) (s : str) : split c s <> [].
Proof.
  destruct s as [|a s]; simpl; [discriminate|].
  destruct (Ascii.eqb a c); [discriminate|].
  destruct (split c s); discriminate.
Qed.

Lemma split_one (c : ascii) (s : str) : ~ In c s -> split c s = [s].
Proof.
  induction s as [|a s IH]; simpl; intros H; [reflexivity|].
  destruct (Ascii.eqb_spec a c) as [->|N]; [tauto|].
  rewrite IH by tauto. reflexivity.
Qed.

Lemma split_app (c : ascii) (a t : str) :
  ~ In c a -> split c (a ++ c :: t) = a :: split c t.
Proof.
  induction a as [|x a IH]; simpl; intros H.
  - now rewrite Ascii.eqb_refl.
  - destruct (Ascii.eqb_spec x c) as [->|N]; [tauto|].
    rewrite IH by tauto. reflexivity.
Qed.

Lemma split_inv1 (c : ascii) (s w : str) :
  split c s = [w] -> s = w /\ ~ In c w.
Proof.
  revert w. induction s as [|x s IH]; simpl; intros w H.
  - injection H as <-. split; [reflexivity | tauto].
  - destruct (Ascii.eqb_spec x c) as [->|N].
    + injection H as _ H. now apply split_not_nil in H.
    + destruct (split c s) as [|w' ws] eqn:E; [now apply split_not_nil in E|].
      injection H as <- ->. destruct (IH w' eq_refl) as [-> Hw].
      split; [reflexivity|]. simpl. intros [F|F]; [congruence | tauto].
Qed.

Lemma split_two (c : ascii) (s a t : str) :
  split c s = [a; t] <-> s = a ++ c :: t /\ ~ In c a /\ ~ In c t.
Proof.
  split.
  - revert a. induction s as [|x s IH]; simpl; intros a H; [discriminate|].
    destruct (Ascii.eqb_spec x c) as [->|N].
    + injection H as <- H. apply split_inv1 in H as [-> Ht].
      simpl. tauto.
    + destruct (split c s) as [|w' ws] eqn:E; [now apply split_not_nil in E|].
      injection H as <- ->. destruct (IH w' eq_refl) as (-> & Ha & Ht).
      split; [reflexivity|]. split; [|assumption].
      simpl. intros [F|F]; [congruence | tauto].
  - intros (-> & Ha & Ht). rewrite split_app by assumption.
    now rewrite split_one.
Qed.

(** * The final loop *)

Lemma unique_fold (ts us : list track) (seen : list str) :
  fst (fold_left unique_step ts (us, seen)) = us ++ dedupe ts seen.
Proof.
  revert us seen. induction ts as [|t ts IH]; intros us seen; simpl.
  - now rewrite app_nil_r.
  - unfold unique_step at 2. simpl.
    destruct (mem (url t) seen); simpl.
    + apply IH.
    + rewrite IH, <- app_assoc. reflexivity.
Qed.

Lemma unique_tracks_dedupe (ts : list track) : unique_tracks ts = dedupe ts [].
Proof. unfold unique_tracks. now rewrite unique_fold. Qed.

Lemma dedupe_In (ts : list track) (seen : list str) (r : track) :
  In r (dedupe ts seen) -> In r ts /\ ~ In (url r) seen.
Proof.
  revert seen. induction ts as [|t ts IH]; intros seen; simpl; [tauto|].
  destruct (mem (url t) seen) eqn:E.
  - intros H. apply IH in H. tauto.
  - apply mem_not_In in E. intros [<-|H]; [tauto|].
    apply IH in H. simpl in H. tauto.
Qed.

Lemma dedupe_NoDup (ts : list track) (seen : list str) :
  NoDup (map url (dedupe ts seen)).
Proof.
  revert seen. induction ts as [|t ts IH]; intros seen; simpl.
  - constructor.
  - destruct (mem (url t) seen); [apply IH|].
    simpl. constructor; [|apply IH].
    rewrite in_map_iff. intros (r & E & H).
    apply dedupe_In in H as [_ H]. apply H. rewrite E. now left.
Qed.

Lemma dedupe_id (ts : list track) (seen : list str) :
  NoDup (map url ts) -> (forall u, In u (map url ts) -> ~ In u seen) ->
  dedupe ts seen = ts.
Proof.
  revert seen. induction ts as [|t ts IH]; intros seen ND D; simpl; [reflexivity|].
  simpl in ND. inversion ND as [|? ? Hn ND']; subst.
  destruct (mem (url t) seen) eqn:E.
  - apply mem_In in E. exfalso. apply (D (url t)); [now left | assumption].
  - f_equal. apply IH; [assumption|].
    intros u Hu [<-|I]; [tauto|]. apply (D u); [now right | assumption].
Qed.

Lemma with_url_absent (ts : list track) (u : str) :
  ~ In u (map url ts) -> with_url u ts = [].
Proof.
  unfold with_url. induction ts as [|t ts IH]; simpl; intros H; [reflexivity|].
  destruct (str_eqb (url t) u) eqn:E.
  - apply str_eqb_eq in E. tauto.
  - apply IH. tauto.
Qed.

Lemma with_url_unique (ts : list track) (r : track) :
  NoDup (map url ts) -> In r ts -> with_url (url r) ts = [r].
Proof.
  induction ts as [|t ts IH]; simpl; intros ND I; [tauto|].
  inversion ND as [|? ? Hn ND']; subst. unfold with_url. simpl.
  destruct I as [->|I].
  - rewrite str_eqb_refl. f_equal. now apply with_url_absent.
  - destruct (str_eqb (url t) (url r)) eqn:E.
    + apply str_eqb_eq in E. exfalso. apply Hn. rewrite E. now apply in_map.
    + now apply IH.
Qed.

Lemma with_url_dedupe_seen (ts : list track) (seen : list str) (u : str) :
  In u seen -> with_url u (dedupe ts seen) = [].
Proof.
  intros I. apply with_url_absent. rewrite in_map_iff.
  intros (r & E & H). apply dedupe_In in H as [_ H]. now rewrite E in H.
Qed.

Lemma dedupe_first (ts : list track) (seen : list str) (u : str) (r : track) :
  ~ In u seen ->
  List.find (fun t => str_eqb (url t) u) ts = Some r ->
  with_url u (dedupe ts seen) = [r].
Proof.
  revert seen. induction ts as [|t ts IH]; intros seen N F; simpl in *;
    [discriminate|].
  destruct (str_eqb (url t) u) eqn:E.
  - injection F as <-. apply str_eqb_eq in E. subst u.
    rewrite (proj2 (mem_not_In _ _) N).
    unfold with_url. simpl. rewrite str_eqb_refl. f_equal.
    apply with_url_dedupe_seen. now left.
  - apply str_eqb_neq in E. destruct (mem (url t) seen) eqn:M.
    + now apply IH.
    + unfold with_url. simpl.
      rewrite (proj2 (str_eqb_neq _ _) E).
      apply IH; [|assumption]. simpl. intros [H|H]; [congruence | tauto].
Qed.

Lemma finish_spec (ts : list track) :
  NoDup (map url ts) ->
  finish ts = match ts with [] => Error $"No tracks found" | _ => Tracks ts end.
Proof.
  intros ND. unfold finish. rewrite unique_tracks_dedupe.
  rewrite dedupe_id by (simpl in *; auto).
  now destruct ts.
Qed.

Lemma finish_cases (ts : list track) :
  (ts = [] /\ finish ts = Error $"No tracks found") \/
  (ts <> [] /\ finish ts = Tracks (dedupe ts []) /\ dedupe ts [] <> []).
Proof.
  unfold finish. rewrite unique_tracks_dedupe.
  destruct ts as [|t ts]; [now left|]. right.
  split; [discriminate|]. simpl. split; [reflexivity | discriminate].
Qed.

(** * The running state *)

Lemma moves_consistent (V : str -> Prop) (P : track -> Prop) (st st' : acc) :
  moves V P st st' -> consistent st -> consistent st'.
Proof.
  intros M [ND I]. destruct M as [|u Hu|r Hm Hr]; unfold consistent; simpl.
  - now split.
  - split; [assumption|]. now apply incl_tl.
  - apply mem_not_In in Hm. rewrite map_app. simpl. split.
    + apply NoDup_app; [assumption | repeat constructor; simpl; tauto |].
      intros u Hu [<-|[]]. apply Hm. now apply I.
    + apply incl_app; [now apply incl_tl|].
      intros u [<-|[]]. now left.
Qed.

Lemma reaches_consistent (V : str -> Prop) (P : track -> Prop) (st st' : acc) :
  reaches V P st st' -> consistent st -> consistent st'.
Proof.
  induction 1; intros C; [assumption|].
  eapply moves_consistent; eauto.
Qed.

Lemma reaches_tracks (V : str -> Prop) (P : track -> Prop) (st st' : acc) :
  reaches V P st st' -> exists l, tracks st' = tracks st ++ l /\ Forall P l.
Proof.
  induction 1 as [st|st1 st2 st3 R (l & E & F) M].
  - exists []. now rewrite app_nil_r.
  - destruct M as [|u Hu|r Hm Hr]; simpl.
    + now exists l.
    + now exists l.
    + exists (l ++ [r]). rewrite E, app_assoc. split; [reflexivity|].
      apply Forall_app. split; [assumption | now constructor].
Qed.

Lemma reaches_trans (V : str -> Prop) (P : track -> Prop) (st1 st2 st3 : acc) :
  reaches V P st1 st2 -> reaches V P st2 st3 -> reaches V P st1 st3.
Proof.
  intros R1 R2. induction R2 as [st|sa sb sc R IH M]; [assumption|].
  eapply reaches_step; [apply IH; assumption | exact M].
Qed.

Lemma moves_weaken (V : str -> Prop) (P Q : track -> Prop) (st st' : acc) :
  (forall r, P r -> Q r) -> moves V P st st' -> moves V Q st st'.
Proof. intros W M. destruct M; constructor; auto. Qed.

Lemma reaches_weaken (V : str -> Prop) (P Q : track -> Prop) (st st' : acc) :
  (forall r, P r -> Q r) -> reaches V P st st' -> reaches V Q st st'.
Proof.
  intros W R. induction R; [constructor|].
  eapply reaches_step; [eassumption | eapply moves_weaken; eauto].
Qed.

Lemma reaches_one (V : str -> Prop) (P : track -> Prop) (st st' : acc) :
  moves V P st st' -> reaches V P st st'.
Proof. intros M. eapply reaches_step; [apply reaches_refl | exact M]. Qed.

Lemma fold_reaches (A : Type) (V : str -> Prop) (P : track -> Prop) (f : acc -> A -> acc)
      (ms : list A) :
  (forall st m, In m ms -> reaches V P st (f st m)) ->
  forall st, reaches V P st (fold_left f ms st).
Proof.
  induction ms as [|m ms IH]; intros H st; simpl; [constructor|].
  eapply reaches_trans.
  - apply H. now left.
  - apply IH. intros st' m' I. apply H. now right.
Qed.

Lemma moves_kept (V : str -> Prop) (P : track -> Prop) (st st' : acc) :
  moves V P st st' -> kept V st -> kept V st'.
Proof.
  intros M K. destruct M as [|u Hu|r Hm Hr]; unfold kept; simpl.
  - exact K.
  - intros u' [<-|I] Vu; [now apply Hu | now apply K].
  - intros u' I Vu. rewrite map_app. apply in_or_app.
    destruct I as [<-|I]; [right; now left | left; now apply K].
Qed.

Lemma reaches_kept (V : str -> Prop) (P : track -> Prop) (st st' : acc) :
  reaches V P st st' -> kept V st -> kept V st'.
Proof.
  induction 1; intros K; [assumption|].
  eapply moves_kept; eauto.
Qed.

Lemma consistent_init : consistent init.
Proof. split; simpl; [constructor | intros u []]. Qed.

(** * The engine against the denotation of patterns *)

Lemma lit_strip (ci : bool) (l s s' : str) :
  (if ci then strip_prefix_ci l s else strip_prefix l s) = Some s' <->
  exists y, s = y ++ s' /\ lit_ok ci l y.
Proof.
  unfold lit_ok. destruct ci.
  - rewrite strip_prefix_ci_app. split; intros (y & H); exists y; tauto.
  - rewrite strip_prefix_app. split.
    + intros ->. now exists l.
    + now intros (y & -> & ->).
Qed.

Lemma rep_match_sound (k : str -> option mres) (g : bool) (mn : nat)
      (c : cls) (s : str) (n : nat) (res : mres) :
  rep_match k g mn c s n = Some res ->
  exists w s', s = w ++ s' /\ Forall (fun a => cls_match c a = true) w
               /\ mn <= n + length w /\ k s' = Some res.
Proof.
  assert (Stop : forall s n, (if mn <=? n then k s else None) = Some res ->
    exists w s', s = w ++ s' /\ Forall (fun a => cls_match c a = true) w
                 /\ mn <= n + length w /\ k s' = Some res).
  { intros s0 n0 H. destruct (Nat.leb_spec mn n0); [|discriminate].
    exists [], s0. simpl. repeat split; auto. lia. }
  revert n. induction s as [|a s IH]; intros n; simpl; [apply Stop|].
  assert (Go : rep_match k g mn c s (S n) = Some res -> cls_match c a = true ->
    exists w s', a :: s = w ++ s' /\ Forall (fun a => cls_match c a = true) w
                 /\ mn <= n + length w /\ k s' = Some res).
  { intros H Ha. apply IH in H as (w & s' & -> & F & L & K).
    exists (a :: w), s'. simpl. repeat split; auto. lia. }
  destruct (cls_match c a) eqn:Ha; [|apply Stop].
  destruct g; unfold orelse.
  - destruct (rep_match k true mn c s (S n)) eqn:E; [|apply Stop].
    intros [= <-]. now apply Go.
  - destruct (if mn <=? n then k (a :: s) else None) eqn:E.
    + intros [= <-]. now apply Stop.
    + intros H. now apply Go.
Qed.

Lemma rep_match_complete (k : str -> option mres) (g : bool) (mn : nat)
      (c : cls) (w s' : str) (n : nat) (res : mres) :
  Forall (fun a => cls_match c a = true) w -> mn <= n + length w ->
  k s' = Some res ->
  exists res', rep_match k g mn c (w ++ s') n = Some res'.
Proof.
  intros F. revert n. induction F as [|a w Ha F IH]; intros n L K; simpl in *.
  - assert (Stop : (if mn <=? n then k s' else None) = Some res).
    { destruct (Nat.leb_spec mn n); [assumption | lia]. }
    destruct s' as [|b s']; simpl; [now exists res|].
    rewrite Stop. destruct (cls_match c b); [|now exists res].
    destruct g; unfold orelse; [|now exists res].
    destruct (rep_match k true mn c s' (S n)) as [x|]; [now exists x | now exists res].
  - rewrite Ha. destruct (IH (S n)) as [x Hx]; [lia | assumption |].
    destruct g; unfold orelse.
    + rewrite Hx. now exists x.
    + destruct (if mn <=? n then k (a :: w ++ s') else None) as [z|];
        [now exists z | now exists x].
Qed.

Lemma firstn_cut (c s : str) : firstn (length (c ++ s) - length s) (c ++ s) = c.
Proof.
  rewrite length_app. replace (length c + length s - length s) with (length c) by lia.
  rewrite firstn_app, Nat.sub_diag, firstn_all. simpl. apply app_nil_r.
Qed.

Lemma opened_extend (cur : option str) (y s : str) :
  opened_of cur (y ++ s) = opened_of (extend cur y) s.
Proof. destruct cur; simpl; [now rewrite app_assoc | reflexivity]. Qed.

Lemma match_here_sound (ci : bool) (r : regex) :
  forall s cur caps res,
    match_here ci r s (opened_of cur s) caps = Some res ->
    matches ci r s cur caps res.
Proof.
  induction r as [|it r IH]; intros s cur caps res; simpl.
  - intros [= <-]. constructor.
  - destruct it as [l|g mn c|a| | |].
    + destruct (if ci then strip_prefix_ci l s else strip_prefix l s) as [s'|] eqn:E;
        [|discriminate].
      apply lit_strip in E as (y & -> & Hy). rewrite opened_extend.
      intros H. apply M_lit; auto.
    + intros H. apply rep_match_sound in H as (w & s' & -> & F & L & K).
      rewrite opened_extend in K. apply M_rep; auto.
    + destruct s as [|b s].
      * intros H. apply M_opt_skip; auto.
      * destruct (Ascii.eqb_spec a b) as [<-|N].
        -- unfold orelse.
           destruct (match_here ci r s (opened_of cur (a :: s)) caps) as [x|] eqn:E.
           ++ intros [= <-]. apply M_opt_take. apply IH.
              now rewrite <- (opened_extend cur [a] s).
           ++ intros H. apply M_opt_skip; auto.
        -- intros H. apply M_opt_skip; auto.
    + intros H. apply M_open. apply (IH s (Some [])). exact H.
    + destruct cur as [c|]; simpl; [|discriminate].
      rewrite firstn_cut. intros H. apply M_close. apply (IH s None). exact H.
    + destruct (at_end s) eqn:E; [|discriminate].
      intros H. apply M_eos; auto.
Qed.

Lemma match_here_complete (ci : bool) (r : regex) (s : str)
      (cur : option str) (caps : list str) (res : mres) :
  matches ci r s cur caps res ->
  exists res', match_here ci r s (opened_of cur s) caps = Some res'.
Proof.
  induction 1 as [s cur caps|l r y s' cur caps res Hy M IH
                  |g mn c r w s' cur caps res F L M IH
                  |a r s' cur caps res M IH|a r s cur caps res M IH
                  |r s cur caps res M IH|r s c caps res M IH
                  |r s cur caps res E M IH]; simpl.
  - eexists; reflexivity.
  - assert (E : (if ci then strip_prefix_ci l (y ++ s') else strip_prefix l (y ++ s'))
                = Some s') by (apply lit_strip; now exists y).
    rewrite E, opened_extend. exact IH.
  - destruct IH as [x Hx]. rewrite <- opened_extend in Hx.
    eapply rep_match_complete; eauto.
  - rewrite Ascii.eqb_refl. destruct IH as [x Hx].
    rewrite <- (opened_extend cur [a] s') in Hx. simpl in Hx.
    rewrite Hx. now exists x.
  - destruct IH as [x Hx]. destruct s as [|b s]; [now exists x|].
    destruct (Ascii.eqb a b); [|now exists x].
    unfold orelse.
    destruct (match_here ci r s (opened_of cur (b :: s)) caps) as [z|];
      [now exists z | now exists x].
  - exact IH.
  - rewrite firstn_cut. exact IH.
  - rewrite E. exact IH.
Qed.

Lemma re_match_sound (ci : bool) (r : regex) (s : str) (res : mres) :
  re_match ci r s = Some res -> matches ci r s None [] res.
Proof. intros H. now apply match_here_sound. Qed.

Lemma re_match_none (ci : bool) (r : regex) (s : str) :
  re_match ci r s = None <-> ~ matches_at ci r s.
Proof.
  split.
  - intros H [res M]. apply match_here_complete in M as [x Hx].
    unfold re_match in H. change (opened_of None s) with (@None str) in Hx.
    congruence.
  - intros H. destruct (re_match ci r s) as [res|] eqn:E; [|reflexivity].
    exfalso. apply H. exists res. now apply re_match_sound.
Qed.

Lemma findall_from_In (ci : bool) (r : regex) (s : str) (skip : nat)
      (caps : list str) :
  In caps (findall_from ci r s skip) ->
  exists pre s' rest, s = pre ++ s' /\ re_match ci r s' = Some (caps, rest).
Proof.
  revert skip. induction s as [|a s IH]; intros skip; simpl.
  - destruct skip; destruct (re_match ci r []) as [[c rest]|] eqn:E;
      simpl; try tauto.
    intros [<-|[]]. now exists [], [], rest.
  - assert (Tail : forall k, In caps (findall_from ci r s k) ->
      exists pre s' rest, a :: s = pre ++ s' /\ re_match ci r s' = Some (caps, rest)).
    { intros k H. apply IH in H as (pre & s' & rest & -> & M).
      now exists (a :: pre), s', rest. }
    destruct skip; [|apply Tail].
    destruct (re_match ci r (a :: s)) as [[c rest]|] eqn:E; [|apply Tail].
    intros [<-|H]; [|now apply Tail in H].
    now exists [], (a :: s), rest.
Qed.

Lemma findall_In (ci : bool) (r : regex) (s : str) (caps : list str) :
  In caps (findall ci r s) ->
  exists pre s' rest, s = pre ++ s' /\ matches ci r s' None [] (caps, rest).
Proof.
  intros H. apply findall_from_In in H as (pre & s' & rest & E & M).
  exists pre, s', rest. split; [assumption | now apply re_match_sound].
Qed.

Lemma search_some (ci : bool) (r : regex) (s : str) (caps : list str) :
  search ci r s = Some caps ->
  exists pre s' rest,
    s = pre ++ s' /\ matches ci r s' None [] (caps, rest) /\
    forall p1 p2, pre = p1 ++ p2 -> p2 <> [] -> ~ matches_at ci r (p2 ++ s').
Proof.
  induction s as [|a s IH]; simpl.
  - destruct (re_match ci r []) as [[c rest]|] eqn:E; [|discriminate].
    intros [= <-]. exists [], [], rest. split; [reflexivity|].
    split; [now apply re_match_sound|].
    intros p1 p2 H N. destruct p1; destruct p2; try discriminate. congruence.
  - destruct (re_match ci r (a :: s)) as [[c rest]|] eqn:E.
    + intros [= <-]. exists [], (a :: s), rest. split; [reflexivity|].
      split; [now apply re_match_sound|].
      intros p1 p2 H N. destruct p1; destruct p2; try discriminate. congruence.
    + intros H. apply IH in H as (pre & s' & rest & -> & M & Least).
      exists (a :: pre), s', rest. split; [reflexivity|]. split; [assumption|].
      intros [|b p1] p2 H N; simpl in H.
      * subst p2. simpl. now apply re_match_none.
      * injection H as _ H. eapply Least; eauto.
Qed.

Lemma search_none (ci : bool) (r : regex) (s : str) :
  search ci r s = None ->
  forall pre s', s = pre ++ s' -> ~ matches_at ci r s'.
Proof.
  induction s as [|a s IH]; simpl.
  - destruct (re_match ci r []) as [[c rest]|] eqn:E; [discriminate|].
    intros _ pre s' H. destruct pre; destruct s'; try discriminate.
    now apply re_match_none.
  - destruct (re_match ci r (a :: s)) as [[c rest]|] eqn:E; [discriminate|].
    intros H [|b pre] s' Hs; simpl in Hs.
    + subst s'. now apply re_match_none.
    + injection Hs as _ Hs. eapply IH; eauto.
Qed.

Lemma class_not (ex : list ascii) (w : str) :
  Forall (fun a => cls_match (CNot ex) a = true) w ->
  forall x, In x ex -> ~ In x w.
Proof.
  intros F x Hx Hw. rewrite Forall_forall in F. specialize (F x Hw).
  simpl in F. apply negb_true_iff in F.
  assert (T : existsb (Ascii.eqb x) ex = true).
  { apply existsb_exists. exists x. split; [assumption | apply Ascii.eqb_refl]. }
  congruence.
Qed.

Lemma length_pos_not_nil (A : Type) (w : list A) : 1 <= length w -> w <> [].
Proof. destruct w; simpl; [lia | discriminate]. Qed.

(** Peels a derivation of [matches] for a pattern that is given in
    full. *)
Ltac peel :=
  repeat match goal with
         | H : matches _ (_ :: _) _ _ _ _ |- _ =>
             inversion H; subst; clear H; cbn [extend option_map] in *
         | H : matches _ [] _ _ _ _ |- _ =>
             inversion H; subst; clear H
         | H : lit_ok false _ _ |- _ =>
             unfold lit_ok in H; subst
         end.

Ltac class_facts :=
  solve [ now apply length_pos_not_nil
        | eapply class_not; [eassumption | simpl; tauto] ].

Ltac norm_app := repeat (progress simpl || rewrite <- app_assoc).

Ltac close_inv :=
  repeat split; try assumption; try class_facts;
  try (norm_app; reflexivity).

Lemma href_pattern_inv (s rest : str) (caps : list str) :
  matches false href_pattern s None [] (caps, rest) ->
  exists a t,
    caps = [a; t] /\
    s = $"href=" ++ [dq; slash] ++ a ++ [slash] ++ t ++ [dq] ++ rest /\
    a <> [] /\ ~ In slash a /\ t <> [] /\ ~ In slash t /\ ~ In dq t.
Proof.
  unfold href_pattern. intros M. peel.
  match goal with
  | Fa : Forall (fun _ => cls_match (CNot [slash]) _ = true) ?a,
    Ft : Forall (fun _ => cls_match (CNot [slash; dq]) _ = true) ?t |- _ =>
      exists a, t
  end.
  close_inv.
Qed.

Lemma cover_art_pattern_inv (s rest : str) (caps : list str) :
  matches false cover_art_pattern s None [] (caps, rest) ->
  exists front a t,
    caps = [a; t] /\
    s = front ++ $"href=" ++ [dq; slash] ++ a ++ [slash] ++ t ++ [dq] ++ rest /\
    a <> [] /\ ~ In slash a /\ t <> [] /\ ~ In slash t /\ ~ In dq t.
Proof.
  unfold cover_art_pattern. intros M. peel.
  match goal with
  | Fa : Forall (fun _ => cls_match (CNot [slash]) _ = true) ?a,
    Ft : Forall (fun _ => cls_match (CNot [slash; dq]) _ = true) ?t
    |- exists _ _ _, _ /\ ?l ++ ?w1 ++ ?c ++ ?w2 ++ ?k ++ ?w3 ++ ?d ++ ?w4 ++ _ = _ /\ _ =>
      exists (l ++ w1 ++ c ++ w2 ++ k ++ w3 ++ d ++ w4), a, t
  end.
  close_inv.
Qed.

Lemma relative_url_re_inv (s rest : str) (caps : list str) :
  matches false relative_url_re s None [] (caps, rest) ->
  exists a t,
    caps = [a ++ [slash] ++ t] /\
    s = $"href=" ++ [dq; slash] ++ a ++ [slash] ++ t ++ [dq] ++ rest /\
    a <> [] /\ ~ In slash a /\ t <> [] /\ ~ In slash t /\ ~ In dq t.
Proof.
  unfold relative_url_re. intros M. peel.
  match goal with
  | Fa : Forall (fun _ => cls_match (CNot [slash]) _ = true) ?a,
    Ft : Forall (fun _ => cls_match (CNot [slash; dq]) _ = true) ?t |- _ =>
      exists a, t
  end.
  close_inv.
Qed.

Lemma full_url_re_inv (s rest : str) (caps : list str) :
  matches false full_url_re s None [] (caps, rest) ->
  exists a t,
    caps = [host ++ a ++ [slash] ++ t] /\
    s = $"href=" ++ [dq] ++ host ++ a ++ [slash] ++ t ++ [dq] ++ rest /\
    a <> [] /\ ~ In slash a /\ t <> [] /\ ~ In slash t /\ ~ In dq t.
Proof.
  unfold full_url_re. intros M. peel.
  match goal with
  | Fa : Forall (fun _ => cls_match (CNot [slash]) _ = true) ?a,
    Ft : Forall (fun _ => cls_match (CNot [slash; dq]) _ = true) ?t |- _ =>
      exists a, t
  end.
  close_inv.
Qed.

Lemma user_re_inv (s rest : str) (caps : list str) :
  matches false user_re s None [] (caps, rest) ->
  exists u, caps = [u] /\ s = $"soundcloud.com/" ++ u ++ rest /\
            u <> [] /\ ~ In slash u.
Proof.
  unfold user_re. intros M. peel.
  match goal with
  | Fu : Forall _ ?u |- _ => exists u
  end.
  close_inv.
Qed.

Lemma lower_char_fix (c x : ascii) :
  is_lower x = false -> lower_char c = x -> c = x.
Proof.
  unfold lower_char, is_lower, is_upper, code. intros Hx.
  destruct ((65 <=? nat_of_ascii c) && (nat_of_ascii c <=? 90)) eqn:U;
    [|tauto].
  apply andb_true_iff in U as [U1 U2].
  apply Nat.leb_le in U1. apply Nat.leb_le in U2.
  intros <-. rewrite nat_ascii_embedding in Hx by lia.
  apply andb_false_iff in Hx as [H|H]; apply Nat.leb_gt in H; lia.
Qed.

Lemma eq_ci_single (x : ascii) (y : str) :
  is_lower x = false -> is_upper x = false -> eq_ci [x] y -> y = [x].
Proof.
  unfold eq_ci. intros Hl Hu H. destruct y as [|c [|d y]]; try discriminate.
  simpl in H. injection H as H. f_equal.
  apply lower_char_fix; [assumption|].
  rewrite <- H. unfold lower_char. now rewrite Hu.
Qed.

Lemma eq_ci_length (a b : str) : eq_ci a b -> length a = length b.
Proof.
  unfold eq_ci, lower. intros H.
  rewrite <- (length_map lower_char a), H. apply length_map.
Qed.

Lemma fuzzy_shape_inv (hr l30 s rest : str) (caps : list str) :
  matches true
    [Lit hr; GOpen; Rep true 1 (CNot [slash]); GClose; Lit [slash]; GOpen;
     Rep true 0 (CNot [dq]); Lit l30; Rep true 0 (CNot [dq]); GClose; Lit [dq]]
    s None [] (caps, rest) ->
  exists h a x y z,
    caps = [a; x ++ y ++ z] /\
    s = h ++ a ++ [slash] ++ (x ++ y ++ z) ++ [dq] ++ rest /\
    eq_ci hr h /\ a <> [] /\ ~ In slash a /\
    eq_ci l30 y /\ ~ In dq x /\ ~ In dq z.
Proof.
  intros M. peel.
  repeat match goal with
         | H : lit_ok true _ _ |- _ => destruct H as [? ?]
         end.
  repeat match goal with
         | H : eq_ci [_] _ |- _ =>
             apply eq_ci_single in H; [subst | reflexivity | reflexivity]
         end.
  match goal with
  | Fa : Forall (fun _ => cls_match (CNot [slash]) _ = true) ?a,
    Hh : eq_ci hr ?h, Hy : eq_ci l30 ?y
    |- exists _ _ _ _ _, [_; (?x ++ _) ++ ?z] = _ /\ _ =>
      exists h, a, x, y, z
  end.
  close_inv.
Qed.

Lemma fuzzy_href_pattern_inv (slug s rest : str) (caps : list str) :
  matches true (fuzzy_href_pattern slug) s None [] (caps, rest) ->
  exists h a x y z,
    caps = [a; x ++ y ++ z] /\
    s = h ++ a ++ [slash] ++ (x ++ y ++ z) ++ [dq] ++ rest /\
    eq_ci ($"href=" ++ [dq; slash]) h /\
    a <> [] /\ ~ In slash a /\
    eq_ci (firstn 30 slug) y /\ ~ In dq x /\ ~ In dq z.
Proof. apply fuzzy_shape_inv. Qed.

(** * Removing the host prefix *)

Lemma replace_from_skip (old new w s : str) :
  replace_from old new (w ++ s) (length w) = replace_from old new s 0.
Proof. induction w as [|c w IH]; simpl; [reflexivity | exact IH]. Qed.

Lemma occurs_tail (sub s : str) (c : ascii) : occurs sub s -> occurs sub (c :: s).
Proof. intros (pre & post & ->). now exists (c :: pre), post. Qed.

Lemma replace_absent (old new s : str) :
  ~ occurs old s -> replace old new s = s.
Proof.
  unfold replace. induction s as [|c s IH]; intros H; simpl; [reflexivity|].
  destruct (startswith (c :: s) old) eqn:E.
  - exfalso. apply H. apply startswith_app in E as [r ->]. now exists [], r.
  - f_equal. apply IH. intros O. apply H. now apply occurs_tail.
Qed.

Lemma replace_prefix (old new s : str) :
  old <> [] -> replace old new (old ++ s) = new ++ replace old new s.
Proof.
  destruct old as [|c old]; [congruence|]. intros _.
  unfold replace. simpl app. cbn [replace_from].
  assert (E : startswith (c :: old ++ s) (c :: old) = true).
  { apply startswith_app. now exists s. }
  rewrite E. f_equal.
  replace (length (c :: old) - 1) with (length old) by (simpl; lia).
  apply replace_from_skip.
Qed.

Lemma host_slashes (x : str) :
  occurs host x -> 3 <= count_occ ascii_dec x slash.
Proof.
  intros (pre & post & ->). rewrite !count_occ_app.
  change (count_occ ascii_dec host slash) with 3. lia.
Qed.

Lemma one_slash (a t : str) :
  ~ In slash a -> ~ In slash t ->
  count_occ ascii_dec (a ++ [slash] ++ t) slash = 1.
Proof.
  intros Ha Ht. rewrite !count_occ_app.
  rewrite (proj1 (count_occ_not_In ascii_dec a slash) Ha).
  rewrite (proj1 (count_occ_not_In ascii_dec t slash) Ht).
  reflexivity.
Qed.

Lemma url_parts_slug (a t : str) :
  ~ In slash a -> ~ In slash t ->
  url_parts (host ++ a ++ [slash] ++ t) = [a; t].
Proof.
  intros Ha Ht. unfold url_parts.
  rewrite replace_prefix by discriminate.
  rewrite replace_absent.
  - simpl. apply split_two. auto.
  - intros O. apply host_slashes in O. rewrite one_slash in O by assumption. lia.
Qed.

Lemma two_segments_slug (a t : str) :
  a <> [] -> ~ In slash a -> t <> [] -> ~ In slash t ->
  two_segments (host ++ a ++ [slash] ++ t).
Proof.
  intros Na Ha Nt Ht. exists a, t. rewrite url_parts_slug by assumption. auto.
Qed.

Lemma truthy_not_nil (s : str) : truthy s = true <-> s <> [].
Proof. destruct s; simpl; split; congruence. Qed.

Lemma In_app_not (A : Type) (x : A) (l1 l2 : list A) :
  ~ In x l1 -> ~ In x l2 -> ~ In x (l1 ++ l2).
Proof. intros H1 H2 H. apply in_app_or in H. tauto. Qed.

(** * What each pass appends *)

Lemma not_In_existsb (c : ascii) (l : str) :
  existsb (Ascii.eqb c) l = false -> ~ In c l.
Proof.
  intros H I. assert (T : existsb (Ascii.eqb c) l = true).
  { apply existsb_exists. exists c. split; [assumption | apply Ascii.eqb_refl]. }
  congruence.
Qed.

Lemma no_sets_of (u : str) :
  contains $"/sets/" u = false -> contains $"/playlists/" u = false ->
  no_sets u.
Proof. intros H1 H2. split; now apply contains_false. Qed.

Lemma profile_href_step_moves (V : str -> Prop) (username : option str) (st : acc) (m : str) :
  moves V href_scanned st (profile_href_step username st m).
Proof.
  unfold profile_href_step.
  set (track_url := if negb (startswith m $"http") then host ++ m else m).
  destruct (contains $"/sets/" track_url) eqn:E1; [constructor|].
  destruct (contains $"/playlists/" track_url) eqn:E2; [constructor|].
  destruct (contains $"/reposts" track_url) eqn:E3; [constructor|].
  cbn.
  destruct (split slash (replace host [] track_url)) as [|a [|t [|x l]]] eqn:S;
    try constructor.
  destruct (truthy a) eqn:Ta; [|constructor].
  destruct (truthy t) eqn:Tt; [|constructor].
  cbn. destruct (mem track_url (seen_urls st)) eqn:Hm; [constructor|].
  cbn. apply moves_add; cbn; [assumption|].
  split; [now apply no_sets_of|]. split; [now apply contains_false|].
  exists a, t. unfold url_parts. cbn.
  split; [assumption|]. split; now apply truthy_not_nil.
Qed.

Lemma profile_pass1_reaches (V : str -> Prop) (username : option str) (html : str) (st : acc) :
  reaches V href_scanned st (profile_pass1 username html st).
Proof.
  unfold profile_pass1. apply fold_reaches. intros st1 pattern _.
  apply fold_reaches. intros st2 m _.
  apply reaches_one, profile_href_step_moves.
Qed.

Lemma skip_slug_false (t : str) : skip_slug t = false -> ~ In t reserved.
Proof.
  unfold skip_slug. intros H.
  apply orb_false_iff in H as [_ H]. now apply mem_not_In.
Qed.

Lemma slug_step_moves (V : str -> Prop) (st : acc) (a t : str) (r : track) :
  a <> [] -> ~ In slash a -> t <> [] -> ~ In slash t -> ~ In dq t ->
  skip_slug t = false ->
  url r = host ++ a ++ [slash] ++ t ->
  mem (url r) (seen_urls st) = false ->
  moves V slug_checked st
        (match existing (url r) (see (url r) st) with
         | None => append r (see (url r) st)
         | Some _ => see (url r) st
         end).
Proof.
  intros Na Ha Nt Ht Hq Hs Hu Hm.
  destruct (existing (url r) (see (url r) st)) as [x|] eqn:E.
  { apply moves_see. intros _. unfold existing in E.
    apply find_some in E as [I Ex]. apply str_eqb_eq in Ex.
    rewrite <- Ex. now apply in_map. }
  apply moves_add; [assumption|].
  exists a, t. split; [|split; [now apply skip_slug_false | assumption]].
  unfold slug_form. auto.
Qed.

Lemma claim_href_moves (V : str -> Prop) (track_name artist_name : str)
      (hrefs : list (list str)) (st : acc) :
  Forall slug_pair hrefs ->
  moves V slug_checked st (claim_href track_name artist_name hrefs st).
Proof.
  induction 1 as [|m hrefs (a & t & -> & Na & Ha & Nt & Ht & Hq) F IH];
    cbn; [constructor|].
  unfold group; cbn.
  destruct (skip_slug t) eqn:Hs; [exact IH|].
  destruct (mem (host ++ a ++ slash :: t) (seen_urls st)) eqn:Hm; [exact IH|].
  cbn.
  exact (@slug_step_moves V st a t
           (label_track (host ++ a ++ slash :: t) track_name artist_name)
           Na Ha Nt Ht Hq Hs eq_refl Hm).
Qed.

Lemma href_matches_pairs (context : str) :
  Forall slug_pair (findall false href_pattern context).
Proof.
  apply Forall_forall. intros m H.
  apply findall_In in H as (pre & s' & rest & _ & M).
  apply href_pattern_inv in M as (a & t & -> & _ & F).
  now exists a, t.
Qed.

Lemma profile_pass2_reaches (V : str -> Prop) (html : str) (st : acc) :
  reaches V slug_checked st (profile_pass2 html st).
Proof.
  unfold profile_pass2. apply fold_reaches. intros st1 m _.
  unfold profile_label_step.
  destruct (find _ html); [|constructor].
  apply reaches_one, claim_href_moves, href_matches_pairs.
Qed.

Lemma profile_cover_step_moves (V : str -> Prop) (st : acc) (m : list str) :
  slug_pair m -> moves V slug_checked st (profile_cover_step st m).
Proof.
  intros (a & t & -> & Na & Ha & Nt & Ht & Hq).
  unfold profile_cover_step, group; cbn.
  destruct (skip_slug t) eqn:Hs; [constructor|].
  destruct (mem (host ++ a ++ slash :: t) (seen_urls st)) eqn:Hm; [constructor|].
  cbn.
  exact (@slug_step_moves V st a t (slug_track (host ++ a ++ slash :: t) a t)
           Na Ha Nt Ht Hq Hs eq_refl Hm).
Qed.

Lemma profile_pass3_reaches (V : str -> Prop) (html : str) (st : acc) :
  reaches V slug_checked st (profile_pass3 html st).
Proof.
  unfold profile_pass3. apply fold_reaches. intros st1 m H.
  apply reaches_one, profile_cover_step_moves.
  apply findall_In in H as (pre & s' & rest & _ & M).
  apply cover_art_pattern_inv in M as (front & a & t & -> & _ & F).
  now exists a, t.
Qed.

Lemma profile_tracks_reaches (u html : str) :
  reaches any_url profile_record init (profile_tracks u html).
Proof.
  unfold profile_tracks.
  eapply reaches_trans; [eapply reaches_trans|].
  - eapply reaches_weaken; [|apply profile_pass1_reaches]. now left.
  - eapply reaches_weaken; [|apply profile_pass2_reaches]. now right.
  - eapply reaches_weaken; [|apply profile_pass3_reaches]. now right.
Qed.

Lemma host_no_query : ~ In "?"%char host.
Proof. apply not_In_existsb. reflexivity. Qed.

Lemma not_track_url_form (clean : str) :
  (forall a t, split slash clean = [a; t] -> truthy a && truthy t = false) ->
  ~ track_url_form (host ++ clean).
Proof.
  intros H (a & t & E & Na & Ha & Nt & Ht). apply app_inv_head in E.
  assert (S : split slash clean = [a; t]) by (apply split_two; auto).
  specialize (H a t S).
  apply truthy_not_nil in Na, Nt. rewrite Na, Nt in H. discriminate H.
Qed.

Lemma station_step_moves (st : acc) (m : str) :
  moves track_url_form canonical st (station_step st m).
Proof.
  unfold station_step.
  destruct (before_spec "?"%char m) as [Hq _].
  set (clean := before "?"%char m) in *.
  destruct (mem (host ++ clean) (seen_urls st)) eqn:Hm; [constructor|].
  destruct (contains $"/sets/" (host ++ clean)) eqn:E1; [constructor|].
  destruct (contains $"/playlists/" (host ++ clean)) eqn:E2; [constructor|].
  cbn.
  assert (Only : (forall a t, split slash clean = [a; t] ->
                              truthy a && truthy t = false) ->
                 moves track_url_form canonical st (see (host ++ clean) st)).
  { intros H. apply moves_see. intros F. exfalso. revert F.
    now apply not_track_url_form. }
  destruct (split slash clean) as [|a [|t [|x l]]] eqn:S;
    try (apply Only; intros a' t' S'; discriminate S').
  destruct (truthy a && truthy t) eqn:T.
  - apply andb_true_iff in T as [Ta Tt].
    apply split_two in S as (E & Ha & Ht).
    apply moves_add; cbn; [assumption|].
    split; [now apply no_sets_of|]. split.
    + rewrite E. apply two_segments_slug; auto; now apply truthy_not_nil.
    + apply In_app_not; [apply host_no_query | assumption].
  - apply Only. intros a' t' [= <- <-]. exact T.
Qed.

Lemma playlist_pass0_reaches (html : str) (st : acc) :
  reaches track_url_form canonical st (playlist_pass0 html st).
Proof.
  unfold playlist_pass0. apply fold_reaches. intros st1 m _.
  apply reaches_one, station_step_moves.
Qed.

Lemma playlist_href_step_moves (V : str -> Prop) (st : acc) (m : str) :
  moves V canonical st (playlist_href_step st m).
Proof.
  unfold playlist_href_step.
  destruct (before_spec "?"%char m) as [Hq _].
  set (track_url := if negb (startswith m $"http")
                    then host ++ before "?"%char m else before "?"%char m).
  assert (Q : ~ In "?"%char track_url).
  { unfold track_url. destruct (negb (startswith m $"http")); [|assumption].
    apply In_app_not; [apply host_no_query | assumption]. }
  destruct (contains $"/sets/" track_url) eqn:E1; [constructor|].
  destruct (contains $"/playlists/" track_url) eqn:E2; [constructor|].
  cbn.
  destruct (split slash (replace host [] track_url)) as [|a [|t [|x l]]] eqn:S;
    try constructor.
  destruct (truthy a) eqn:Ta; [|constructor].
  destruct (truthy t) eqn:Tt; [|constructor].
  cbn. destruct (mem track_url (seen_urls st)) eqn:Hm; [constructor|].
  cbn. apply moves_add; cbn; [assumption|].
  split; [now apply no_sets_of|]. split; [|assumption].
  exists a, t. split; [assumption|]. split; now apply truthy_not_nil.
Qed.

Lemma playlist_pass2_reaches (V : str -> Prop) (html : str) (st : acc) :
  reaches V canonical st (playlist_pass2 html st).
Proof.
  unfold playlist_pass2. apply fold_reaches. intros st1 pattern _.
  apply fold_reaches. intros st2 m _.
  apply reaches_one, playlist_href_step_moves.
Qed.

(** The double quote survives none of the operations on a label. *)

Lemma In_replace_from (c : ascii) (old new s : str) (k : nat) :
  In c (replace_from old new s k) -> In c s \/ In c new.
Proof.
  revert k. induction s as [|a s IH]; intros k; simpl; [tauto|].
  destruct k as [|k].
  - destruct (startswith (a :: s) old).
    + intros H. apply in_app_or in H as [H|H]; [tauto|].
      apply IH in H. tauto.
    + intros [H|H]; [tauto|]. apply IH in H. tauto.
  - intros H. apply IH in H. tauto.
Qed.

Lemma In_replace (c : ascii) (old new s : str) :
  In c (replace old new s) -> In c s \/ In c new.
Proof. apply In_replace_from. Qed.

Lemma In_lower_uncased (c : ascii) (s : str) :
  is_lower c = false -> In c (lower s) -> In c s.
Proof.
  intros Hc H. apply in_map_iff in H as (x & E & I).
  apply lower_char_fix in E; [now subst | assumption].
Qed.

Lemma In_firstn (A : Type) (x : A) (n : nat) (l : list A) :
  In x (firstn n l) -> In x l.
Proof.
  intros H. rewrite <- (firstn_skipn n l). apply in_or_app. now left.
Qed.

Lemma slug_no_quote (name : str) :
  ~ In dq name -> ~ In dq (firstn 30 (track_name_slug name)).
Proof.
  intros H I. apply H. apply In_firstn in I. unfold track_name_slug in I.
  repeat (apply In_replace in I as [I|I];
          [|solve [destruct I as [I|I]; [discriminate I | destruct I]
                  | destruct I]]).
  now apply In_lower_uncased in I.
Qed.

Lemma eq_ci_uncased (c : ascii) (a b : str) :
  is_lower c = false -> is_upper c = false ->
  eq_ci a b -> ~ In c a -> ~ In c b.
Proof.
  unfold eq_ci. intros Hl Hu E Ha Hb. apply Ha.
  apply In_lower_uncased; [assumption|]. rewrite E.
  apply in_map_iff. exists c. split; [|assumption].
  unfold lower_char. now rewrite Hu.
Qed.

Lemma playlist_sound_item_pattern_inv (s rest : str) (caps : list str) :
  matches false playlist_sound_item_pattern s None [] (caps, rest) ->
  label_pair caps.
Proof.
  unfold playlist_sound_item_pattern, sound_item_pattern. cbn [app].
  intros M. peel.
  match goal with
  | |- label_pair [?n; ?a] => exists n, a
  end.
  close_inv.
Qed.

Lemma playlist_labels (html : str) :
  Forall label_pair (findall false playlist_sound_item_pattern html).
Proof.
  apply Forall_forall. intros m H.
  apply findall_In in H as (pre & s' & rest & _ & M).
  now apply playlist_sound_item_pattern_inv in M.
Qed.

Lemma class_not_intro (ex : list ascii) (w : str) :
  (forall x, In x ex -> ~ In x w) ->
  Forall (fun a => cls_match (CNot ex) a = true) w.
Proof.
  intros H. apply Forall_forall. intros a Ha. simpl.
  apply negb_true_iff. destruct (existsb (Ascii.eqb a) ex) eqn:E; [|reflexivity].
  apply existsb_exists in E as (x & Hx & Ex).
  apply Ascii.eqb_eq in Ex. subst x. exfalso. now apply (H a).
Qed.

Lemma class_not_one (c : ascii) (w : str) :
  ~ In c w -> Forall (fun a => cls_match (CNot [c]) a = true) w.
Proof.
  intros H. apply class_not_intro. intros x [<-|[]]. assumption.
Qed.

Lemma hit_of_match (slug s rest : str) (caps : list str) :
  ~ In dq (firstn 30 slug) ->
  matches true (fuzzy_href_pattern slug) s None [] (caps, rest) ->
  exists a t, caps = [a; t] /\ href_hit slug s a t rest.
Proof.
  intros Hq M.
  apply fuzzy_href_pattern_inv in M
    as (h & a & x & y & z & -> & -> & Hh & Na & Ha & Hy & Hx & Hz).
  exists a, (x ++ y ++ z). split; [reflexivity|].
  exists h. repeat split; auto.
  - repeat apply In_app_not; auto.
    eapply eq_ci_uncased; eauto.
  - now exists x, y, z.
Qed.

Lemma match_of_hit (slug s a t rest : str) :
  href_hit slug s a t rest -> matches_at true (fuzzy_href_pattern slug) s.
Proof.
  intros (h & -> & Hh & Na & Ha & Hq & x & y & z & -> & Hy).
  assert (Hx : ~ In dq x) by (intros I; apply Hq, in_or_app; now left).
  assert (Hz : ~ In dq z)
    by (intros I; apply Hq, in_or_app; right; apply in_or_app; now right).
  exists ([a; x ++ y ++ z], rest). unfold fuzzy_href_pattern.
  apply M_lit; [split; [assumption | symmetry; now apply eq_ci_length]|].
  apply M_open. cbn [extend option_map].
  apply M_rep; [now apply class_not_one | destruct a; simpl; [congruence | lia] |].
  cbn [extend option_map app]. apply M_close.
  apply (@M_lit true [slash] _ [slash]); [now split|].
  apply M_open. cbn [extend option_map].
  rewrite <- !app_assoc.
  apply M_rep; [now apply class_not_one | lia |].
  apply M_lit; [split; [assumption | symmetry; now apply eq_ci_length]|].
  apply M_rep; [now apply class_not_one | lia |].
  cbn [extend option_map app]. apply M_close.
  apply (@M_lit true [dq] _ [dq]); [now split|].
  cbn [extend option_map].
  rewrite <- app_assoc. apply (M_end true rest None [x ++ y ++ z; a]).
Qed.

Lemma first_delim (c : ascii) (a a' r r' : str) :
  ~ In c a -> ~ In c a' -> a ++ c :: r = a' ++ c :: r' -> a = a' /\ r = r'.
Proof.
  revert a'. induction a as [|x a IH]; intros [|y a'] Ha Ha' E; simpl in *.
  - injection E as E. auto.
  - injection E as E _. exfalso. apply Ha'. now left.
  - injection E as E _. exfalso. apply Ha. now left.
  - injection E as -> E. destruct (IH a') as [-> ->]; auto.
Qed.




Lemma playlist_label_step_spec (html name artist_name : str) (st : acc) :
  ~ In dq name ->
  let slug := track_name_slug name in
  (no_href slug html /\
   playlist_label_step html st [name; artist_name] = st)
  \/
  (exists a t,
      first_href slug html a t /\
      playlist_label_step html st [name; artist_name]
      = label_outcome name artist_name a t st).
Proof.
  intros Hn slug. pose proof (@slug_no_quote name Hn) as Hq. fold slug in Hq.
  unfold playlist_label_step. cbn [group nth]. fold slug.
  destruct (search true (fuzzy_href_pattern slug) html) as [caps|] eqn:E.
  - right. apply search_some in E as (pre & s & rest & -> & M & Least).
    apply hit_of_match in M as (a & t & -> & Hit); [|assumption].
    exists a, t. split.
    + exists pre, s, rest. split; [reflexivity|]. split; [assumption|].
      intros p1 p2 a' t' rest' Hp Np Hit'.
      apply (Least p1 p2 Hp Np). eapply match_of_hit; eauto.
    + reflexivity.
  - left. split; [|reflexivity].
    intros pre s a t rest -> Hit.
    eapply search_none; eauto. eapply match_of_hit; eauto.
Qed.

Lemma playlist_label_step_moves (V : str -> Prop) (html : str) (st : acc) (m : list str) :
  label_pair m -> moves V label_resolved st (playlist_label_step html st m).
Proof.
  intros (name & artist_name & -> & _ & Hn & _).
  destruct (@playlist_label_step_spec html name artist_name st Hn)
    as [[_ ->] | (a & t & (pre & s & rest & _ & Hit & _) & ->)]; [constructor|].
  unfold label_outcome.
  destruct (mem (host ++ a ++ [slash] ++ t) (seen_urls st)) eqn:Hm; [constructor|].
  destruct (contains $"/sets/" (host ++ a ++ [slash] ++ t)) eqn:E1; [constructor|].
  destruct (contains $"/playlists/" (host ++ a ++ [slash] ++ t)) eqn:E2;
    [constructor|].
  cbn [negb andb]. apply moves_add; cbn [url]; [assumption|].
  split; [now apply no_sets_of|].
  destruct Hit as (h & _ & _ & Na & Ha & Hq & _).
  exists a, t. auto.
Qed.

Lemma playlist_pass1_reaches (V : str -> Prop) (html : str) (st : acc) :
  reaches V label_resolved st (playlist_pass1 html st).
Proof.
  unfold playlist_pass1. apply fold_reaches. intros st1 m H.
  apply reaches_one, playlist_label_step_moves.
  pose proof (playlist_labels html) as F. rewrite Forall_forall in F. auto.
Qed.

Lemma playlist_tracks_reaches (html : str) :
  reaches track_url_form playlist_record init (playlist_tracks html).
Proof.
  unfold playlist_tracks.
  eapply reaches_trans; [eapply reaches_trans|].
  - eapply reaches_weaken; [|apply playlist_pass0_reaches]. now left.
  - eapply reaches_weaken; [|apply playlist_pass1_reaches]. now right.
  - eapply reaches_weaken; [|apply playlist_pass2_reaches]. now left.
Qed.

(** * The two entry points *)

Lemma scrape_profile_page (net : str -> fetched) (url0 html : str) :
  net (profile_url url0) = Page html ->
  scrape_profile net url0
  = finish (tracks (profile_tracks (profile_url url0) html)).
Proof.
  intros H. unfold scrape_profile, scrape_profile_body, urlopen.
  now rewrite H.
Qed.

Lemma scrape_playlist_page (net : str -> fetched) (url0 html : str) :
  net url0 = Page html ->
  scrape_playlist net url0 = finish (tracks (playlist_tracks html)).
Proof.
  intros H. unfold scrape_playlist, scrape_playlist_body, urlopen.
  now rewrite H.
Qed.

Lemma scrape_profile_raised (net : str -> fetched) (url0 msg : str) :
  net (profile_url url0) = Raised msg ->
  scrape_profile_body net url0 = Raise msg.
Proof.
  intros H. unfold scrape_profile_body, urlopen. now rewrite H.
Qed.

Lemma scrape_playlist_raised (net : str -> fetched) (url0 msg : str) :
  net url0 = Raised msg -> scrape_playlist_body net url0 = Raise msg.
Proof.
  intros H. unfold scrape_playlist_body, urlopen. now rewrite H.
Qed.

Lemma finish_consistent (V : str -> Prop) (P : track -> Prop) (st : acc) :
  reaches V P init st ->
  NoDup (map url (tracks st)) /\ Forall P (tracks st) /\
  finish (tracks st)
  = match tracks st with [] => Error $"No tracks found" | _ => Tracks (tracks st) end.
Proof.
  intros R. pose proof (reaches_consistent R consistent_init) as [ND _].
  destruct (reaches_tracks R) as (l & E & F). simpl in E.
  split; [assumption|]. split; [now rewrite E|]. now apply finish_spec.
Qed.

Lemma finish_tracks (V : str -> Prop) (P : track -> Prop) (st : acc) (ts : list track) :
  reaches V P init st -> finish (tracks st) = Tracks ts ->
  ts = tracks st /\ NoDup (map url ts) /\ Forall P ts.
Proof.
  intros R E. destruct (finish_consistent R) as (ND & F & E').
  rewrite E' in E. destruct (tracks st) as [|t l]; [discriminate|].
  injection E as <-. auto.
Qed.

Lemma scrape_profile_inv (net : str -> fetched) (url0 : str) (ts : list track) :
  scrape_profile net url0 = Tracks ts ->
  exists html, net (profile_url url0) = Page html /\
               finish (tracks (profile_tracks (profile_url url0) html)) = Tracks ts.
Proof.
  unfold scrape_profile, scrape_profile_body, urlopen.
  destruct (net (profile_url url0)) as [msg|html]; [discriminate|].
  intros H. now exists html.
Qed.

Lemma scrape_playlist_inv (net : str -> fetched) (url0 : str) (ts : list track) :
  scrape_playlist net url0 = Tracks ts ->
  exists html, net url0 = Page html /\
               finish (tracks (playlist_tracks html)) = Tracks ts.
Proof.
  unfold scrape_playlist, scrape_playlist_body, urlopen.
  destruct (net url0) as [msg|html]; [discriminate|].
  intros H. now exists html.
Qed.

Lemma prefix_of_reaches (V : str -> Prop) (P : track -> Prop) (st st' : acc) :
  reaches V P st st' -> exists l, tracks st' = tracks st ++ l.
Proof. intros R. destruct (reaches_tracks R) as (l & E & _). now exists l. Qed.

(* ================================================================= *)
(** * Properties of the extraction results *)

(** C1. The final loop keeps, for every url of the list it is given,
    exactly one record, the first of the list with that url.  The result
    of [scrape_profile] and of [scrape_playlist] has no two records with
    the same url: every url of the result is carried by exactly one
    record.  First found wins: the list built by a method is only extended
    by the later ones (the result is the list after the last method, of
    which the lists after the earlier methods are prefixes), so a record
    appended for a URL is the one record of the result with that URL,
    whichever later method finds the URL again.  And a URL that a method
    has put in [seen_urls] has its record in the result: always in
    [scrape_profile], and in [scrape_playlist] when the URL is
    [https://soundcloud.com/a/t] with two non-empty segments. *)
Theorem C1_unique_urls_first_wins :
  (forall candidates,
      NoDup (map url (unique_tracks candidates)) /\
      forall u r,
        List.find (fun t => str_eqb (url t) u) candidates = Some r ->
        with_url u (unique_tracks candidates) = [r])
  /\
  (forall net url0 ts,
      scrape_profile net url0 = Tracks ts ->
      NoDup (map url ts) /\
      (forall r, In r ts -> with_url (url r) ts = [r]) /\
      exists html l2 l3,
        net (profile_url url0) = Page html /\
        let s1 := profile_pass1 (username_of (profile_url url0)) html init in
        let s2 := profile_pass2 html s1 in
        let s3 := profile_pass3 html s2 in
        tracks s2 = tracks s1 ++ l2 /\
        ts = tracks s2 ++ l3 /\
        ts = tracks s3 /\
        (forall u, In u (seen_urls s3) -> In u (map url ts)))
  /\
  (forall net url0 ts,
      scrape_playlist net url0 = Tracks ts ->
      NoDup (map url ts) /\
      (forall r, In r ts -> with_url (url r) ts = [r]) /\
      exists html l1 l2,
        net url0 = Page html /\
        let s0 := playlist_pass0 html init in
        let s1 := playlist_pass1 html s0 in
        let s2 := playlist_pass2 html s1 in
        tracks s1 = tracks s0 ++ l1 /\
        ts = tracks s1 ++ l2 /\
        ts = tracks s2 /\
        (forall u, In u (seen_urls s2) -> track_url_form u ->
                   In u (map url ts))).
Proof.
  split.
  { intros candidates. rewrite unique_tracks_dedupe.
    split; [apply dedupe_NoDup|].
    intros u r F. apply dedupe_first; [tauto | exact F]. }
  split; intros net url0 ts H.
  - apply scrape_profile_inv in H as (html & Hn & H).
    pose proof (profile_tracks_reaches (profile_url url0) html) as R.
    destruct (finish_tracks R H) as (E & ND & _).
    split; [assumption|]. split; [intros r; now apply with_url_unique|].
    destruct (prefix_of_reaches
                (profile_pass2_reaches any_url html
                   (profile_pass1 (username_of (profile_url url0)) html init)))
      as [l2 E2].
    destruct (prefix_of_reaches
                (profile_pass3_reaches any_url html
                   (profile_pass2 html
                      (profile_pass1 (username_of (profile_url url0)) html init))))
      as [l3 E3].
    exists html, l2, l3. cbv zeta.
    split; [assumption|]. split; [assumption|].
    unfold profile_tracks in E. split; [now rewrite E|].
    split; [assumption|].
    intros u I. rewrite E. apply (reaches_kept R); [|exact I|exact Logic.I].
    intros u' [].
  - apply scrape_playlist_inv in H as (html & Hn & H).
    pose proof (playlist_tracks_reaches html) as R.
    destruct (finish_tracks R H) as (E & ND & _).
    split; [assumption|]. split; [intros r; now apply with_url_unique|].
    destruct (prefix_of_reaches
                (playlist_pass1_reaches track_url_form html
                   (playlist_pass0 html init)))
      as [l1 E1].
    destruct (prefix_of_reaches
                (playlist_pass2_reaches track_url_form html
                   (playlist_pass1 html (playlist_pass0 html init))))
      as [l2 E2].
    exists html, l1, l2. cbv zeta.
    split; [assumption|]. split; [assumption|].
    unfold playlist_tracks in E. split; [now rewrite E|].
    split; [assumption|].
    intros u I F. rewrite E. apply (reaches_kept R); [|exact I|exact F].
    intros u' [].
Qed.

Lemma C1_witness :
  scrape_profile (serve cover_page) $"https://soundcloud.com/someone"
  = Tracks [someone_track]
  /\ NoDup (map url [someone_track])
  /\ with_url (url someone_track) [someone_track] = [someone_track].
Proof.
  assert (E : scrape_profile (serve cover_page) $"https://soundcloud.com/someone"
              = Tracks [someone_track]) by (vm_compute; reflexivity).
  destruct (proj1 (proj2 C1_unique_urls_first_wins) _ _ _ E) as (ND & One & _).
  split; [exact E|]. split; [exact ND|]. apply One. now left.
Defined.

(** C3. When the methods append no record, [scrape_profile] and
    [scrape_playlist] return [{'error': 'No tracks found'}], and a run
    whose fetch raises nothing returns an error in that case only. *)
Theorem C3_no_tracks_found :
  (forall net url0 html,
      net (profile_url url0) = Page html ->
      let candidates := tracks (profile_tracks (profile_url url0) html) in
      (candidates = [] ->
       scrape_profile net url0 = Error $"No tracks found") /\
      (forall msg, scrape_profile net url0 = Error msg ->
                   candidates = [] /\ msg = $"No tracks found"))
  /\
  (forall net url0 html,
      net url0 = Page html ->
      let candidates := tracks (playlist_tracks html) in
      (candidates = [] ->
       scrape_playlist net url0 = Error $"No tracks found") /\
      (forall msg, scrape_playlist net url0 = Error msg ->
                   candidates = [] /\ msg = $"No tracks found")).
Proof.
  split; intros net url0 html Hn; cbv zeta.
  - rewrite (scrape_profile_page _ _ Hn).
    destruct (finish_cases (tracks (profile_tracks (profile_url url0) html)))
      as [[E ->] | (N & -> & _)].
    + split; [reflexivity|]. intros msg [= <-]. auto.
    + split; [congruence | discriminate].
  - rewrite (scrape_playlist_page _ _ Hn).
    destruct (finish_cases (tracks (playlist_tracks html)))
      as [[E ->] | (N & -> & _)].
    + split; [reflexivity|]. intros msg [= <-]. auto.
    + split; [congruence | discriminate].
Qed.

Lemma C3_witness :
  scrape_profile (serve $"<html></html>") $"https://soundcloud.com/nobody"
  = Error $"No tracks found".
Proof.
  apply (proj1 C3_no_tracks_found (serve $"<html></html>")
               $"https://soundcloud.com/nobody" $"<html></html>").
  - reflexivity.
  - vm_compute. reflexivity.
Defined.

(** C6. An exception raised inside [scrape_profile] or [scrape_playlist]
    is caught and the function returns [{'error': str(e)}], never a list
    of tracks; the statements that can raise are those of the fetch. *)
Theorem C6_exceptions_become_errors :
  (forall net url0 msg,
      scrape_profile_body net url0 = Raise msg ->
      scrape_profile net url0 = Error msg /\
      net (profile_url url0) = Raised msg)
  /\
  (forall net url0 msg,
      net (profile_url url0) = Raised msg ->
      scrape_profile net url0 = Error msg)
  /\
  (forall net url0 msg,
      scrape_playlist_body net url0 = Raise msg ->
      scrape_playlist net url0 = Error msg /\ net url0 = Raised msg)
  /\
  (forall net url0 msg,
      net url0 = Raised msg -> scrape_playlist net url0 = Error msg).
Proof.
  repeat split.
  - unfold scrape_profile. now rewrite H.
  - revert H. unfold scrape_profile_body, urlopen.
    destruct (net (profile_url url0)); simpl; congruence.
  - intros net url0 msg H. unfold scrape_profile.
    now rewrite (scrape_profile_raised _ _ H).
  - unfold scrape_playlist. now rewrite H.
  - revert H. unfold scrape_playlist_body, urlopen.
    destruct (net url0); simpl; congruence.
  - intros net url0 msg H. unfold scrape_playlist.
    now rewrite (scrape_playlist_raised _ _ H).
Qed.

Lemma C6_witness :
  scrape_profile (fun _ => Raised $"timed out") $"https://soundcloud.com/x"
  = Error $"timed out".
Proof.
  apply (proj1 (proj2 C6_exceptions_become_errors)
               (fun _ => Raised $"timed out") $"https://soundcloud.com/x").
  reflexivity.
Defined.


Lemma last_segment (x y a t : str) :
  ~ In slash t -> ~ In slash y -> x ++ [slash] ++ y = a ++ [slash] ++ t -> y = t.
Proof.
  intros Ht Hy E. apply (f_equal (@rev ascii)) in E.
  rewrite !rev_app_distr in E. simpl in E. rewrite <- !app_assoc in E. simpl in E.
  apply first_delim in E as [E _].
  - now rewrite <- (rev_involutive y), E, rev_involutive.
  - now rewrite <- in_rev.
  - now rewrite <- in_rev.
Qed.

(** C2, as the code has it.  No record returned by [scrape_playlist] has
    a url that contains [/sets/] or [/playlists/] (the function has no test
    for [/reposts] or for the reserved words).  Every record returned by
    [scrape_profile] either has a url that contains none of [/sets/],
    [/playlists/] and [/reposts] (method 1), or has the url
    [https://soundcloud.com/a/t] where the track slug [t] is none of the
    reserved words (methods 2 and 3); in both cases the url does not end
    with [/reposts]. *)
Theorem C2_excluded_urls :
  (forall net url0 ts r,
      scrape_playlist net url0 = Tracks ts -> In r ts ->
      ~ occurs $"/sets/" (url r) /\ ~ occurs $"/playlists/" (url r))
  /\
  (forall net url0 ts r,
      scrape_profile net url0 = Tracks ts -> In r ts ->
      ((~ occurs $"/sets/" (url r) /\ ~ occurs $"/playlists/" (url r)
        /\ ~ occurs $"/reposts" (url r))
       \/
       (exists a t, url r = host ++ a ++ [slash] ++ t /\ ~ In slash t
                    /\ ~ In t reserved))
      /\ (forall x, url r <> x ++ $"/reposts")).
Proof.
  split; intros net url0 ts r H I.
  - apply scrape_playlist_inv in H as (html & _ & H).
    destruct (finish_tracks (playlist_tracks_reaches html) H) as (_ & _ & F).
    rewrite Forall_forall in F. destruct (F r I) as [(N & _) | (N & _)]; exact N.
  - apply scrape_profile_inv in H as (html & _ & H).
    destruct (finish_tracks (profile_tracks_reaches _ html) H) as (_ & _ & F).
    rewrite Forall_forall in F.
    destruct (F r I) as [((N1 & N2) & N3 & _) | (a & t & (E & _ & _ & _ & Ht) & R & _)].
    + split; [left; auto|]. intros x E. apply N3. exists x, []. now rewrite app_nil_r.
    + split; [right; now exists a, t|]. intros x E'. rewrite E in E'.
      apply R. change ($"/reposts") with ([slash] ++ $"reposts") in E'.
      symmetry in E'. rewrite (app_assoc host a) in E'.
      apply last_segment in E'; [|assumption|apply not_In_existsb; reflexivity].
      subst t. simpl. tauto.
Qed.

Lemma C2_witness :
  scrape_playlist (serve reposts_page) $"https://soundcloud.com/artist/sets/mix"
  = Tracks [reposts_track]
  /\ ~ occurs $"/sets/" (url reposts_track)
  /\ ~ occurs $"/playlists/" (url reposts_track).
Proof.
  assert (E : scrape_playlist (serve reposts_page)
                $"https://soundcloud.com/artist/sets/mix"
              = Tracks [reposts_track]) by (vm_compute; reflexivity).
  split; [exact E|].
  apply (proj1 C2_excluded_urls _ _ _ reposts_track E). now left.
Defined.

(** C2 as stated fails: [scrape_playlist] returns a record whose url
    contains [/reposts] and whose track slug is the reserved word
    [reposts]. *)
Lemma C2_counterexample :
  scrape_playlist (serve reposts_page) $"https://soundcloud.com/artist/sets/mix"
  = Tracks [reposts_track]
  /\ url reposts_track = host ++ $"artist" ++ [slash] ++ $"reposts"
  /\ occurs $"/reposts" (url reposts_track)
  /\ In $"reposts" reserved.
Proof.
  split; [vm_compute; reflexivity|]. split; [reflexivity|]. split.
  - exists $"https://soundcloud.com/artist", []. reflexivity.
  - simpl. tauto.
Qed.




(** C7 at the failing input: method 1 of [scrape_playlist] stores the
    href with its query string, and method 2 then stores the same track
    again without it. *)
Theorem C7_label_pass_keeps_query :
  scrape_playlist (serve label_query_page) $"https://soundcloud.com/u/sets/mix"
  = Tracks
      [ {| url := $"https://soundcloud.com/artist/track-x?in_system_playlist=1";
           title := $"Track X"; artist := Some $"Artist";
           fullTitle := $"Artist - Track X"; thumbnail := None |};
        {| url := $"https://soundcloud.com/artist/track-x";
           title := $"Track X"; artist := Some $"Artist";
           fullTitle := $"Artist - Track X"; thumbnail := None |} ].
Proof. vm_compute. reflexivity. Qed.












(* ================================================================= *)
(** * A page with a single href attribute *)

Lemma occurs_app_r (sub w s : str) : occurs sub s -> occurs sub (w ++ s).
Proof.
  intros (pre & post & ->). exists (w ++ pre), post. now rewrite app_assoc.
Qed.

Lemma no_open_after (w post : str) :
  ~ In "h"%char w -> ~ occurs href_open post -> ~ occurs href_open (w ++ post).
Proof.
  intros Hw Hp. induction w as [|c w IH]; [exact Hp|].
  intros ([|d pre'] & post' & E).
  - injection E as E _. apply Hw. now left.
  - injection E as _ E. apply IH.
    + intros I. apply Hw. now right.
    + now exists pre', post'.
Qed.

Lemma open_not_across (pre post v : str) :
  pre <> [] -> ~ occurs href_open pre ->
  pre ++ the_href ++ post <> href_open ++ v.
Proof.
  intros N O E. apply O. clear O.
  destruct pre as [|c1 pre]; [congruence|]. clear N.
  injection E as -> E.
  destruct pre as [|c2 pre]; [discriminate E|]. injection E as -> E.
  destruct pre as [|c3 pre]; [discriminate E|]. injection E as -> E.
  destruct pre as [|c4 pre]; [discriminate E|]. injection E as -> E.
  destruct pre as [|c5 pre]; [discriminate E|]. injection E as -> E.
  destruct pre as [|c6 pre]; [discriminate E|]. injection E as -> E.
  exists [], pre. reflexivity.
Qed.

Lemma open_unique (pre post u v : str) :
  ~ occurs href_open pre -> ~ occurs href_open post ->
  pre ++ the_href ++ post = u ++ href_open ++ v -> u = pre.
Proof.
  intros Hpre Hpost. revert u.
  induction pre as [|c pre IH]; intros u E.
  - destruct u as [|d u]; [reflexivity|]. exfalso.
    change ([] ++ the_href ++ post)
      with ("h"%char :: tl the_href ++ post) in E.
    injection E as _ E.
    apply (@no_open_after (tl the_href) post);
      [apply not_In_existsb; reflexivity | assumption | now exists u, v].
  - destruct u as [|d u].
    + exfalso. apply (@open_not_across (c :: pre) post v);
        [discriminate | assumption | exact E].
    + injection E as <- E. f_equal. apply IH; [|exact E].
      intros O. apply Hpre. now apply occurs_tail.
Qed.

(** Any href attribute with a two-part path in such a page is the one. *)
Lemma only_href (pre post u a t rest : str) :
  ~ occurs href_open pre -> ~ occurs href_open post ->
  pre ++ the_href ++ post
  = u ++ $"href=" ++ [dq; slash] ++ a ++ [slash] ++ t ++ [dq] ++ rest ->
  ~ In slash a -> ~ In dq t ->
  u = pre /\ a = $"artist-name" /\ t = $"my-track" /\ rest = post.
Proof.
  intros Hpre Hpost E Ha Ht.
  assert (U : u = pre).
  { apply (@open_unique pre post u (slash :: a ++ [slash] ++ t ++ [dq] ++ rest));
      auto. }
  subst u. split; [reflexivity|].
  apply app_inv_head in E. unfold the_href, q in E. simpl in E.
  injection E as E.
  assert (E' : $"artist-name" ++ slash :: ($"my-track" ++ dq :: post)
               = a ++ slash :: (t ++ dq :: rest)) by exact E.
  apply first_delim in E' as [<- E'];
    [|apply not_In_existsb; reflexivity | assumption].
  apply first_delim in E' as [<- <-];
    [auto | apply not_In_existsb; reflexivity | assumption].
Qed.

Lemma findall_from_none (ci : bool) (r : regex) (s : str) :
  (forall pre s', s = pre ++ s' -> re_match ci r s' = None) ->
  forall skip, findall_from ci r s skip = [].
Proof.
  induction s as [|c s IH]; intros N skip; simpl.
  - rewrite (N [] []) by reflexivity. now destruct skip.
  - assert (T : forall k, findall_from ci r s k = []).
    { apply IH. intros pre s' ->. now apply (N (c :: pre)). }
    destruct skip; [|apply T].
    rewrite (N [] (c :: s)) by reflexivity. apply T.
Qed.

Lemma findall_from_skip (ci : bool) (r : regex) (w s : str) :
  w <> [] \/ s <> [] ->
  findall_from ci r (w ++ s) (length w) = findall_from ci r s 0.
Proof.
  induction w as [|c w IH]; intros N; [reflexivity|]. simpl.
  destruct w as [|d w]; [|apply IH; left; discriminate].
  simpl. destruct s; reflexivity.
Qed.

Lemma findall_from_prefix (ci : bool) (r : regex) (pre s : str) :
  s <> [] ->
  (forall p1 p2, pre = p1 ++ p2 -> p2 <> [] -> re_match ci r (p2 ++ s) = None) ->
  findall_from ci r (pre ++ s) 0 = findall_from ci r s 0.
Proof.
  intros Ns. induction pre as [|c pre IH]; intros N; [reflexivity|].
  assert (R : re_match ci r (c :: pre ++ s) = None)
    by (apply (N [] (c :: pre)); [reflexivity | discriminate]).
  cbn [app findall_from]. rewrite R.
  apply IH. intros p1 p2 -> Np. now apply (N (c :: p1)).
Qed.

Lemma findall_from_hit (ci : bool) (r : regex) (w rest : str)
      (caps : list str) :
  w <> [] ->
  re_match ci r (w ++ rest) = Some (caps, rest) ->
  findall_from ci r (w ++ rest) 0 = caps :: findall_from ci r rest 0.
Proof.
  intros N M. destruct w as [|c w]; [congruence|].
  cbn [app findall_from]. change (c :: w ++ rest) with ((c :: w) ++ rest).
  rewrite M. f_equal.
  replace (length ((c :: w) ++ rest) - length rest - 1) with (length w)
    by (rewrite length_app; cbn [length]; lia).
  destruct w as [|d w]; [reflexivity|].
  apply findall_from_skip. left. discriminate.
Qed.

Lemma slice_inside (s : str) (i j : nat) :
  exists u v, s = u ++ slice s i j ++ v.
Proof.
  unfold slice. exists (firstn i s), (skipn (j - i) (skipn i s)).
  now rewrite firstn_skipn, firstn_skipn.
Qed.

Lemma relative_url_match (a t rest : str) :
  a <> [] -> ~ In slash a -> t <> [] -> ~ In slash t -> ~ In dq t ->
  matches false relative_url_re
          ($"href=" ++ [dq; slash] ++ a ++ [slash] ++ t ++ [dq] ++ rest)
          None [] ([a ++ [slash] ++ t], rest).
Proof.
  intros Na Ha Nt Ht Hq. unfold relative_url_re.
  apply (@M_lit false _ _ ($"href=" ++ [dq; slash])); [reflexivity|].
  apply M_open. cbn [extend option_map].
  apply M_rep; [now apply class_not_one | destruct a; simpl; [congruence | lia] |].
  cbn [extend option_map app].
  apply (@M_lit false [slash] _ [slash]); [reflexivity|].
  cbn [extend option_map].
  apply M_rep.
  - apply class_not_intro. intros x [<-|[<-|[]]]; assumption.
  - destruct t; simpl; [congruence | lia].
  - cbn [extend option_map]. apply M_close.
    apply (@M_lit false [dq] _ [dq]); [reflexivity|].
    cbn [extend option_map].
    rewrite <- app_assoc. apply (M_end false rest None [a ++ [slash] ++ t]).
Qed.

Lemma relative_at_the_href (post : str) :
  ~ occurs href_open post ->
  re_match false relative_url_re (the_href ++ post)
  = Some ([$"artist-name/my-track"], post).
Proof.
  intros Hpost.
  destruct (re_match false relative_url_re (the_href ++ post))
    as [[caps rest]|] eqn:E.
  - apply re_match_sound, relative_url_re_inv in E
      as (a & t & -> & E & _ & Ha & _ & _ & Hq).
    apply (@only_href [] post []) in E as (_ & -> & -> & ->); auto.
    intros (p & x & O). destruct p; discriminate O.
  - exfalso. apply re_match_none in E. apply E.
    exists ([$"artist-name" ++ [slash] ++ $"my-track"], post).
    apply (@relative_url_match $"artist-name" $"my-track" post);
      try discriminate; apply not_In_existsb; reflexivity.
Qed.

Section SingleHref.

Variables pre post : str.
Hypothesis Hpre : ~ occurs href_open pre.
Hypothesis Hpost : ~ occurs href_open post.

Lemma no_full_url : findall false full_url_re (single_href_page pre post) = [].
Proof.
  apply findall_from_none. intros pre' s' E.
  destruct (re_match false full_url_re s') as [[caps rest]|] eqn:M;
    [|reflexivity].
  exfalso.
  apply re_match_sound, full_url_re_inv in M as (a & t & _ & -> & _).
  unfold single_href_page in E.
  assert (U : pre' = pre).
  { eapply open_unique; [exact Hpre | exact Hpost | exact E]. }
  subst pre'. apply app_inv_head in E. discriminate E.
Qed.

Lemma one_relative_url :
  findall false relative_url_re (single_href_page pre post) = [[$"artist-name/my-track"]].
Proof.
  unfold findall, single_href_page. rewrite findall_from_prefix.
  - rewrite (@findall_from_hit false relative_url_re the_href post
                                [$"artist-name/my-track"]);
      [| discriminate | now apply relative_at_the_href].
    f_equal. apply findall_from_none. intros p s' -> .
    destruct (re_match false relative_url_re s') as [[caps rest]|] eqn:M;
      [|reflexivity].
    exfalso. apply Hpost.
    apply re_match_sound, relative_url_re_inv in M as (a & t & _ & -> & _).
    exists p, (slash :: a ++ [slash] ++ t ++ [dq] ++ rest). reflexivity.
  - discriminate.
  - intros p1 p2 -> Np.
    destruct (re_match false relative_url_re (p2 ++ the_href ++ post))
      as [[caps rest]|] eqn:M; [|reflexivity].
    exfalso.
    apply re_match_sound, relative_url_re_inv in M as (a & t & _ & E & _).
    apply (@open_not_across p2 post (slash :: a ++ [slash] ++ t ++ [dq] ++ rest));
      [assumption | | exact E].
    intros O. apply Hpre. now apply occurs_app_r.
Qed.

(** Every href with a two-part path of a piece of the page is the one. *)
Lemma href_of_piece (u s v a t rest : str) :
  (single_href_page pre post) = u ++ s ++ v ->
  (exists front,
      s = front ++ $"href=" ++ [dq; slash] ++ a ++ [slash] ++ t ++ [dq] ++ rest) ->
  ~ In slash a -> ~ In dq t ->
  a = $"artist-name" /\ t = $"my-track".
Proof.
  intros E [front ->] Ha Hq. unfold single_href_page in E.
  assert (E' : pre ++ the_href ++ post
               = (u ++ front) ++ $"href=" ++ [dq; slash] ++ a ++ [slash] ++ t
                 ++ [dq] ++ (rest ++ v)).
  { rewrite E. now repeat (rewrite <- app_assoc; cbn [app]). }
  apply only_href in E' as (_ & -> & -> & _); auto.
Qed.

Lemma claim_href_all_seen (track_name artist_name : str)
      (hrefs : list (list str)) (st : acc) :
  (forall m, In m hrefs -> m = [$"artist-name"; $"my-track"]) ->
  mem the_url (seen_urls st) = true ->
  claim_href track_name artist_name hrefs st = st.
Proof.
  intros A S. induction hrefs as [|m hrefs IH]; [reflexivity|].
  rewrite (A m) by now left. cbn [claim_href group nth].
  change (skip_slug $"my-track") with false.
  change (host ++ $"artist-name" ++ [slash] ++ $"my-track") with the_url.
  rewrite S. cbn [negb]. apply IH. intros m' I. apply A. now right.
Qed.

Lemma fold_left_same (A : Type) (f : acc -> A -> acc) (ms : list A) (st : acc) :
  (forall m, In m ms -> f st m = st) -> fold_left f ms st = st.
Proof.
  induction ms as [|m ms IH]; intros H; simpl; [reflexivity|].
  rewrite (H m) by now left. apply IH. intros m' I. apply H. now right.
Qed.

Lemma pass2_adds_nothing (st : acc) :
  mem the_url (seen_urls st) = true -> profile_pass2 (single_href_page pre post) st = st.
Proof.
  intros S. unfold profile_pass2. apply fold_left_same. intros m _.
  unfold profile_label_step.
  destruct (find _ (single_href_page pre post)) as [aria_pos|]; [|reflexivity].
  apply claim_href_all_seen; [|assumption]. intros m' I.
  apply findall_In in I as (p & s' & rest & Ec & M).
  apply href_pattern_inv in M as (a & t & -> & -> & _ & Ha & _ & _ & Hq).
  destruct (slice_inside (single_href_page pre post) (Nat.max 0 (aria_pos - 1000))
                         (Nat.min (length (single_href_page pre post)) (aria_pos + 1000)))
    as (u & v & E).
  destruct (@href_of_piece u _ v a t rest E) as [-> ->]; auto.
  exists p. exact Ec.
Qed.

Lemma pass3_adds_nothing (st : acc) :
  mem the_url (seen_urls st) = true -> profile_pass3 (single_href_page pre post) st = st.
Proof.
  intros S. unfold profile_pass3. apply fold_left_same. intros m I.
  apply findall_In in I as (p & s' & rest & E & M).
  apply cover_art_pattern_inv in M as (front & a & t & -> & Es & _ & Ha & _ & _ & Hq).
  destruct (@href_of_piece p s' [] a t rest) as [-> ->]; auto.
  - now rewrite app_nil_r.
  - now exists front.
  - unfold profile_cover_step. cbn [group nth].
    change (skip_slug $"my-track") with false.
    change (host ++ $"artist-name" ++ [slash] ++ $"my-track") with the_url.
    now rewrite S.
Qed.

End SingleHref.

Lemma username_of_truthy (u x : str) :
  username_of u = Some x -> truthy x = true.
Proof.
  unfold username_of.
  destruct (search false user_re u) as [caps|] eqn:E; [|discriminate].
  apply search_some in E as (p & s & rest & _ & M & _).
  apply user_re_inv in M as (name & -> & _ & N & _).
  intros [= <-]. now apply truthy_not_nil.
Qed.

Lemma single_href_tracks (pre post : str) (username : option str) :
  ~ occurs href_open pre -> ~ occurs href_open post ->
  (forall u, username = Some u -> truthy u = true) ->
  profile_pass3 (single_href_page pre post)
    (profile_pass2 (single_href_page pre post)
       (profile_pass1 username (single_href_page pre post) init))
  = {| tracks := [href_track username]; seen_urls := [the_url] |}.
Proof.
  intros Hpre Hpost T.
  assert (P1 : profile_pass1 username (single_href_page pre post) init
               = {| tracks := [href_track username]; seen_urls := [the_url] |}).
  { unfold profile_pass1, track_patterns. cbn [fold_left].
    rewrite no_full_url, one_relative_url by assumption.
    cbn [map fold_left group nth].
    destruct username as [[|c u]|].
    - specialize (T [] eq_refl). discriminate T.
    - vm_compute. reflexivity.
    - vm_compute. reflexivity. }
  rewrite P1.
  rewrite pass2_adds_nothing by (assumption || reflexivity).
  apply pass3_adds_nothing; (assumption || reflexivity).
Qed.

(** C5, as the code has it.  When the page has one href attribute,
    [href=\q/artist-name/my-track\q], [scrape_profile] returns exactly one
    record: its url is [https://soundcloud.com/artist-name/my-track], its
    title [My Track] comes from the track slug of the href, and its artist
    comes from the user name in the profile URL (hyphen to space, title
    case), not from the href; it is the record of the example when that
    user name is [artist-name]. *)
Theorem C5_single_href (net : str -> fetched) (url0 pre post : str) :
  net (profile_url url0) = Page (pre ++ the_href ++ post) ->
  ~ occurs href_open pre -> ~ occurs href_open post ->
  scrape_profile net url0
  = Tracks [href_track (username_of (profile_url url0))]
  /\ (username_of (profile_url url0) = Some $"artist-name" ->
      scrape_profile net url0 = Tracks [my_track]).
Proof.
  intros Hn Hpre Hpost.
  change (pre ++ the_href ++ post) with (single_href_page pre post) in Hn.
  assert (E : scrape_profile net url0
              = Tracks [href_track (username_of (profile_url url0))]).
  { rewrite (scrape_profile_page _ _ Hn). unfold profile_tracks.
    rewrite single_href_tracks;
      [| assumption | assumption
       | intros u Hu; exact (username_of_truthy _ Hu)].
    cbn [tracks]. rewrite finish_spec; [reflexivity|].
    simpl. repeat constructor. simpl. tauto. }
  split; [exact E|]. intros U. rewrite E, U. reflexivity.
Qed.

Lemma C5_witness :
  scrape_profile (serve href_page) $"https://soundcloud.com/artist-name/"
  = Tracks [my_track].
Proof.
  apply (proj2 (@C5_single_href (serve href_page)
                  $"https://soundcloud.com/artist-name/" $"<a " $">My Track</a>"
                  eq_refl
                  (proj1 (contains_false href_open $"<a ") eq_refl)
                  (proj1 (contains_false href_open $">My Track</a>") eq_refl))).
  vm_compute. reflexivity.
Defined.

(** C5 as stated fails.  On the page of the example, fetched as the
    profile of [someone], the artist of the record is [Someone].  And a
    page that contains the href and a second plain link, without
    sound-list item or cover-art link, gives two records. *)
Lemma C5_counterexample :
  (occurs the_href href_page
   /\ ~ occurs $"soundList__item" href_page
   /\ ~ occurs $"sound__coverArt" href_page
   /\ scrape_profile (serve href_page) $"https://soundcloud.com/someone"
      = Tracks [someone_track]
   /\ Tracks [someone_track] <> Tracks [my_track])
  /\
  (occurs the_href two_href_page
   /\ ~ occurs $"soundList__item" two_href_page
   /\ ~ occurs $"sound__coverArt" two_href_page
   /\ scrape_profile (serve two_href_page) $"https://soundcloud.com/artist-name"
      = Tracks [my_track; tracks_track]).
Proof.
  split.
  - split; [now exists $"<a ", $">My Track</a>"|].
    split; [apply contains_false; reflexivity|].
    split; [apply contains_false; reflexivity|].
    split; [vm_compute; reflexivity | discriminate].
  - split; [apply contains_occurs; reflexivity|].
    split; [apply contains_false; reflexivity|].
    split; [apply contains_false; reflexivity|].
    vm_compute. reflexivity.
Qed.

(* ================================================================= *)
(** * Properties of the structured-data extraction *)

Module HydrationFacts.

Import Hydration.

Lemma for_each_ext (call call' : value -> list record -> option (outcome (list record)))
      (vs : list value) (tracks : list record) :
  (forall v tr, call v tr = call' v tr) ->
  for_each call vs tracks = for_each call' vs tracks.
Proof.
  intros E. revert tracks. induction vs as [|v vs IH]; intros tracks; simpl;
    [reflexivity|].
  rewrite <- E. destruct (call v tracks) as [[e|tr]|]; auto.
Qed.

Lemma for_each_total (call : value -> list record -> option (outcome (list record)))
      (vs : list value) (tracks : list record) :
  (forall v tr, exists r, call v tr = Some r) ->
  exists r, for_each call vs tracks = Some r.
Proof.
  intros T. revert tracks. induction vs as [|v vs IH]; intros tracks; simpl.
  - eexists; reflexivity.
  - destruct (T v tracks) as [[e|tr] ->]; [eexists; reflexivity | apply IH].
Qed.

Lemma search_dict_cutoff (fuel : nat) (h : heap) (obj : value) (depth : nat)
      (tracks : list record) :
  depth_limit < depth ->
  search_dict (S fuel) h obj depth tracks = Some (Returns tracks).
Proof.
  intros H. simpl. apply Nat.ltb_lt in H. now rewrite H.
Qed.

Lemma search_dict_total (fuel : nat) :
  forall h obj depth tracks,
    1 <= fuel -> depth_limit + 2 <= fuel + depth ->
    exists r, search_dict fuel h obj depth tracks = Some r.
Proof.
  induction fuel as [|fuel IH]; intros h obj depth tracks F D; [lia|].
  cbn [search_dict].
  destruct (Nat.ltb_spec depth_limit depth) as [L|L]; [eexists; reflexivity|].
  assert (Inner : forall v tr,
             exists r, search_dict fuel h v (depth + 1) tr = Some r).
  { intros v tr. apply IH; unfold depth_limit in *; lia. }
  destruct obj as [| | | |a]; try (eexists; reflexivity).
  destruct (deref h a) as [[items|items]|]; [| |eexists; reflexivity].
  - destruct (look h items tracks) as [e|tr]; [eexists; reflexivity|].
    now apply for_each_total.
  - now apply for_each_total.
Qed.

Lemma search_dict_stable (fuel : nat) :
  forall extra h obj depth tracks,
    1 <= fuel -> depth_limit + 2 <= fuel + depth ->
    search_dict (fuel + extra) h obj depth tracks
    = search_dict fuel h obj depth tracks.
Proof.
  induction fuel as [|fuel IH]; intros extra h obj depth tracks F D; [lia|].
  cbn [search_dict Nat.add].
  destruct (Nat.ltb_spec depth_limit depth) as [L|L]; [reflexivity|].
  assert (Inner : forall v tr,
             search_dict (fuel + extra) h v (depth + 1) tr
             = search_dict fuel h v (depth + 1) tr).
  { intros v tr. apply IH; unfold depth_limit in *; lia. }
  destruct obj as [| | | |a]; try reflexivity.
  destruct (deref h a) as [[items|items]|]; [| |reflexivity].
  - destruct (look h items tracks) as [e|tr]; [reflexivity|].
    now apply for_each_ext.
  - now apply for_each_ext.
Qed.

(** C8. [extract_tracks_from_hydration] returns (a list, or an
    exception) on every heap and every argument, with sharing or cycles:
    twelve nested calls of [search_dict] are always enough and more change
    nothing, because any call at a depth above 10 returns at once.  On the
    dictionary that contains itself the calls do nest twelve deep: the
    traversal is ended by the depth test and by nothing else. *)
Theorem C8_hydration_terminates :
  (forall h data,
      exists r,
        extract_tracks_from_hydration 12 h data = Some r /\
        forall extra,
          extract_tracks_from_hydration (12 + extra) h data = Some r)
  /\
  (forall fuel h obj depth tracks,
      depth_limit < depth ->
      search_dict (S fuel) h obj depth tracks = Some (Returns tracks))
  /\
  (extract_tracks_from_hydration 11 cyclic_heap (VRef 0) = None /\
   extract_tracks_from_hydration 12 cyclic_heap (VRef 0) = Some (Returns [])).
Proof.
  split; [|split].
  - intros h data. unfold extract_tracks_from_hydration.
    destruct (@search_dict_total 12 h data 0 [])
      as [r Hr]; [lia | unfold depth_limit; lia |].
    exists r. split; [assumption|]. intros extra.
    rewrite search_dict_stable; [assumption | lia | unfold depth_limit; lia].
  - intros. now apply search_dict_cutoff.
  - split; vm_compute; reflexivity.
Qed.

Lemma C8_witness :
  search_dict 1 cyclic_heap (VRef 0) 11 [] = Some (Returns []).
Proof.
  apply (proj1 (proj2 C8_hydration_terminates) 0 cyclic_heap (VRef 0) 11 []).
  unfold depth_limit. lia.
Defined.

Lemma look_independent (h : heap) (obj : list (str * value))
      (tracks : list record) :
  look h obj tracks
  = match look h obj [] with
    | Raises e => Raises e
    | Returns found => Returns (tracks ++ found)
    end.
Proof.
  unfold look.
  repeat match goal with
         | |- context [if ?b then _ else _] => destruct b
         | |- context [obind ?m _] => destruct m; cbn [obind]
         end;
    try reflexivity; now rewrite ?app_nil_r.
Qed.

Lemma after_after (tracks found : list record)
      (o : option (outcome (list record))) :
  after tracks (after found o) = after (tracks ++ found) o.
Proof.
  destruct o as [[e|l]|]; simpl; try reflexivity. now rewrite app_assoc.
Qed.

Lemma for_each_independent
      (call : value -> list record -> option (outcome (list record)))
      (vs : list value) :
  (forall v tr, call v tr = after tr (call v [])) ->
  forall tr, for_each call vs tr = after tr (for_each call vs []).
Proof.
  intros C. induction vs as [|v vs IH]; intros tr; simpl.
  - now rewrite app_nil_r.
  - rewrite (C v tr). destruct (call v []) as [[e|l]|]; simpl; try reflexivity.
    rewrite (IH (tr ++ l)), (IH l). symmetry. apply after_after.
Qed.

Lemma search_dict_independent (fuel : nat) :
  forall h obj depth tracks,
    search_dict fuel h obj depth tracks
    = after tracks (search_dict fuel h obj depth []).
Proof.
  induction fuel as [|fuel IH]; intros h obj depth tracks; [reflexivity|].
  cbn [search_dict].
  destruct (depth_limit <? depth); [simpl; now rewrite app_nil_r|].
  destruct obj as [| | | |a]; try (simpl; now rewrite app_nil_r).
  destruct (deref h a) as [[items|items]|]; [| |simpl; now rewrite app_nil_r].
  - rewrite (look_independent h items tracks).
    destruct (look h items []) as [e|found]; [reflexivity|].
    rewrite for_each_independent by (intros; apply IH).
    rewrite (for_each_independent _ (map snd items) (fun v tr => IH h v _ tr) found).
    symmetry. apply after_after.
  - apply for_each_independent. intros. apply IH.
Qed.

(** C10. [extract_tracks_from_hydration] does not remove duplicates.
    What a traversal appends does not depend on the records found so
    far: started with the list [tracks], [search_dict] returns [tracks]
    followed by the records it returns when started with the empty list,
    and so does the test of one dictionary.  For the list of two
    dictionaries with the same [permalink_url] the result has two records
    with that url, in the order of the list. *)
Theorem C10_hydration_keeps_duplicates :
  (forall fuel h obj depth tracks,
      search_dict fuel h obj depth tracks
      = after tracks (search_dict fuel h obj depth []))
  /\
  (forall h obj tracks,
      look h obj tracks
      = match look h obj [] with
        | Raises e => Raises e
        | Returns found => Returns (tracks ++ found)
        end)
  /\
  extract_tracks_from_hydration 12 twice_heap (VRef 0)
  = Some (Returns [twice_record $"A"; twice_record $"B"])
  /\
  url (twice_record $"A") = url (twice_record $"B").
Proof.
  split; [intros; apply search_dict_independent|].
  split; [apply look_independent|].
  split; [vm_compute; reflexivity | reflexivity].
Qed.

End HydrationFacts.

(* ================================================================= *)
(** * Further properties of the scrape functions *)

(* ----------------------------------------------------------------- *)
(** ** The shape of the records *)

Lemma extends_refl (Q : track -> Prop) (st : acc) : extends Q st st.
Proof. exists []. now rewrite app_nil_r. Qed.

Lemma extends_see (Q : track -> Prop) (st : acc) (u : str) :
  extends Q st (see u st).
Proof. exists []. simpl. now rewrite app_nil_r. Qed.

Lemma extends_append (Q : track -> Prop) (st : acc) (u : str) (r : track) :
  Q r -> extends Q st (append r (see u st)).
Proof. intros H. exists [r]. simpl. split; [reflexivity | now constructor]. Qed.

Lemma extends_trans (Q : track -> Prop) (st1 st2 st3 : acc) :
  extends Q st1 st2 -> extends Q st2 st3 -> extends Q st1 st3.
Proof.
  intros (l1 & E1 & F1) (l2 & E2 & F2). exists (l1 ++ l2).
  rewrite E2, E1, app_assoc. split; [reflexivity | now apply Forall_app].
Qed.

Lemma fold_extends (A : Type) (Q : track -> Prop) (f : acc -> A -> acc)
      (ms : list A) :
  (forall st m, In m ms -> extends Q st (f st m)) ->
  forall st, extends Q st (fold_left f ms st).
Proof.
  induction ms as [|m ms IH]; intros H st; simpl; [apply extends_refl|].
  eapply extends_trans.
  - apply H. now left.
  - apply IH. intros st' m' I. apply H. now right.
Qed.

Ltac split_step :=
  repeat match goal with
         | |- extends _ ?st ?st => apply extends_refl
         | |- extends _ ?st (see _ ?st) => apply extends_see
         | |- extends _ ?st (append _ (see _ ?st)) => apply extends_append
         | |- extends _ _ (if ?b then _ else _) => destruct b
         | |- extends _ _ (match ?x with _ => _ end) => destruct x
         end.

Lemma profile_href_step_titled (username : option str) (st : acc) (m : str) :
  extends well_titled st (profile_href_step username st m).
Proof.
  unfold profile_href_step. split_step.
  all: split; [reflexivity|]; cbn [artist fullTitle title];
    destruct username as [u|]; [destruct (truthy u)|]; reflexivity.
Qed.

Lemma claim_href_titled (track_name artist_name : str)
      (hrefs : list (list str)) (st : acc) :
  extends well_titled st (claim_href track_name artist_name hrefs st).
Proof.
  induction hrefs as [|m hrefs IH]; cbn [claim_href]; [apply extends_refl|].
  split_step; try exact IH. split; reflexivity.
Qed.

Lemma profile_pass1_titled (username : option str) (html : str) (st : acc) :
  extends well_titled st (profile_pass1 username html st).
Proof.
  unfold profile_pass1. apply fold_extends. intros st1 pattern _.
  apply fold_extends. intros st2 m _. apply profile_href_step_titled.
Qed.

Lemma profile_pass2_titled (html : str) (st : acc) :
  extends well_titled st (profile_pass2 html st).
Proof.
  unfold profile_pass2. apply fold_extends. intros st1 m _.
  unfold profile_label_step. destruct (find _ html); [|apply extends_refl].
  apply claim_href_titled.
Qed.

Lemma profile_pass3_titled (html : str) (st : acc) :
  extends well_titled st (profile_pass3 html st).
Proof.
  unfold profile_pass3. apply fold_extends. intros st1 m _.
  unfold profile_cover_step. split_step. split; reflexivity.
Qed.

Lemma playlist_pass0_titled (html : str) (st : acc) :
  extends well_titled st (playlist_pass0 html st).
Proof.
  unfold playlist_pass0. apply fold_extends. intros st1 m _.
  unfold station_step. split_step. split; reflexivity.
Qed.

Lemma playlist_pass1_titled (html : str) (st : acc) :
  extends well_titled st (playlist_pass1 html st).
Proof.
  unfold playlist_pass1. apply fold_extends. intros st1 m _.
  unfold playlist_label_step. split_step. split; reflexivity.
Qed.

Lemma playlist_pass2_titled (html : str) (st : acc) :
  extends well_titled st (playlist_pass2 html st).
Proof.
  unfold playlist_pass2. apply fold_extends. intros st1 pattern _.
  apply fold_extends. intros st2 m _.
  unfold playlist_href_step. split_step. split; reflexivity.
Qed.

Lemma finish_Forall (Q : track -> Prop) (st : acc) (ts : list track) :
  extends Q init st -> finish (tracks st) = Tracks ts -> Forall Q ts.
Proof.
  intros (l & E & F) H. simpl in E. rewrite <- E in F.
  destruct (finish_cases (tracks st)) as [[_ H'] | (_ & H' & _)];
    rewrite H' in H; [discriminate|].
  injection H as <-. apply Forall_forall. intros r I.
  apply dedupe_In in I as [I _]. rewrite Forall_forall in F. auto.
Qed.

(** X4. Every record returned by [scrape_profile] or [scrape_playlist]
    has no thumbnail, and its [fullTitle] is its artist, [ - ] and its
    title, or its title alone when it has no artist. *)
Theorem records_well_titled (net : str -> fetched) (url0 : str)
        (ts : list track) (r : track) :
  scrape_profile net url0 = Tracks ts \/ scrape_playlist net url0 = Tracks ts ->
  In r ts ->
  thumbnail r = None /\
  fullTitle r = match artist r with
                | Some a => a ++ $" - " ++ title r
                | None => title r
                end.
Proof.
  intros [H|H] I.
  - apply scrape_profile_inv in H as (html & _ & H).
    assert (F : Forall well_titled ts).
    { eapply finish_Forall; [|exact H]. unfold profile_tracks.
      eapply extends_trans; [eapply extends_trans|].
      - apply profile_pass1_titled.
      - apply profile_pass2_titled.
      - apply profile_pass3_titled. }
    rewrite Forall_forall in F. exact (F r I).
  - apply scrape_playlist_inv in H as (html & _ & H).
    assert (F : Forall well_titled ts).
    { eapply finish_Forall; [|exact H]. unfold playlist_tracks.
      eapply extends_trans; [eapply extends_trans|].
      - apply playlist_pass0_titled.
      - apply playlist_pass1_titled.
      - apply playlist_pass2_titled. }
    rewrite Forall_forall in F. exact (F r I).
Qed.

Lemma records_well_titled_witness :
  thumbnail someone_track = None /\
  fullTitle someone_track = match artist someone_track with
                            | Some a => a ++ $" - " ++ title someone_track
                            | None => title someone_track
                            end.
Proof.
  apply (@records_well_titled (serve cover_page) $"https://soundcloud.com/someone"
           [someone_track] someone_track).
  - left. vm_compute. reflexivity.
  - now left.
Defined.

(* ----------------------------------------------------------------- *)
(** ** The command line *)

Lemma finish_nonempty (ts us : list track) :
  finish ts = Tracks us -> us <> [] /\ NoDup (map url us).
Proof.
  intros H. destruct (finish_cases ts) as [[_ F]|(_ & F & N)];
    rewrite F in H; [discriminate|].
  injection H as <-. split; [exact N | apply dedupe_NoDup].
Qed.

Lemma scrape_nonempty (net : str -> fetched) (url0 : str) (ts : list track) :
  scrape_profile net url0 = Tracks ts \/ scrape_playlist net url0 = Tracks ts ->
  ts <> [] /\ NoDup (map url ts).
Proof.
  intros [H|H].
  - apply scrape_profile_inv in H as (html & _ & H).
    exact (finish_nonempty _ H).
  - apply scrape_playlist_inv in H as (html & _ & H).
    exact (finish_nonempty _ H).
Qed.

(** X1. [main] with fewer than three arguments prints the usage error
    and exits with status 1.  With three or more it exits with status 0
    whatever the scrape returns: what it prints is then an error
    dictionary or a list, and a list is printed only for the type
    [profile] or [playlist], is never empty and has pairwise distinct
    urls.  For any other type the error is [Unknown type: ] followed by
    the type. *)
Theorem main_outcome (net : str -> fetched) (argv : list str) :
  (length argv < 3 /\
   main net argv
   = {| printed := Error $"Usage: python scrape_soundcloud.py <type> <url>";
        status := 1 |})
  \/
  (3 <= length argv /\ status (main net argv) = 0 /\
   match printed (main net argv) with
   | Tracks ts =>
       ts <> [] /\ NoDup (map url ts) /\
       (nth 1 argv [] = $"profile" \/ nth 1 argv [] = $"playlist")
   | Error msg =>
       nth 1 argv [] <> $"profile" -> nth 1 argv [] <> $"playlist" ->
       msg = $"Unknown type: " ++ nth 1 argv []
   end).
Proof.
  unfold main. destruct (Nat.ltb_spec (length argv) 3) as [L|L].
  - left. split; [exact L | reflexivity].
  - right. split; [exact L|]. split; [reflexivity|]. cbn [printed].
    destruct (str_eqb (nth 1 argv []) $"profile") eqn:E1.
    { apply str_eqb_eq in E1.
      destruct (scrape_profile net (nth 2 argv [])) as [ts|msg] eqn:R.
      - destruct (@scrape_nonempty net (nth 2 argv []) ts) as [N D]; auto.
      - intros N1. contradiction. }
    destruct (str_eqb (nth 1 argv []) $"playlist") eqn:E2.
    { apply str_eqb_eq in E2.
      destruct (scrape_playlist net (nth 2 argv [])) as [ts|msg] eqn:R.
      - destruct (@scrape_nonempty net (nth 2 argv []) ts) as [N D]; auto.
      - intros _ N2. contradiction. }
    reflexivity.
Qed.

(* ----------------------------------------------------------------- *)
(** ** The requested URL *)

Lemma drop_while_idem (p : ascii -> bool) (s : str) :
  drop_while p (drop_while p s) = drop_while p s.
Proof.
  induction s as [|c s IH]; [reflexivity|]. simpl.
  destruct (p c) eqn:E; [exact IH|]. simpl. now rewrite E.
Qed.

Lemma rstrip_char_idem (c : ascii) (s : str) :
  rstrip_char c (rstrip_char c s) = rstrip_char c s.
Proof.
  unfold rstrip_char, rstrip_by. now rewrite rev_involutive, drop_while_idem.
Qed.

Lemma rstrip_char_last (c x : ascii) (s : str) :
  x <> c -> rstrip_char c (s ++ [x]) = s ++ [x].
Proof.
  intros N. unfold rstrip_char, rstrip_by. rewrite rev_app_distr. simpl.
  destruct (Ascii.eqb_spec c x) as [E|_]; [congruence|].
  simpl. now rewrite rev_involutive.
Qed.

Lemma rstrip_char_repeat (c : ascii) (s : str) (n : nat) :
  rstrip_char c (s ++ repeat c n) = rstrip_char c s.
Proof.
  unfold rstrip_char, rstrip_by. rewrite rev_app_distr. f_equal.
  generalize (rev s) as l. induction n as [|n IH]; intros l; [reflexivity|].
  simpl. rewrite <- app_assoc, IH. simpl. now rewrite Ascii.eqb_refl.
Qed.

Lemma endswith_app (s p : str) : endswith s p = true <-> exists x, s = x ++ p.
Proof.
  unfold endswith. rewrite startswith_app. split.
  - intros [r E]. exists (rev r).
    rewrite <- (rev_involutive s), E, rev_app_distr, rev_involutive.
    reflexivity.
  - intros [x ->]. exists (rev x). apply rev_app_distr.
Qed.

(** Every profile page name ends with a character that is not [/]. *)
Lemma page_last (page : str) :
  In page profile_pages -> exists w x, page = w ++ [x] /\ x <> slash.
Proof.
  intros I. simpl in I.
  repeat (destruct I as [<-|I];
          [ eexists (removelast _), (last _ " "%char); split;
            [ apply app_removelast_last; discriminate
            | vm_compute; discriminate ] |]).
  contradiction.
Qed.

Lemma has_page_stripped (u : str) :
  existsb (endswith u) profile_pages = true -> rstrip_char slash u = u.
Proof.
  intros H. apply existsb_exists in H as (page & I & E).
  apply endswith_app in E as [x ->].
  destruct (page_last I) as (w & c & -> & N).
  rewrite app_assoc. now apply rstrip_char_last.
Qed.

Lemma tracks_is_page (u : str) :
  existsb (endswith (u ++ $"/tracks")) profile_pages = true.
Proof.
  apply existsb_exists. exists $"/tracks". split; [simpl; tauto|].
  apply endswith_app. now exists u.
Qed.

Lemma profile_url_cases (url0 : str) :
  let u := rstrip_char slash url0 in
  (existsb (endswith u) profile_pages = true /\ profile_url url0 = u) \/
  (existsb (endswith u) profile_pages = false /\
   profile_url url0 = u ++ $"/tracks").
Proof.
  intros u. unfold profile_url. fold u.
  destruct (existsb (endswith u) profile_pages); [left|right];
    (split; [reflexivity|]); cbn [negb].
  - reflexivity.
  - now destruct (search false user_end_re u).
Qed.

Lemma profile_url_has_page (url0 : str) :
  existsb (endswith (profile_url url0)) profile_pages = true.
Proof.
  destruct (profile_url_cases url0) as [[H ->]|[_ ->]];
    [exact H | apply tracks_is_page].
Qed.

Lemma profile_url_fixed (u : str) :
  existsb (endswith u) profile_pages = true -> profile_url u = u.
Proof.
  intros H. pose proof (has_page_stripped u H) as S.
  destruct (profile_url_cases u) as [[_ E]|[F _]]; rewrite S in *;
    [exact E | congruence].
Qed.

(** X2. The URL that [scrape_profile] requests is the argument without
    its trailing slashes, followed by [/tracks] unless it ends with the
    name of a profile page already (the search for a user name at lines
    31-36 changes nothing).  The requested URL always ends with the name
    of a profile page and is a fixed point of the normalisation, and
    trailing slashes of the argument do not matter: the function returns
    the same for a URL, for that URL followed by slashes, and for the URL
    it requests. *)
Theorem profile_url_normal (net : str -> fetched) (url0 : str) (n : nat) :
  profile_url url0
  = (if existsb (endswith (rstrip_char slash url0)) profile_pages
     then rstrip_char slash url0
     else rstrip_char slash url0 ++ $"/tracks") /\
  (exists page x, In page profile_pages /\ profile_url url0 = x ++ page) /\
  profile_url (profile_url url0) = profile_url url0 /\
  profile_url (url0 ++ repeat slash n) = profile_url url0 /\
  scrape_profile net (profile_url url0) = scrape_profile net url0 /\
  scrape_profile net (url0 ++ repeat slash n) = scrape_profile net url0.
Proof.
  assert (I : profile_url (profile_url url0) = profile_url url0)
    by apply profile_url_fixed, profile_url_has_page.
  assert (T : profile_url (url0 ++ repeat slash n) = profile_url url0).
  { unfold profile_url. now rewrite rstrip_char_repeat. }
  split; [|split; [|split; [exact I|split; [exact T|]]]].
  - destruct (profile_url_cases url0) as [[H ->]|[H ->]]; now rewrite H.
  - pose proof (profile_url_has_page url0) as H.
    apply existsb_exists in H as (page & Hp & E).
    apply endswith_app in E as [x E]. now exists page, x.
  - unfold scrape_profile, scrape_profile_body. now rewrite I, T.
Qed.

(* ----------------------------------------------------------------- *)
(** ** The user name of a profile address *)

(** A greedy repetition takes the whole run when the rest of the pattern
    accepts what follows it. *)
Lemma rep_match_greedy_run (k : str -> option mres) (mn : nat) (c : cls)
      (w rest : str) (res : mres) :
  Forall (fun a => cls_match c a = true) w ->
  (rest = [] \/ exists a r, rest = a :: r /\ cls_match c a = false) ->
  k rest = Some res ->
  forall n, mn <= n + length w ->
            rep_match k true mn c (w ++ rest) n = Some res.
Proof.
  intros F R K. induction F as [|a w Ha F IH]; intros n L.
  - simpl in L. rewrite Nat.add_0_r in L. apply Nat.leb_le in L.
    destruct R as [->|(a & r & -> & Ha)]; simpl; rewrite L; [exact K|].
    now rewrite Ha.
  - simpl. rewrite Ha. rewrite IH; [reflexivity|]. simpl in L. lia.
Qed.

Lemma search_user_re (name rest : str) :
  name <> [] -> ~ In slash name ->
  (rest = [] \/ exists r, rest = slash :: r) ->
  search false user_re (host ++ name ++ rest) = Some [name].
Proof.
  intros N H R. unfold host, user_re. cbn.
  rewrite (@rep_match_greedy_run _ 1 (CNot [slash]) name rest ([name], rest)).
  - reflexivity.
  - now apply class_not_one.
  - destruct R as [->|[r ->]]; [now left|right]. now exists slash, r.
  - cbn. now rewrite firstn_cut.
  - destruct name; simpl; [congruence|lia].
Qed.

Lemma no_slash_last (name : str) :
  name <> [] -> ~ In slash name -> exists w x, name = w ++ [x] /\ x <> slash.
Proof.
  intros N H. destruct (exists_last N) as (w & x & ->).
  exists w, x. split; [reflexivity|]. intros ->. apply H.
  apply in_or_app. right. now left.
Qed.

(** Each profile page name is [/] followed by a word without [/]. *)
Lemma page_word (page : str) :
  In page profile_pages -> exists p, page = slash :: p /\ ~ In slash p.
Proof.
  intros I. simpl in I.
  repeat (destruct I as [<-|I];
          [ eexists; split; [reflexivity | apply not_In_existsb; reflexivity] |]).
  contradiction.
Qed.

Lemma bare_profile_no_page (name : str) :
  ~ In slash name -> ~ In (slash :: name) profile_pages ->
  existsb (endswith (host ++ name)) profile_pages = false.
Proof.
  intros H P. destruct (existsb (endswith (host ++ name)) profile_pages) eqn:E;
    [exfalso|reflexivity].
  apply existsb_exists in E as (page & I & E).
  apply endswith_app in E as [x E].
  destruct (page_word I) as (p & -> & Hp). apply P.
  change (host ++ name) with ($"https://soundcloud.com" ++ [slash] ++ name) in E.
  change (x ++ slash :: p) with (x ++ [slash] ++ p) in E.
  apply last_segment in E; [now subst p | assumption | assumption].
Qed.

(** X3. For the profile address [https://soundcloud.com/name], where
    [name] is not empty and has no [/]: when [name] is not the name of a
    profile page, [scrape_profile] requests
    [https://soundcloud.com/name/tracks] and the user name it reads from
    that URL, from which method 1 makes the artist, is [name]; when [name]
    is the name of a profile page ([tracks], [sets], ...) the address is
    requested as it is. *)
Theorem username_round_trip (name : str) :
  name <> [] -> ~ In slash name ->
  (~ In (slash :: name) profile_pages ->
   profile_url (host ++ name) = host ++ name ++ $"/tracks" /\
   username_of (profile_url (host ++ name)) = Some name) /\
  (In (slash :: name) profile_pages ->
   profile_url (host ++ name) = host ++ name).
Proof.
  intros N H.
  assert (S : rstrip_char slash (host ++ name) = host ++ name).
  { destruct (no_slash_last N H) as (w & x & -> & Nx).
    rewrite app_assoc. now apply rstrip_char_last. }
  split; intros P.
  - assert (E : profile_url (host ++ name) = host ++ name ++ $"/tracks").
    { destruct (profile_url_cases (host ++ name)) as [[T _]|[_ E]];
        rewrite S in *.
      - now rewrite bare_profile_no_page in T.
      - now rewrite E, <- app_assoc. }
    split; [exact E|]. rewrite E. unfold username_of.
    rewrite search_user_re; auto. right. now eexists.
  - apply profile_url_fixed. apply existsb_exists.
    exists (slash :: name). split; [exact P|].
    apply endswith_app. exists $"https://soundcloud.com". reflexivity.
Qed.

Lemma username_round_trip_witness :
  profile_url (host ++ $"some-artist") = host ++ $"some-artist" ++ $"/tracks" /\
  username_of (profile_url (host ++ $"some-artist")) = Some $"some-artist".
Proof.
  apply (@username_round_trip $"some-artist").
  - discriminate.
  - apply not_In_existsb. reflexivity.
  - simpl. intros [E|[E|[E|[E|[E|[E|[]]]]]]]; discriminate E.
Defined.

(* ----------------------------------------------------------------- *)
(** ** Pages without href attribute *)

Lemma occurs_app_l (sub s w : str) : occurs sub s -> occurs sub (s ++ w).
Proof.
  intros (p & x & ->). exists p, (x ++ w). now rewrite <- !app_assoc.
Qed.

Lemma occurs_part (a b s : str) : occurs (a ++ b) s -> occurs a s.
Proof.
  intros (p & x & ->). exists p, (b ++ x). now rewrite <- app_assoc.
Qed.

Lemma lower_app (a b : str) : lower (a ++ b) = lower a ++ lower b.
Proof. apply map_app. Qed.

Lemma occurs_lower (sub s : str) : occurs sub s -> occurs (lower sub) (lower s).
Proof.
  intros (p & x & ->). exists (lower p), (lower x). now rewrite !lower_app.
Qed.

(** A match of a pattern contains the text of each of its literals. *)
Lemma matches_lit (ci : bool) (r : regex) (s : str) (cur : option str)
      (caps : list str) (res : mres) (l : str) :
  matches ci r s cur caps res -> In (Lit l) r ->
  exists y, lit_ok ci l y /\ occurs y s.
Proof.
  induction 1 as [ | l0 r y s' cur caps res L M IH
                   | g mn c r w s' cur caps res F Len M IH
                   | a r s' cur caps res M IH
                   | a r s cur caps res M IH
                   | r s cur caps res M IH
                   | r s c caps res M IH
                   | r s cur caps res E M IH ]; intros I.
  - destruct I.
  - destruct I as [[= ->]|I].
    + exists y. split; [exact L|]. now exists [], s'.
    + destruct (IH I) as (z & Lz & O). exists z. split; [exact Lz|].
      now apply occurs_app_r.
  - destruct I as [I|I]; [discriminate I|].
    destruct (IH I) as (z & Lz & O). exists z. split; [exact Lz|].
    now apply occurs_app_r.
  - destruct I as [I|I]; [discriminate I|].
    destruct (IH I) as (z & Lz & O). exists z. split; [exact Lz|].
    now apply (@occurs_app_r z [a]).
  - destruct I as [I|I]; [discriminate I|]. exact (IH I).
  - destruct I as [I|I]; [discriminate I|]. exact (IH I).
  - destruct I as [I|I]; [discriminate I|]. exact (IH I).
  - destruct I as [I|I]; [discriminate I|]. exact (IH I).
Qed.

(** No match without the text of a literal of the pattern, case ignored
    under [re.IGNORECASE]. *)
Lemma findall_without_lit (ci : bool) (r : regex) (s l : str) :
  In (Lit l) r ->
  (if ci then ~ occurs (lower l) (lower s) else ~ occurs l s) ->
  findall ci r s = [].
Proof.
  intros I N. destruct (findall ci r s) as [|caps ms] eqn:E; [reflexivity|].
  exfalso. assert (J : In caps (findall ci r s)) by (rewrite E; now left).
  apply findall_In in J as (pre & s' & rest & -> & M).
  destruct (@matches_lit _ _ _ _ _ _ _ M I) as (y & L & O). apply (occurs_app_r pre) in O.
  destruct ci.
  - destruct L as [L _]. apply N. unfold eq_ci in L. rewrite L.
    now apply occurs_lower.
  - unfold lit_ok in L. subst y. now apply N.
Qed.

Lemma search_without_lit (ci : bool) (r : regex) (s l : str) :
  In (Lit l) r ->
  (if ci then ~ occurs (lower l) (lower s) else ~ occurs l s) ->
  search ci r s = None.
Proof.
  intros I N. destruct (search ci r s) as [caps|] eqn:E; [|reflexivity].
  exfalso. apply search_some in E as (pre & s' & rest & -> & M & _).
  destruct (@matches_lit _ _ _ _ _ _ _ M I) as (y & L & O). apply (occurs_app_r pre) in O.
  destruct ci.
  - destruct L as [L _]. apply N. unfold eq_ci in L. rewrite L.
    now apply occurs_lower.
  - unfold lit_ok in L. subst y. now apply N.
Qed.

Lemma occurs_slice (sub s : str) (i j : nat) :
  occurs sub (slice s i j) -> occurs sub s.
Proof.
  intros O. destruct (slice_inside s i j) as (u & v & E). rewrite E.
  now apply occurs_app_r, occurs_app_l.
Qed.

Lemma profile_no_href (u html : str) :
  ~ occurs href_open html -> profile_tracks u html = init.
Proof.
  intros N.
  assert (N1 : ~ occurs (href_open ++ [slash]) html)
    by (intros O; now apply occurs_part in O).
  unfold profile_tracks, profile_pass1, profile_pass2, profile_pass3,
    track_patterns. cbn [fold_left].
  rewrite (@findall_without_lit false full_url_re html href_open);
    [| simpl; tauto | exact N].
  rewrite (@findall_without_lit false relative_url_re html (href_open ++ [slash]));
    [| simpl; tauto | exact N1].
  rewrite (@findall_without_lit false cover_art_pattern html (href_open ++ [slash]));
    [| simpl; tauto | exact N1].
  cbn [map fold_left].
  induction (findall false sound_item_pattern html) as [|m ms IH];
    [reflexivity|].
  cbn [fold_left]. replace (profile_label_step html init m) with init; [exact IH|].
  unfold profile_label_step. destruct (find _ html) as [pos|]; [|reflexivity].
  rewrite (@findall_without_lit false href_pattern _ (href_open ++ [slash]));
    [reflexivity | simpl; tauto |].
  intros O. apply N1. eapply occurs_slice. exact O.
Qed.

Lemma playlist_no_href (html : str) :
  ~ occurs href_open (lower html) -> playlist_tracks html = init.
Proof.
  intros N.
  assert (N0 : ~ occurs href_open html).
  { intros O. apply N. now apply occurs_lower in O. }
  assert (N1 : ~ occurs (href_open ++ [slash]) html)
    by (intros O; now apply occurs_part in O).
  unfold playlist_tracks, playlist_pass0, playlist_pass1, playlist_pass2,
    track_patterns. cbn [fold_left].
  rewrite (@findall_without_lit false track_station_pattern html (href_open ++ [slash]));
    [| simpl; tauto | exact N1].
  rewrite (@findall_without_lit false full_url_re html href_open);
    [| simpl; tauto | exact N0].
  rewrite (@findall_without_lit false relative_url_re html (href_open ++ [slash]));
    [| simpl; tauto | exact N1].
  cbn [map fold_left].
  induction (findall false playlist_sound_item_pattern html) as [|m ms IH];
    [reflexivity|].
  cbn [fold_left]. replace (playlist_label_step html init m) with init; [exact IH|].
  unfold playlist_label_step.
  rewrite (@search_without_lit true _ html (href_open ++ [slash]));
    [reflexivity | simpl; tauto |].
  intros O. apply N. now apply (@occurs_part href_open [slash]).
Qed.

(** X5. A page in which the text [href=\q] does not occur gives no
    track: [scrape_profile] returns the error [No tracks found].  The same
    holds for [scrape_playlist] when the text does not occur in any letter
    case (its method 1 reads the attribute with [re.IGNORECASE]). *)
Theorem no_href_no_tracks (net : str -> fetched) (url0 html : str) :
  (net (profile_url url0) = Page html -> ~ occurs href_open html ->
   scrape_profile net url0 = Error $"No tracks found") /\
  (net url0 = Page html -> ~ occurs href_open (lower html) ->
   scrape_playlist net url0 = Error $"No tracks found").
Proof.
  split; intros Hn N.
  - rewrite (scrape_profile_page _ _ Hn), profile_no_href by exact N.
    reflexivity.
  - rewrite (scrape_playlist_page _ _ Hn), playlist_no_href by exact N.
    reflexivity.
Qed.

Lemma no_href_no_tracks_witness :
  scrape_profile (serve $"<p>nothing here</p>") $"https://soundcloud.com/someone"
  = Error $"No tracks found" /\
  scrape_playlist (serve $"<p>nothing here</p>") $"https://soundcloud.com/a/sets/b"
  = Error $"No tracks found".
Proof.
  split.
  - apply (proj1 (@no_href_no_tracks (serve $"<p>nothing here</p>")
                    $"https://soundcloud.com/someone" $"<p>nothing here</p>"));
      [reflexivity | apply contains_false; reflexivity].
  - apply (proj2 (@no_href_no_tracks (serve $"<p>nothing here</p>")
                    $"https://soundcloud.com/a/sets/b" $"<p>nothing here</p>"));
      [reflexivity | apply contains_false; reflexivity].
Defined.

(* ----------------------------------------------------------------- *)
(** ** Where the URLs of a profile come from *)

Lemma extends_weaken (Q Q' : track -> Prop) (st st' : acc) :
  (forall r, Q r -> Q' r) -> extends Q st st' -> extends Q' st st'.
Proof.
  intros W (l & E & F). exists l. split; [exact E|].
  eapply Forall_impl; [exact W | exact F].
Qed.

Lemma profile_href_step_url (username : option str) (st : acc) (m : str) :
  extends (fun r => url r = if negb (startswith m $"http") then host ++ m else m)
          st (profile_href_step username st m).
Proof. unfold profile_href_step. split_step. reflexivity. Qed.

Lemma claim_href_url (track_name artist_name : str)
      (hrefs : list (list str)) (st : acc) :
  extends (fun r => exists m, In m hrefs /\
                      url r = host ++ group 0 m ++ [slash] ++ group 1 m)
          st (claim_href track_name artist_name hrefs st).
Proof.
  induction hrefs as [|m hrefs IH]; cbn [claim_href]; [apply extends_refl|].
  assert (W : extends
                (fun r => exists m0, In m0 (m :: hrefs) /\
                            url r = host ++ group 0 m0 ++ [slash] ++ group 1 m0)
                st (claim_href track_name artist_name hrefs st)).
  { eapply extends_weaken; [|exact IH].
    intros r (m0 & I & E). exists m0. split; [now right | exact E]. }
  split_step; try exact W. exists m. split; [now left | reflexivity].
Qed.

Lemma profile_cover_step_url (st : acc) (m : list str) :
  extends (fun r => url r = host ++ group 0 m ++ [slash] ++ group 1 m)
          st (profile_cover_step st m).
Proof. unfold profile_cover_step. split_step. reflexivity. Qed.

Lemma linked_path (html pre front a t rest : str) :
  html = pre ++ front ++ $"href=" ++ [dq; slash] ++ a ++ [slash] ++ t ++ [dq] ++ rest ->
  linked html (host ++ a ++ [slash] ++ t).
Proof.
  intros ->. right. left. exists (a ++ [slash] ++ t). split; [reflexivity|].
  exists (pre ++ front), rest. unfold href_open. norm_app. reflexivity.
Qed.

Lemma profile_pass1_linked (username : option str) (html : str) (st : acc) :
  extends (fun r => linked html (url r)) st (profile_pass1 username html st).
Proof.
  unfold profile_pass1. apply fold_extends. intros st1 pattern Ip.
  apply fold_extends. intros st2 m Im.
  eapply extends_weaken; [|apply profile_href_step_url].
  intros r ->. apply in_map_iff in Im as (caps & <- & Ic).
  apply findall_In in Ic as (pre & s' & rest & -> & M).
  destruct Ip as [<-|[<-|[]]].
  - apply full_url_re_inv in M as (a & t & -> & -> & _).
    cbn [group nth]. replace (startswith _ _) with true by reflexivity.
    cbn [negb]. left. exists (a ++ [slash] ++ t). split; [reflexivity|].
    exists pre, rest. unfold href_open. norm_app. reflexivity.
  - apply relative_url_re_inv in M as (a & t & -> & -> & _).
    cbn [group nth]. destruct (startswith (a ++ [slash] ++ t) $"http") eqn:S;
      cbn [negb].
    + right. right. split; [exact S|].
      exists pre, rest. unfold href_open. norm_app. reflexivity.
    + now apply (@linked_path _ pre [] a t rest).
Qed.

Lemma profile_pass2_linked (html : str) (st : acc) :
  extends (fun r => linked html (url r)) st (profile_pass2 html st).
Proof.
  unfold profile_pass2. apply fold_extends. intros st1 m _.
  unfold profile_label_step. destruct (find _ html) as [pos|];
    [|apply extends_refl].
  eapply extends_weaken; [|apply claim_href_url].
  intros r (m0 & I & ->).
  apply findall_In in I as (pre & s' & rest & E & M).
  apply href_pattern_inv in M as (a & t & -> & -> & _). cbn [group nth].
  destruct (slice_inside html (Nat.max 0 (pos - 1000))
                         (Nat.min (length html) (pos + 1000))) as (u & v & H).
  rewrite E in H.
  apply (@linked_path html (u ++ pre) [] a t (rest ++ v)).
  rewrite H. norm_app. reflexivity.
Qed.

Lemma profile_pass3_linked (html : str) (st : acc) :
  extends (fun r => linked html (url r)) st (profile_pass3 html st).
Proof.
  unfold profile_pass3. apply fold_extends. intros st1 m I.
  eapply extends_weaken; [|apply profile_cover_step_url].
  intros r ->.
  apply findall_In in I as (pre & s' & rest & -> & M).
  apply cover_art_pattern_inv in M as (front & a & t & -> & -> & _).
  cbn [group nth]. now apply (@linked_path _ pre front a t rest).
Qed.

(** X7. [scrape_profile] invents no URL.  The url of every record is
    the value of an href attribute of the page: either the attribute holds
    the url itself, which starts with the host, or it holds the path [/p]
    and the url is the host followed by [p], or it holds [/u] where [u]
    begins with [http], and the url is [u] itself, without host. *)
Theorem profile_urls_linked (net : str -> fetched) (url0 : str)
        (ts : list track) (r : track) :
  scrape_profile net url0 = Tracks ts -> In r ts ->
  exists html, net (profile_url url0) = Page html /\ linked html (url r).
Proof.
  intros H I. apply scrape_profile_inv in H as (html & Hn & H).
  exists html. split; [exact Hn|].
  assert (F : Forall (fun r => linked html (url r)) ts).
  { eapply finish_Forall; [|exact H]. unfold profile_tracks.
    eapply extends_trans; [eapply extends_trans|].
    - apply profile_pass1_linked.
    - apply profile_pass2_linked.
    - apply profile_pass3_linked. }
  rewrite Forall_forall in F. exact (F r I).
Qed.

Lemma profile_urls_linked_witness :
  exists html,
    serve href_page (profile_url $"https://soundcloud.com/artist-name/") = Page html /\
    linked html (url my_track).
Proof.
  apply (@profile_urls_linked (serve href_page) $"https://soundcloud.com/artist-name/"
           [my_track] my_track).
  - vm_compute. reflexivity.
  - now left.
Defined.

(* ----------------------------------------------------------------- *)
(** ** Playlists without sound-list item *)

Lemma occurs_inner (a b c s : str) : occurs (a ++ b ++ c) s -> occurs b s.
Proof.
  intros (p & x & ->). exists (p ++ a), (c ++ x). now rewrite <- !app_assoc.
Qed.

Lemma station_step_slug_made (st : acc) (m : str) :
  extends slug_made st (station_step st m).
Proof.
  unfold station_step. set (clean := before "?"%char m).
  destruct (negb (mem (host ++ clean) (seen_urls st))
            && negb (contains $"/sets/" (host ++ clean))
            && negb (contains $"/playlists/" (host ++ clean)));
    [|apply extends_refl].
  destruct (split slash clean) as [|a [|t [|x l]]] eqn:S;
    try apply extends_see.
  destruct (truthy a && truthy t); [|apply extends_see].
  apply extends_append. exists a, t. split; [|reflexivity].
  apply split_two in S as (E & Ha & Ht). cbn [url slug_track].
  rewrite E. now apply url_parts_slug.
Qed.

Lemma playlist_href_step_slug_made (st : acc) (m : str) :
  extends slug_made st (playlist_href_step st m).
Proof.
  unfold playlist_href_step.
  set (track_url := if negb (startswith m $"http")
                    then host ++ before "?"%char m else before "?"%char m).
  destruct (contains $"/sets/" track_url || contains $"/playlists/" track_url);
    [apply extends_refl|].
  destruct (split slash (replace host [] track_url)) as [|a [|t [|x l]]] eqn:S;
    try apply extends_refl.
  destruct (truthy a && truthy t); [|apply extends_refl].
  destruct (negb (mem track_url (seen_urls st))); [|apply extends_refl].
  apply extends_append. exists a, t. split; [exact S | reflexivity].
Qed.

Lemma playlist_pass1_no_item (html : str) (st : acc) :
  ~ occurs $"soundList__item" html -> playlist_pass1 html st = st.
Proof.
  intros N. unfold playlist_pass1.
  rewrite (@findall_without_lit false playlist_sound_item_pattern html
             ($"class=" ++ [dq] ++ $"soundList__item" ++ [dq]));
    [reflexivity | simpl; tauto |].
  intros O. apply N.
  exact (@occurs_inner ($"class=" ++ [dq]) $"soundList__item" [dq] html O).
Qed.

(** X9. On a playlist page in which the text [soundList__item] does not
    occur, method 1 adds nothing, so every record is built from its URL
    alone: the URL has no [?], contains neither [/sets/] nor
    [/playlists/], is [artist/track] once the host prefix is removed, and
    the title and artist of the record are the display forms of these two
    segments. *)
Theorem playlist_without_items (net : str -> fetched) (url0 html : str)
        (ts : list track) (r : track) :
  net url0 = Page html -> ~ occurs $"soundList__item" html ->
  scrape_playlist net url0 = Tracks ts -> In r ts ->
  ~ In "?"%char (url r) /\
  ~ occurs $"/sets/" (url r) /\ ~ occurs $"/playlists/" (url r) /\
  exists a t, url_parts (url r) = [a; t] /\ a <> [] /\ t <> [] /\
              r = slug_track (url r) a t.
Proof.
  intros Hn N H I. rewrite (scrape_playlist_page _ _ Hn) in H.
  unfold playlist_tracks in H. rewrite playlist_pass1_no_item in H by exact N.
  assert (C : Forall canonical ts).
  { eapply (@finish_tracks track_url_form); [|exact H].
    eapply reaches_trans; [apply playlist_pass0_reaches|].
    apply playlist_pass2_reaches. }
  assert (S : Forall slug_made ts).
  { eapply finish_Forall; [|exact H].
    eapply extends_trans.
    - unfold playlist_pass0. apply fold_extends. intros st m _.
      apply station_step_slug_made.
    - unfold playlist_pass2. apply fold_extends. intros st pattern _.
      apply fold_extends. intros st2 m _. apply playlist_href_step_slug_made. }
  rewrite Forall_forall in C, S.
  destruct (C r I) as ((S1 & S2) & (a & t & P & Na & Nt) & Q).
  destruct (S r I) as (a' & t' & P' & E).
  rewrite P in P'. injection P' as <- <-.
  split; [exact Q|]. split; [exact S1|]. split; [exact S2|].
  exists a, t. auto.
Qed.

Lemma playlist_without_items_witness :
  ~ In "?"%char (url my_track) /\
  ~ occurs $"/sets/" (url my_track) /\ ~ occurs $"/playlists/" (url my_track) /\
  exists a t, url_parts (url my_track) = [a; t] /\ a <> [] /\ t <> [] /\
              my_track = slug_track (url my_track) a t.
Proof.
  apply (@playlist_without_items (serve href_page)
           $"https://soundcloud.com/someone/sets/mix" href_page [my_track] my_track).
  - reflexivity.
  - apply contains_false. reflexivity.
  - vm_compute. reflexivity.
  - now left.
Defined.

(* ----------------------------------------------------------------- *)
(** ** The first href attribute *)

Lemma relative_at_href (a t post : str) :
  a <> [] -> ~ In slash a -> t <> [] -> ~ In slash t -> ~ In dq t ->
  re_match false relative_url_re (href_attr a t ++ post)
  = Some ([a ++ [slash] ++ t], post).
Proof.
  intros Na Ha Nt Ht Hq. unfold re_match, relative_url_re, href_attr, href_open.
  norm_app. cbn [match_here strip_prefix Ascii.eqb Bool.eqb].
  cbn.
  rewrite (@rep_match_greedy_run _ 1 (CNot [slash]) a
             (slash :: t ++ dq :: post) ([a ++ [slash] ++ t], post)).
  - reflexivity.
  - now apply class_not_one.
  - right. exists slash, (t ++ dq :: post). split; reflexivity.
  - cbn.
    rewrite (@rep_match_greedy_run _ 1 (CNot [slash; dq]) t
               (dq :: post) ([a ++ [slash] ++ t], post)).
    + reflexivity.
    + apply class_not_intro. intros x [<-|[<-|[]]]; assumption.
    + right. exists dq, post. split; reflexivity.
    + cbn.
      replace (a ++ slash :: t ++ dq :: post)
        with ((a ++ [slash] ++ t) ++ dq :: post) by (norm_app; reflexivity).
      now rewrite firstn_cut.
    + destruct t; simpl; [congruence|lia].
  - destruct a; simpl; [congruence|lia].
Qed.

Lemma open_not_straddling (pre x v : str) :
  pre <> [] -> ~ occurs href_open pre ->
  pre ++ href_open ++ x <> href_open ++ v.
Proof.
  intros N O E. apply O. clear O.
  destruct pre as [|c1 pre]; [congruence|]. clear N.
  injection E as -> E.
  destruct pre as [|c2 pre]; [discriminate E|]. injection E as -> E.
  destruct pre as [|c3 pre]; [discriminate E|]. injection E as -> E.
  destruct pre as [|c4 pre]; [discriminate E|]. injection E as -> E.
  destruct pre as [|c5 pre]; [discriminate E|]. injection E as -> E.
  destruct pre as [|c6 pre]; [discriminate E|]. injection E as -> E.
  exists [], pre. reflexivity.
Qed.

Lemma relative_first (pre a t post : str) :
  ~ occurs href_open pre ->
  a <> [] -> ~ In slash a -> t <> [] -> ~ In slash t -> ~ In dq t ->
  findall false relative_url_re (pre ++ href_attr a t ++ post)
  = [a ++ [slash] ++ t] :: findall false relative_url_re post.
Proof.
  intros Hpre Na Ha Nt Ht Hq. unfold findall. rewrite findall_from_prefix.
  - apply findall_from_hit; [discriminate|]. now apply relative_at_href.
  - discriminate.
  - intros p1 p2 -> Np.
    destruct (re_match false relative_url_re (p2 ++ href_attr a t ++ post))
      as [[caps rest]|] eqn:M; [|reflexivity].
    exfalso.
    apply re_match_sound, relative_url_re_inv in M as (a' & t' & _ & E & _).
    apply (@open_not_straddling p2 ([slash] ++ a ++ [slash] ++ t ++ [dq] ++ post)
             (slash :: a' ++ [slash] ++ t' ++ [dq] ++ rest)).
    + exact Np.
    + intros O. apply Hpre. now apply occurs_app_r.
    + transitivity (p2 ++ href_attr a t ++ post); [|exact E].
      unfold href_attr. norm_app. reflexivity.
Qed.

Lemma fold_left_grows (A : Type) (V : str -> Prop) (P : track -> Prop)
      (f : acc -> A -> acc) (ms : list A) (st : acc) (u : str) :
  (forall st m, reaches V P st (f st m)) ->
  In u (map url (tracks st)) -> In u (map url (tracks (fold_left f ms st))).
Proof.
  intros H I.
  destruct (@prefix_of_reaches V P st (fold_left f ms st)) as [l E].
  - apply fold_reaches. intros st' m _. apply H.
  - rewrite E, map_app. apply in_or_app. now left.
Qed.

Lemma profile_href_step_finds (username : option str) (st : acc) (a t : str) :
  a <> [] -> ~ In slash a -> t <> [] -> ~ In slash t ->
  startswith (a ++ [slash] ++ t) $"http" = false ->
  no_sets (host ++ a ++ [slash] ++ t) ->
  no_reposts (host ++ a ++ [slash] ++ t) ->
  kept any_url st ->
  In (host ++ a ++ [slash] ++ t)
     (map url (tracks (profile_href_step username st (a ++ [slash] ++ t)))).
Proof.
  intros Na Ha Nt Ht S [N1 N2] N3 K. unfold profile_href_step. rewrite S.
  cbn [negb].
  apply contains_false in N1, N2, N3. rewrite N1, N2, N3. cbn [orb].
  change (split slash (replace host [] (host ++ a ++ [slash] ++ t)))
    with (url_parts (host ++ a ++ [slash] ++ t)).
  rewrite url_parts_slug by assumption.
  apply truthy_not_nil in Na, Nt. rewrite Na, Nt. cbn [andb].
  destruct (mem (host ++ a ++ [slash] ++ t) (seen_urls st)) eqn:M; cbn [negb].
  - apply K; [now apply mem_In | exact I].
  - cbn [append tracks]. rewrite map_app. apply in_or_app. right. now left.
Qed.

Lemma profile_first_href (net : str -> fetched) (url0 pre a t post : str) :
  net (profile_url url0) = Page (pre ++ href_attr a t ++ post) ->
  ~ occurs href_open pre ->
  a <> [] -> ~ In slash a -> t <> [] -> ~ In slash t -> ~ In dq t ->
  startswith (a ++ [slash] ++ t) $"http" = false ->
  no_sets (host ++ a ++ [slash] ++ t) ->
  no_reposts (host ++ a ++ [slash] ++ t) ->
  exists ts, scrape_profile net url0 = Tracks ts /\
             In (host ++ a ++ [slash] ++ t) (map url ts).
Proof.
  intros Hn Hpre Na Ha Nt Ht Hq S N12 N3.
  rewrite (scrape_profile_page _ _ Hn).
  set (html := pre ++ href_attr a t ++ post).
  set (user := username_of (profile_url url0)).
  set (U := host ++ a ++ [slash] ++ t).
  set (st0 := fold_left (profile_href_step user)
                        (map (group 0) (findall false full_url_re html)) init).
  assert (R0 : reaches any_url href_scanned init st0).
  { apply fold_reaches. intros st m _.
    apply reaches_one, profile_href_step_moves. }
  assert (K0 : kept any_url st0).
  { eapply reaches_kept; [exact R0|]. intros u []. }
  assert (I1 : In U (map url (tracks (profile_pass1 user html init)))).
  { unfold profile_pass1, track_patterns. cbn [fold_left]. fold st0.
    unfold html. rewrite relative_first by assumption.
    cbn [map fold_left group nth].
    apply (@fold_left_grows _ any_url href_scanned).
    - intros st m. apply reaches_one, profile_href_step_moves.
    - now apply profile_href_step_finds. }
  assert (I3 : In U (map url (tracks (profile_tracks (profile_url url0) html)))).
  { unfold profile_tracks. fold user.
    destruct (@prefix_of_reaches any_url slug_checked
                (profile_pass1 user html init)
                (profile_pass3 html (profile_pass2 html (profile_pass1 user html init))))
      as [l E].
    - eapply reaches_trans;
        [apply profile_pass2_reaches | apply profile_pass3_reaches].
    - rewrite E, map_app. apply in_or_app. now left. }
  destruct (@finish_consistent any_url profile_record
              (profile_tracks (profile_url url0) html)
              (profile_tracks_reaches _ _)) as (_ & _ & E).
  rewrite E.
  destruct (tracks (profile_tracks (profile_url url0) html)) as [|r l] eqn:T;
    [destruct I3|].
  exists (r :: l). split; [reflexivity | exact I3].
Qed.

Lemma before_absent (c : ascii) (s : str) : ~ In c s -> before c s = s.
Proof.
  induction s as [|x s IH]; simpl; intros H; [reflexivity|].
  destruct (Ascii.eqb_spec x c) as [->|N]; [tauto|].
  rewrite IH by tauto. reflexivity.
Qed.

Lemma playlist_href_step_finds (st : acc) (a t : str) :
  a <> [] -> ~ In slash a -> t <> [] -> ~ In slash t ->
  ~ In "?"%char a -> ~ In "?"%char t ->
  startswith (a ++ [slash] ++ t) $"http" = false ->
  no_sets (host ++ a ++ [slash] ++ t) ->
  kept track_url_form st ->
  In (host ++ a ++ [slash] ++ t)
     (map url (tracks (playlist_href_step st (a ++ [slash] ++ t)))).
Proof.
  intros Na Ha Nt Ht Qa Qt S [N1 N2] K. unfold playlist_href_step. rewrite S.
  cbn [negb]. rewrite before_absent.
  2:{ apply In_app_not; [exact Qa|]. intros [E|I]; [discriminate E | tauto]. }
  apply contains_false in N1, N2. rewrite N1, N2. cbn [orb].
  change (split slash (replace host [] (host ++ a ++ [slash] ++ t)))
    with (url_parts (host ++ a ++ [slash] ++ t)).
  rewrite url_parts_slug by assumption.
  pose proof Na as Ta. pose proof Nt as Tt.
  apply truthy_not_nil in Ta, Tt. rewrite Ta, Tt. cbn [andb].
  destruct (mem (host ++ a ++ [slash] ++ t) (seen_urls st)) eqn:M; cbn [negb].
  - apply K; [now apply mem_In|]. exists a, t. auto.
  - cbn [append tracks]. rewrite map_app. apply in_or_app. right. now left.
Qed.

Lemma playlist_first_href (net : str -> fetched) (url0 pre a t post : str) :
  net url0 = Page (pre ++ href_attr a t ++ post) ->
  ~ occurs href_open pre ->
  a <> [] -> ~ In slash a -> t <> [] -> ~ In slash t -> ~ In dq t ->
  ~ In "?"%char a -> ~ In "?"%char t ->
  startswith (a ++ [slash] ++ t) $"http" = false ->
  no_sets (host ++ a ++ [slash] ++ t) ->
  exists ts, scrape_playlist net url0 = Tracks ts /\
             In (host ++ a ++ [slash] ++ t) (map url ts).
Proof.
  intros Hn Hpre Na Ha Nt Ht Hq Qa Qt S N12.
  rewrite (scrape_playlist_page _ _ Hn).
  set (html := pre ++ href_attr a t ++ post).
  set (U := host ++ a ++ [slash] ++ t).
  set (st1 := playlist_pass1 html (playlist_pass0 html init)).
  set (st0 := fold_left playlist_href_step
                        (map (group 0) (findall false full_url_re html)) st1).
  assert (R0 : reaches track_url_form playlist_record init st0).
  { eapply reaches_trans; [eapply reaches_trans|].
    - eapply reaches_weaken; [|apply playlist_pass0_reaches]. now left.
    - eapply reaches_weaken; [|apply playlist_pass1_reaches]. now right.
    - apply fold_reaches. intros st m _.
      eapply reaches_weaken; [|apply reaches_one, playlist_href_step_moves].
      now left. }
  assert (K0 : kept track_url_form st0).
  { eapply reaches_kept; [exact R0|]. intros u []. }
  assert (I3 : In U (map url (tracks (playlist_tracks html)))).
  { unfold playlist_tracks, playlist_pass2, track_patterns. cbn [fold_left].
    fold st1. fold st0.
    unfold html. rewrite relative_first by assumption.
    cbn [map fold_left group nth].
    apply (@fold_left_grows _ track_url_form canonical).
    - intros st m. apply reaches_one, playlist_href_step_moves.
    - now apply playlist_href_step_finds. }
  destruct (@finish_consistent track_url_form playlist_record
              (playlist_tracks html) (playlist_tracks_reaches _)) as (_ & _ & E).
  rewrite E.
  destruct (tracks (playlist_tracks html)) as [|r l] eqn:T; [destruct I3|].
  exists (r :: l). split; [reflexivity | exact I3].
Qed.

(** X6. The first href attribute of a page is never missed.  When the
    text [href=\q] does not occur before the attribute [href=\q/a/t\q],
    where [a] and [t] are non-empty and free of [/], [t] is free of the
    double quote and [a/t] does not begin with [http], and the URL
    [https://soundcloud.com/a/t] contains neither [/sets/] nor
    [/playlists/], then [scrape_profile] returns a list that has a record
    with that URL, provided the URL does not contain [/reposts], and so
    does [scrape_playlist], provided [a] and [t] are free of [?];
    whatever else the page contains. *)
Theorem first_href_found (net : str -> fetched) (url0 pre a t post : str) :
  ~ occurs href_open pre ->
  a <> [] -> ~ In slash a -> t <> [] -> ~ In slash t -> ~ In dq t ->
  startswith (a ++ [slash] ++ t) $"http" = false ->
  no_sets (host ++ a ++ [slash] ++ t) ->
  (net (profile_url url0) = Page (pre ++ href_attr a t ++ post) ->
   no_reposts (host ++ a ++ [slash] ++ t) ->
   exists ts, scrape_profile net url0 = Tracks ts /\
              In (host ++ a ++ [slash] ++ t) (map url ts)) /\
  (net url0 = Page (pre ++ href_attr a t ++ post) ->
   ~ In "?"%char a -> ~ In "?"%char t ->
   exists ts, scrape_playlist net url0 = Tracks ts /\
              In (host ++ a ++ [slash] ++ t) (map url ts)).
Proof.
  intros Hpre Na Ha Nt Ht Hq S N12. split.
  - intros Hn N3. now apply (@profile_first_href net url0 pre a t post).
  - intros Hn Qa Qt. now apply (@playlist_first_href net url0 pre a t post).
Qed.

Lemma first_href_found_witness :
  (exists ts,
      scrape_profile (serve href_page) $"https://soundcloud.com/someone"
      = Tracks ts /\ In the_url (map url ts)) /\
  (exists ts,
      scrape_playlist (serve href_page) $"https://soundcloud.com/someone/sets/x"
      = Tracks ts /\ In the_url (map url ts)).
Proof.
  assert (Hpre : ~ occurs href_open $"<a ")
    by (apply contains_false; reflexivity).
  assert (Na : $"artist-name" <> []) by discriminate.
  assert (Ha : ~ In slash $"artist-name") by (apply not_In_existsb; reflexivity).
  assert (Nt : $"my-track" <> []) by discriminate.
  assert (Ht : ~ In slash $"my-track") by (apply not_In_existsb; reflexivity).
  assert (Hq : ~ In dq $"my-track") by (apply not_In_existsb; reflexivity).
  assert (N12 : no_sets the_url) by (split; apply contains_false; reflexivity).
  split.
  - apply (proj1 (@first_href_found (serve href_page)
                    $"https://soundcloud.com/someone"
                    $"<a " $"artist-name" $"my-track" $">My Track</a>"
                    Hpre Na Ha Nt Ht Hq eq_refl N12)).
    + reflexivity.
    + apply contains_false. reflexivity.
  - apply (proj2 (@first_href_found (serve href_page)
                    $"https://soundcloud.com/someone/sets/x"
                    $"<a " $"artist-name" $"my-track" $">My Track</a>"
                    Hpre Na Ha Nt Ht Hq eq_refl N12)).
    + reflexivity.
    + apply not_In_existsb. reflexivity.
    + apply not_In_existsb. reflexivity.
Defined.

(* ----------------------------------------------------------------- *)
(** ** What the final loop keeps *)

Lemma dedupe_keeps (ts : list track) (seen : list str) (u : str) :
  In u (map url ts) -> ~ In u seen -> In u (map url (dedupe ts seen)).
Proof.
  revert seen. induction ts as [|t ts IH]; intros seen I N; [destruct I|].
  simpl. destruct (mem (url t) seen) eqn:M.
  - destruct I as [E|I]; [|now apply IH].
    apply mem_In in M. congruence.
  - destruct (list_eq_dec ascii_dec (url t) u) as [E|D]; [now left|].
    right. destruct I as [E|I]; [contradiction|].
    apply IH; [exact I|]. intros [E|J]; [contradiction | now apply N].
Qed.

(** X10. The final loop loses no URL and adds none: the URLs of its
    result are those of its argument.  Its result is made of records of
    the argument, is not longer, leaves a list with pairwise distinct URLs
    unchanged, and running the loop twice gives what one run gives. *)
Theorem unique_tracks_urls (ts : list track) :
  (forall u, In u (map url (unique_tracks ts)) <-> In u (map url ts)) /\
  (forall r, In r (unique_tracks ts) -> In r ts) /\
  (NoDup (map url ts) -> unique_tracks ts = ts) /\
  unique_tracks (unique_tracks ts) = unique_tracks ts /\
  length (unique_tracks ts) <= length ts.
Proof.
  rewrite !unique_tracks_dedupe.
  assert (Sub : forall r, In r (dedupe ts []) -> In r ts).
  { intros r I. now apply dedupe_In in I. }
  assert (Fix : forall l, NoDup (map url l) -> dedupe l [] = l).
  { intros l ND. apply dedupe_id; [exact ND | intros u _ []]. }
  split; [|split; [exact Sub|split; [apply Fix|split]]].
  - intros u. split.
    + intros I. apply in_map_iff in I as (r & <- & I).
      apply in_map. now apply Sub.
    + intros I. apply dedupe_keeps; [exact I | intros []].
  - apply Fix, dedupe_NoDup.
  - apply NoDup_incl_length.
    + apply (NoDup_map_inv url), dedupe_NoDup.
    + exact Sub.
Qed.

Lemma unique_tracks_urls_witness :
  unique_tracks [my_track; tracks_track] = [my_track; tracks_track].
Proof.
  apply (proj1 (proj2 (proj2 (unique_tracks_urls [my_track; tracks_track])))).
  repeat constructor; simpl; intros H; repeat destruct H as [H|H];
    try discriminate H; exact H.
Defined.

(* ----------------------------------------------------------------- *)
(** ** Display names *)

Lemma replace_char (c d : ascii) (s : str) :
  replace [c] [d] s = map (fun x => if Ascii.eqb x c then d else x) s.
Proof.
  unfold replace. induction s as [|x s IH]; [reflexivity|].
  cbn [replace_from map]. unfold startswith. cbn [strip_prefix].
  rewrite (Ascii.eqb_sym c x).
  destruct (Ascii.eqb x c); cbn [length Nat.sub app]; now rewrite IH.
Qed.

Lemma title_from_length (b : bool) (s : str) :
  length (title_from b s) = length s.
Proof.
  revert b. induction s as [|c s IH]; intros b; [reflexivity|].
  cbn [title_from]. destruct (is_lower c); [|destruct (is_upper c)];
    cbn [length]; now rewrite IH.
Qed.

Lemma lower_upper_char (c : ascii) :
  is_lower c = true -> lower_char (upper_char c) = lower_char c.
Proof.
  destruct c as [[] [] [] [] [] [] [] []]; intros H;
    try discriminate H; reflexivity.
Qed.

Lemma lower_lower_char (c : ascii) : lower_char (lower_char c) = lower_char c.
Proof. destruct c as [[] [] [] [] [] [] [] []]; reflexivity. Qed.

Lemma title_from_lower (b : bool) (s : str) :
  lower (title_from b s) = lower s.
Proof.
  revert b. induction s as [|c s IH]; intros b; [reflexivity|].
  cbn [title_from]. destruct (is_lower c) eqn:L; [|destruct (is_upper c)];
    cbn [lower map]; fold (lower (title_from true s));
    fold (lower (title_from false s)); fold (lower s); rewrite IH;
    [destruct b; [reflexivity | now rewrite lower_upper_char]
    | destruct b; [now rewrite lower_lower_char | reflexivity]
    | reflexivity].
Qed.

Lemma title_from_uncased (b : bool) (x : ascii) (s : str) :
  is_lower x = false -> is_upper x = false ->
  In x (title_from b s) -> In x s.
Proof.
  intros L U. revert b. induction s as [|c s IH]; intros b I; [exact I|].
  cbn [title_from] in I.
  destruct (is_lower c) eqn:Lc; [|destruct (is_upper c) eqn:Uc];
    destruct I as [E|I]; try (right; eapply IH; exact I).
  - exfalso. destruct b; [congruence|].
    revert E Lc L U. clear.
    destruct c as [[] [] [] [] [] [] [] []]; intros <- Lc L U;
      try discriminate Lc; discriminate U.
  - exfalso. destruct b; [|congruence].
    revert E Uc L U. clear.
    destruct c as [[] [] [] [] [] [] [] []]; intros <- Uc L U;
      try discriminate Uc; discriminate L.
  - now left.
Qed.

Lemma upper_char_ascii (c : ascii) :
  (code c <? 128) = true -> (code (upper_char c) <? 128) = true.
Proof.
  destruct c as [[] [] [] [] [] [] [] []]; intros H;
    try discriminate H; reflexivity.
Qed.

Lemma lower_char_ascii (c : ascii) :
  (code c <? 128) = true -> (code (lower_char c) <? 128) = true.
Proof.
  destruct c as [[] [] [] [] [] [] [] []]; intros H;
    try discriminate H; reflexivity.
Qed.

Lemma unsep_ascii (c : ascii) :
  (code c <? 128) = true -> (code (unsep c) <? 128) = true.
Proof.
  destruct c as [[] [] [] [] [] [] [] []]; intros H;
    try discriminate H; reflexivity.
Qed.

Lemma title_from_ascii (b : bool) (s : str) :
  ascii_text s = true -> ascii_text (title_from b s) = true.
Proof.
  unfold ascii_text. revert b.
  induction s as [|c s IH]; intros b H; [reflexivity|].
  cbn [forallb] in H. apply andb_true_iff in H as [Hc H].
  cbn [title_from].
  destruct (is_lower c); [|destruct (is_upper c)]; cbn [forallb];
    rewrite IH by exact H; rewrite andb_true_r;
    try destruct b; auto using upper_char_ascii, lower_char_ascii.
Qed.

(** X11. For a slug of ASCII text, the display name made by
    [replace('-', ' ').replace('_', ' ').title()] is the title case of the
    slug whose hyphens and underscores are replaced by spaces: it is ASCII
    text again, has the length of the slug, differs from it, separators
    apart, only in letter case, and contains no hyphen and no underscore.
    (Outside ASCII, [title] can change the length of a text.) *)
Theorem display_spec (s : str) :
  ascii_text s = true ->
  display s = str_title (map unsep s) /\
  ascii_text (display s) = true /\
  length (display s) = length s /\
  lower (display s) = lower (map unsep s) /\
  ~ In "-"%char (display s) /\ ~ In "_"%char (display s).
Proof.
  intros A.
  assert (E : display s = str_title (map unsep s)).
  { unfold display. cbn [list_ascii_of_string].
    rewrite !(@replace_char _ " "%char), map_map.
    f_equal. apply map_ext. intros c. unfold unsep.
    destruct (Ascii.eqb_spec c "-"%char) as [->|N]; [reflexivity|].
    cbn [orb]. reflexivity. }
  split; [exact E|]. rewrite E. unfold str_title.
  split.
  { apply title_from_ascii. unfold ascii_text in *.
    rewrite forallb_forall in *. intros x I.
    apply in_map_iff in I as (c & <- & I). apply unsep_ascii. now apply A. }
  split; [now rewrite title_from_length, length_map|].
  split; [apply title_from_lower|].
  split; intros I; apply title_from_uncased in I; try reflexivity;
    apply in_map_iff in I as (c & Ec & _); unfold unsep in Ec;
    destruct (Ascii.eqb c "-"%char) eqn:E1; try discriminate Ec;
    destruct (Ascii.eqb c "_"%char) eqn:E2; try discriminate Ec;
    cbn [orb] in Ec; subst c; discriminate.
Qed.

Lemma display_spec_witness :
  display $"my-track_2nd mix" = $"My Track 2Nd Mix" /\
  length (display $"my-track_2nd mix") = length $"my-track_2nd mix" /\
  ~ In "-"%char (display $"my-track_2nd mix").
Proof.
  destruct (@display_spec $"my-track_2nd mix" eq_refl) as (E & _ & L & _ & H & _).
  split; [|split; [exact L | exact H]].
  rewrite E. reflexivity.
Defined.

(* ----------------------------------------------------------------- *)
(** ** Where the URLs of a playlist come from *)

Lemma track_station_pattern_inv (s rest : str) (caps : list str) :
  matches false track_station_pattern s None [] (caps, rest) ->
  exists front m,
    caps = [m] /\ s = front ++ href_open ++ [slash] ++ m ++ rest.
Proof.
  unfold track_station_pattern. intros M. peel.
  match goal with
  | |- exists _ _, [?m] = _ /\ ?l ++ ?w1 ++ ?c ++ ?w2 ++ ?k ++ ?w3 ++ ?d ++ ?w4 ++ _ = _ =>
      exists (l ++ w1 ++ c ++ w2 ++ k ++ w3 ++ d ++ w4), m
  end.
  split; [reflexivity|]. unfold href_open. norm_app. reflexivity.
Qed.

Lemma station_step_url (st : acc) (m : str) :
  extends (fun r => url r = host ++ before "?"%char m) st (station_step st m).
Proof. unfold station_step. split_step. reflexivity. Qed.

Lemma playlist_label_step_url (html : str) (st : acc) (m : list str) :
  extends (fun r => exists hm,
               search true (fuzzy_href_pattern (track_name_slug (group 0 m))) html
               = Some hm /\
               url r = host ++ group 0 hm ++ [slash] ++ group 1 hm)
          st (playlist_label_step html st m).
Proof.
  unfold playlist_label_step.
  destruct (search true _ html) as [hm|]; [|apply extends_refl].
  split_step. exists hm. split; reflexivity.
Qed.

Lemma playlist_href_step_url (st : acc) (m : str) :
  extends (fun r => url r = if negb (startswith m $"http")
                            then host ++ before "?"%char m
                            else before "?"%char m)
          st (playlist_href_step st m).
Proof. unfold playlist_href_step. split_step. reflexivity. Qed.

Lemma occurs_before (c : ascii) (w m post : str) :
  occurs (w ++ before c m) (w ++ m ++ post).
Proof.
  destruct (before_spec c m) as [_ [r E]]. exists [], (r ++ post).
  cbn [app]. rewrite <- app_assoc. f_equal.
  now rewrite app_assoc, <- E.
Qed.

Lemma playlist_pass0_linked (html : str) (st : acc) :
  extends (fun r => linked_ci html (url r)) st (playlist_pass0 html st).
Proof.
  unfold playlist_pass0. apply fold_extends. intros st1 m Im.
  eapply extends_weaken; [|apply station_step_url].
  intros r ->. apply in_map_iff in Im as (caps & <- & Ic).
  apply findall_In in Ic as (pre & s' & rest & -> & M).
  apply track_station_pattern_inv in M as (front & m & -> & ->).
  cbn [group nth]. exists (href_open ++ [slash]), (before "?"%char m).
  split; [now left|]. split; [|now right].
  apply occurs_app_r, occurs_app_r. rewrite !app_assoc, <- (app_assoc _ m).
  apply (occurs_before "?"%char).
Qed.

Lemma playlist_pass1_linked (html : str) (st : acc) :
  extends (fun r => linked_ci html (url r)) st (playlist_pass1 html st).
Proof.
  unfold playlist_pass1. apply fold_extends. intros st1 m _.
  eapply extends_weaken; [|apply playlist_label_step_url].
  intros r (hm & S & ->).
  apply search_some in S as (pre & s' & rest & -> & M & _).
  apply fuzzy_href_pattern_inv in M
    as (h & a & x & y & z & -> & -> & Hh & _).
  cbn [group nth]. exists h, (a ++ [slash] ++ x ++ y ++ z).
  split; [now left|]. split; [|now right].
  apply occurs_app_r. exists [], ([dq] ++ rest). norm_app. reflexivity.
Qed.

Lemma playlist_pass2_linked (html : str) (st : acc) :
  extends (fun r => linked_ci html (url r)) st (playlist_pass2 html st).
Proof.
  unfold playlist_pass2. apply fold_extends. intros st1 pattern Ip.
  apply fold_extends. intros st2 m Im.
  eapply extends_weaken; [|apply playlist_href_step_url].
  intros r ->. apply in_map_iff in Im as (caps & <- & Ic).
  apply findall_In in Ic as (pre & s' & rest & -> & M).
  destruct Ip as [<-|[<-|[]]].
  - apply full_url_re_inv in M as (a & t & -> & -> & _).
    cbn [group nth]. replace (startswith _ _) with true by reflexivity.
    cbn [negb]. exists href_open, (before "?"%char (host ++ a ++ [slash] ++ t)).
    split; [now right|]. split; [|now left].
    apply occurs_app_r.
    change ($"href=" ++ [dq] ++ host ++ a ++ [slash] ++ t ++ [dq] ++ rest)
      with (href_open ++ host ++ a ++ [slash] ++ t ++ [dq] ++ rest).
    replace (host ++ a ++ [slash] ++ t ++ [dq] ++ rest)
      with ((host ++ a ++ [slash] ++ t) ++ [dq] ++ rest)
      by (norm_app; reflexivity).
    apply (occurs_before "?"%char).
  - apply relative_url_re_inv in M as (a & t & -> & -> & _).
    cbn [group nth].
    exists (href_open ++ [slash]), (before "?"%char (a ++ [slash] ++ t)).
    split; [destruct (negb _); auto|]. split; [|now right].
    apply occurs_app_r.
    change ($"href=" ++ [dq; slash] ++ a ++ [slash] ++ t ++ [dq] ++ rest)
      with ((href_open ++ [slash]) ++ a ++ [slash] ++ t ++ [dq] ++ rest).
    replace (a ++ [slash] ++ t ++ [dq] ++ rest)
      with ((a ++ [slash] ++ t) ++ [dq] ++ rest)
      by (norm_app; reflexivity).
    apply (occurs_before "?"%char).
Qed.

(** X8. [scrape_playlist] invents no URL.  The url of every record,
    with or without its host prefix, occurs in the page right after the
    text [href=\q] or [href=\q/], the name of the attribute being in any
    letter case (method 1 reads it with [re.IGNORECASE]). *)
Theorem playlist_urls_linked (net : str -> fetched) (url0 : str)
        (ts : list track) (r : track) :
  scrape_playlist net url0 = Tracks ts -> In r ts ->
  exists html, net url0 = Page html /\ linked_ci html (url r).
Proof.
  intros H I. apply scrape_playlist_inv in H as (html & Hn & H).
  exists html. split; [exact Hn|].
  assert (F : Forall (fun r => linked_ci html (url r)) ts).
  { eapply finish_Forall; [|exact H]. unfold playlist_tracks.
    eapply extends_trans; [eapply extends_trans|].
    - apply playlist_pass0_linked.
    - apply playlist_pass1_linked.
    - apply playlist_pass2_linked. }
  rewrite Forall_forall in F. exact (F r I).
Qed.

Lemma playlist_urls_linked_witness :
  exists html,
    serve href_page $"https://soundcloud.com/someone/sets/mix" = Page html /\
    linked_ci html (url my_track).
Proof.
  apply (@playlist_urls_linked (serve href_page)
           $"https://soundcloud.com/someone/sets/mix" [my_track] my_track).
  - vm_compute. reflexivity.
  - now left.
Defined.

(* ----------------------------------------------------------------- *)
(** ** Tests that never decide *)

Lemma existing_unseen (st : acc) (x : str) :
  consistent st -> mem x (seen_urls st) = false ->
  existing x (see x st) = None.
Proof.
  intros [_ I] M. unfold existing. cbn [tracks see].
  destruct (List.find (fun t => str_eqb (url t) x) (tracks st)) as [r|] eqn:F;
    [exfalso|reflexivity].
  apply find_some in F as [J E]. apply str_eqb_eq in E.
  apply mem_not_In in M. apply M, I. rewrite <- E. now apply in_map.
Qed.

Lemma no_slash_no_sets (t : str) :
  ~ In slash t ->
  contains $"/sets/" t = false /\ contains $"/playlists/" t = false.
Proof.
  intros H. split; apply contains_false; intros (p & x & ->); apply H;
    apply in_or_app; right; now left.
Qed.

Lemma cover_matches_pairs (html : str) :
  Forall slug_pair (findall false cover_art_pattern html).
Proof.
  apply Forall_forall. intros m H.
  apply findall_In in H as (pre & s' & rest & _ & M).
  apply cover_art_pattern_inv in M as (front & a & t & -> & _ & F).
  now exists a, t.
Qed.

(** X12. Two tests of methods 2 and 3 of [scrape_profile] never decide
    anything.  At the start of every iteration of their loops, a URL that
    is not in [seen_urls] has no record in [tracks], so the lookup
    [existing] made after the URL is added finds nothing; and a track slug
    captured by the href pattern or the cover-art pattern has no [/], so
    it contains neither [/sets/] nor [/playlists/]: a slug is skipped
    exactly when it is one of the reserved words. *)
Theorem redundant_tests (u html : str) :
  let s1 := profile_pass1 (username_of u) html init in
  let s2 := profile_pass2 html s1 in
  (forall k st x,
      st = fold_left (profile_label_step html)
                     (firstn k (findall false sound_item_pattern html)) s1 \/
      st = fold_left profile_cover_step
                     (firstn k (findall false cover_art_pattern html)) s2 ->
      mem x (seen_urls st) = false -> existing x (see x st) = None) /\
  (forall context m,
      In m (findall false href_pattern context) \/
      In m (findall false cover_art_pattern context) ->
      contains $"/sets/" (group 1 m) = false /\
      contains $"/playlists/" (group 1 m) = false /\
      skip_slug (group 1 m) = mem (group 1 m) reserved).
Proof.
  intros s1 s2.
  assert (R1 : reaches any_url profile_record init s1).
  { eapply reaches_weaken; [|apply profile_pass1_reaches]. now left. }
  assert (R2 : reaches any_url profile_record init s2).
  { eapply reaches_trans; [exact R1|].
    eapply reaches_weaken; [|apply profile_pass2_reaches]. now right. }
  split.
  - intros k st x H. apply existing_unseen.
    apply (@reaches_consistent any_url profile_record init);
      [|apply consistent_init].
    destruct H as [-> | ->].
    + eapply reaches_trans; [exact R1|]. apply fold_reaches. intros st m _.
      unfold profile_label_step. destruct (find _ html); [|constructor].
      eapply reaches_weaken;
        [|apply reaches_one, claim_href_moves, href_matches_pairs]. now right.
    + eapply reaches_trans; [exact R2|]. apply fold_reaches. intros st m I.
      eapply reaches_weaken;
        [|apply reaches_one, profile_cover_step_moves]; [now right|].
      apply In_firstn in I.
      pose proof (cover_matches_pairs html) as F.
      rewrite Forall_forall in F. auto.
  - intros context m H.
    assert (P : slug_pair m).
    { destruct H as [H|H].
      - pose proof (href_matches_pairs context) as F.
        rewrite Forall_forall in F. auto.
      - pose proof (cover_matches_pairs context) as F.
        rewrite Forall_forall in F. auto. }
    destruct P as (a & t & -> & _ & _ & _ & Ht & _). cbn [group nth].
    destruct (@no_slash_no_sets t Ht) as [E1 E2].
    split; [exact E1|]. split; [exact E2|].
    unfold skip_slug. now rewrite E1, E2.
Qed.

Lemma redundant_tests_witness :
  let s2 := profile_pass2 sets_cover_page
              (profile_pass1 (username_of $"https://soundcloud.com/someone/tracks")
                             sets_cover_page init) in
  let s3 := fold_left profile_cover_step
                      (firstn 1 (findall false cover_art_pattern sets_cover_page))
                      s2 in
  (tracks s2 = [someone_track] /\ seen_urls s2 = [the_url] /\
   existing sets_url (see sets_url s2) = None) /\
  (tracks s3 = [someone_track; sets_track] /\
   seen_urls s3 = [sets_url; the_url] /\
   existing $"https://soundcloud.com/other/track"
            (see $"https://soundcloud.com/other/track" s3) = None) /\
  In [$"sets"; $"mix"] (findall false cover_art_pattern sets_cover_page) /\
  contains $"/sets/" $"mix" = false /\
  contains $"/playlists/" $"mix" = false /\
  skip_slug $"mix" = mem $"mix" reserved.
Proof.
  destruct (@redundant_tests $"https://soundcloud.com/someone/tracks"
              sets_cover_page) as [A B].
  cbv zeta. split; [|split].
  - split; [vm_compute; reflexivity|]. split; [vm_compute; reflexivity|].
    apply (A 0); [right; reflexivity | vm_compute; reflexivity].
  - split; [vm_compute; reflexivity|]. split; [vm_compute; reflexivity|].
    apply (A 1); [right; reflexivity | vm_compute; reflexivity].
  - assert (I : In [$"sets"; $"mix"]
                   (findall false cover_art_pattern sets_cover_page))
      by (vm_compute; left; reflexivity).
    split; [exact I|].
    exact (B sets_cover_page [$"sets"; $"mix"] (or_intror I)).
Defined.

(* ----------------------------------------------------------------- *)
(** ** How many records *)

Lemma fold_grows (A : Type) (f : acc -> A -> acc) (ms : list A) :
  (forall st m, grows 1 st (f st m)) ->
  forall st, grows (length ms) st (fold_left f ms st).
Proof.
  intros H. induction ms as [|m ms IH]; intros st; unfold grows in *; simpl;
    [lia|].
  specialize (IH (f st m)). specialize (H st m). lia.
Qed.

Ltac count_step :=
  unfold grows;
  repeat match goal with
         | |- context [if ?b then _ else _] => destruct b
         | |- context [match ?x with _ => _ end] => destruct x
         end;
  cbn [tracks append see]; rewrite ?length_app; simpl; lia.

Lemma claim_href_grows (track_name artist_name : str)
      (hrefs : list (list str)) (st : acc) :
  grows 1 st (claim_href track_name artist_name hrefs st).
Proof.
  induction hrefs as [|m hrefs IH]; cbn [claim_href]; [unfold grows; lia|].
  destruct (skip_slug _); [exact IH|].
  destruct (negb _); [|exact IH].
  destruct (existing _ _); unfold grows; cbn [tracks append see];
    rewrite ?length_app; simpl; lia.
Qed.

Lemma profile_href_step_grows (username : option str) (st : acc) (m : str) :
  grows 1 st (profile_href_step username st m).
Proof. unfold profile_href_step. count_step. Qed.

Lemma profile_cover_step_grows (st : acc) (m : list str) :
  grows 1 st (profile_cover_step st m).
Proof. unfold profile_cover_step. count_step. Qed.

Lemma station_step_grows (st : acc) (m : str) : grows 1 st (station_step st m).
Proof. unfold station_step. count_step. Qed.

Lemma playlist_label_step_grows (html : str) (st : acc) (m : list str) :
  grows 1 st (playlist_label_step html st m).
Proof. unfold playlist_label_step. count_step. Qed.

Lemma playlist_href_step_grows (st : acc) (m : str) :
  grows 1 st (playlist_href_step st m).
Proof. unfold playlist_href_step. count_step. Qed.

Lemma profile_label_step_grows (html : str) (st : acc) (m : list str) :
  grows 1 st (profile_label_step html st m).
Proof.
  unfold profile_label_step. destruct (find _ html);
    [apply claim_href_grows | unfold grows; lia].
Qed.

Lemma profile_tracks_grows (u html : str) :
  length (tracks (profile_tracks u html))
  <= length (findall false full_url_re html)
     + length (findall false relative_url_re html)
     + length (findall false sound_item_pattern html)
     + length (findall false cover_art_pattern html).
Proof.
  unfold profile_tracks, profile_pass1, profile_pass2, profile_pass3,
    track_patterns. cbn [fold_left].
  set (f := profile_href_step (username_of u)).
  set (s1 := fold_left f (map (group 0) (findall false full_url_re html)) init).
  set (s2 := fold_left f (map (group 0) (findall false relative_url_re html)) s1).
  set (s3 := fold_left (profile_label_step html)
                       (findall false sound_item_pattern html) s2).
  pose proof (@fold_grows _ f (map (group 0) (findall false full_url_re html))
                (profile_href_step_grows _) init) as G1.
  pose proof (@fold_grows _ f (map (group 0) (findall false relative_url_re html))
                (profile_href_step_grows _) s1) as G2.
  pose proof (@fold_grows _ _ (findall false sound_item_pattern html)
                (profile_label_step_grows html) s2) as G3.
  pose proof (@fold_grows _ _ (findall false cover_art_pattern html)
                profile_cover_step_grows s3) as G4.
  fold s1 in G1. fold s2 in G2. fold s3 in G3.
  unfold grows in *. rewrite length_map in *. simpl in G1. lia.
Qed.

Lemma playlist_tracks_grows (html : str) :
  length (tracks (playlist_tracks html))
  <= length (findall false track_station_pattern html)
     + length (findall false playlist_sound_item_pattern html)
     + length (findall false full_url_re html)
     + length (findall false relative_url_re html).
Proof.
  unfold playlist_tracks, playlist_pass0, playlist_pass1, playlist_pass2,
    track_patterns. cbn [fold_left].
  set (s0 := fold_left station_step
                       (map (group 0) (findall false track_station_pattern html))
                       init).
  set (s1 := fold_left (playlist_label_step html)
                       (findall false playlist_sound_item_pattern html) s0).
  set (s2 := fold_left playlist_href_step
                       (map (group 0) (findall false full_url_re html)) s1).
  pose proof (@fold_grows _ _ (map (group 0) (findall false track_station_pattern html))
                station_step_grows init) as G0.
  pose proof (@fold_grows _ _ (findall false playlist_sound_item_pattern html)
                (playlist_label_step_grows html) s0) as G1.
  pose proof (@fold_grows _ _ (map (group 0) (findall false full_url_re html))
                playlist_href_step_grows s1) as G2.
  pose proof (@fold_grows _ _ (map (group 0) (findall false relative_url_re html))
                playlist_href_step_grows s2) as G3.
  fold s0 in G0. fold s1 in G1. fold s2 in G2.
  unfold grows in *. rewrite length_map in *. simpl in G0. lia.
Qed.

(** X13. A returned list has at least one record and at most one
    record per match of the patterns of the methods: one per href of the
    two kinds, one per sound-list item, however many links surround its
    label, and one per cover-art link (per track-station link in a
    playlist). *)
Theorem record_count (net : str -> fetched) (url0 : str) (ts : list track) :
  (scrape_profile net url0 = Tracks ts ->
   exists html,
     net (profile_url url0) = Page html /\
     1 <= length ts /\
     length ts <= length (findall false full_url_re html)
                  + length (findall false relative_url_re html)
                  + length (findall false sound_item_pattern html)
                  + length (findall false cover_art_pattern html)) /\
  (scrape_playlist net url0 = Tracks ts ->
   exists html,
     net url0 = Page html /\
     1 <= length ts /\
     length ts <= length (findall false track_station_pattern html)
                  + length (findall false playlist_sound_item_pattern html)
                  + length (findall false full_url_re html)
                  + length (findall false relative_url_re html)).
Proof.
  split; intros H.
  - apply scrape_profile_inv in H as (html & Hn & H). exists html.
    split; [exact Hn|].
    destruct (finish_nonempty _ H) as [N _].
    apply (finish_tracks (profile_tracks_reaches _ _)) in H as (-> & _).
    split; [destruct (tracks _); [congruence | simpl; lia]|].
    apply profile_tracks_grows.
  - apply scrape_playlist_inv in H as (html & Hn & H). exists html.
    split; [exact Hn|].
    destruct (finish_nonempty _ H) as [N _].
    apply (finish_tracks (playlist_tracks_reaches _)) in H as (-> & _).
    split; [destruct (tracks _); [congruence | simpl; lia]|].
    apply playlist_tracks_grows.
Qed.

Lemma record_count_witness :
  exists html,
    serve href_page (profile_url $"https://soundcloud.com/artist-name/") = Page html /\
    1 <= length [my_track] /\
    length [my_track] <= length (findall false full_url_re html)
                         + length (findall false relative_url_re html)
                         + length (findall false sound_item_pattern html)
                         + length (findall false cover_art_pattern html).
Proof.
  apply (proj1 (@record_count (serve href_page)
                  $"https://soundcloud.com/artist-name/" [my_track])).
  vm_compute. reflexivity.
Defined.

(* ================================================================= *)
(** * Further properties of the structured-data extraction *)

Module HydrationMore.

Import Hydration HydrationShape.

Lemma look_cases (h : heap) (items : list (str * value)) (tracks : list record) :
  (exists e, look h items tracks = Raises e) \/
  look h items tracks = Returns tracks \/
  exists r, look h items tracks = Returns (tracks ++ [r]) /\ accepted h r.
Proof.
  unfold look.
  destruct (has_key $"permalink_url" items || has_key $"uri" items); [|auto].
  set (u := if is_true h (get_or $"permalink_url" items VNone)
            then get_or $"permalink_url" items VNone
            else get_or $"uri" items (VStr [])).
  destruct (is_true h u) eqn:T; [|auto].
  destruct (py_in h $"soundcloud.com" u) as [e|[|]] eqn:P1; cbn [obind];
    [eauto| |auto].
  destruct (py_in h $"/sets/" u) as [e|[|]] eqn:P2; cbn [obind negb];
    [eauto|auto|].
  destruct (py_in h $"/playlists/" u) as [e|[|]] eqn:P3; cbn [obind negb];
    [eauto|auto|].
  destruct (user_get h (get $"user" items) $"username" (VStr [])) as [e|art];
    cbn [obind]; [eauto|].
  destruct (if is_true h (get_or $"artwork_url" items VNone)
            then Returns (get_or $"artwork_url" items VNone)
            else user_get h (get $"user" items) $"avatar_url" VNone)
    as [e|thumb]; cbn [obind]; [eauto|].
  right. right. eexists. split; [reflexivity|].
  unfold accepted. cbn [url artist title fullTitle]. auto.
Qed.

Lemma from_dict_accepted (h : heap) (r : record) :
  from_dict h r -> accepted h r.
Proof.
  intros (a & items & _ & L).
  destruct (look_cases h items []) as [[e E]|[E|(r' & E & A)]];
    rewrite E in L; try discriminate.
  injection L as <-. exact A.
Qed.

Lemma for_each_Forall (Q : record -> Prop)
      (call : value -> list record -> option (outcome (list record)))
      (vs : list value) :
  (forall v tr ts, call v tr = Some (Returns ts) -> Forall Q tr -> Forall Q ts) ->
  forall tr ts, for_each call vs tr = Some (Returns ts) ->
                Forall Q tr -> Forall Q ts.
Proof.
  intros C. induction vs as [|v vs IH]; intros tr ts H F; simpl in H.
  - now injection H as <-.
  - destruct (call v tr) as [[e|tr']|] eqn:E; try discriminate.
    eapply IH; [exact H|]. eapply C; eauto.
Qed.

Lemma search_dict_Forall (fuel : nat) :
  forall h obj depth tracks ts,
    search_dict fuel h obj depth tracks = Some (Returns ts) ->
    Forall (from_dict h) tracks -> Forall (from_dict h) ts.
Proof.
  induction fuel as [|fuel IH]; intros h obj depth tracks ts H F;
    [discriminate|].
  cbn [search_dict] in H.
  destruct (depth_limit <? depth); [now injection H as <-|].
  destruct obj as [| | | |a]; try (now injection H as <-).
  destruct (deref h a) as [[items|items]|] eqn:D; [| |now injection H as <-].
  - destruct (look h items tracks) as [e|tr'] eqn:L; [discriminate|].
    eapply for_each_Forall; [|exact H|].
    + intros v tr ts' Hc. eapply IH. exact Hc.
    + rewrite HydrationFacts.look_independent in L.
      destruct (look h items []) as [e|found] eqn:L0; [discriminate|].
      injection L as <-. apply Forall_app. split; [exact F|].
      destruct (look_cases h items []) as [[e E]|[E|(r & E & _)]];
        rewrite L0 in E; try discriminate; injection E as ->.
      * constructor.
      * constructor; [|constructor]. now exists a, items.
  - eapply for_each_Forall; [|exact H|exact F].
    intros v tr ts' Hc. eapply IH. exact Hc.
Qed.

(** X14. Every record that [extract_tracks_from_hydration] returns is
    the record of one dictionary of the data.  Its url is true, contains
    [soundcloud.com] and contains neither [/sets/] nor [/playlists/], in
    the sense of the operator [in]; when the url is a string it is not
    empty and these are tests of substrings; the url is never a number, a
    boolean or [None].  Its [fullTitle] joins artist and title when the
    artist is true and is the title otherwise. *)
Theorem hydration_records_accepted (fuel : nat) (h : heap) (data : value)
        (ts : list record) (r : record) :
  extract_tracks_from_hydration fuel h data = Some (Returns ts) -> In r ts ->
  (exists a items,
      deref h a = Some (ODict items) /\ look h items [] = Returns [r]) /\
  is_true h (url r) = true /\
  py_in h $"soundcloud.com" (url r) = Returns true /\
  py_in h $"/sets/" (url r) = Returns false /\
  py_in h $"/playlists/" (url r) = Returns false /\
  (forall s, url r = VStr s ->
             s <> [] /\ occurs $"soundcloud.com" s /\
             ~ occurs $"/sets/" s /\ ~ occurs $"/playlists/" s) /\
  (forall z, url r <> VInt z) /\ (forall b, url r <> VBool b) /\
  url r <> VNone /\
  fullTitle r = (if is_true h (artist r) then Joined (artist r) (title r)
                 else Plain (title r)).
Proof.
  intros H I. unfold extract_tracks_from_hydration in H.
  apply search_dict_Forall in H; [|constructor].
  rewrite Forall_forall in H. specialize (H r I).
  pose proof (from_dict_accepted H) as (T & P1 & P2 & P3 & FT).
  split; [exact H|]. repeat (split; [assumption|]).
  split; [|split; [|split; [|split]]]; try exact FT.
  - intros s E. rewrite E in *. simpl in T, P1, P2, P3.
    injection P1 as P1. injection P2 as P2. injection P3 as P3.
    split; [now apply truthy_not_nil|]. split; [now apply contains_occurs|].
    split; now apply contains_false.
  - intros z E. rewrite E in P1. discriminate P1.
  - intros b E. rewrite E in P1. discriminate P1.
  - intros E. rewrite E in P1. discriminate P1.
Qed.

Lemma hydration_records_accepted_witness :
  exists a items,
    deref twice_heap a = Some (ODict items) /\
    look twice_heap items [] = Returns [twice_record $"A"].
Proof.
  apply (@hydration_records_accepted 12 twice_heap (VRef 0)
           [twice_record $"A"; twice_record $"B"] (twice_record $"A")).
  - vm_compute. reflexivity.
  - now left.
Defined.

Lemma field_get (p : value -> bool) (k : str) (items : list (str * value))
      (v : value) :
  field p k items = true -> get k items = Some v -> p v = true.
Proof. unfold field. intros H G. now rewrite G in H. Qed.

Lemma user_get_typed (h : heap) (items : list (str * value)) (k : str)
      (default : value) :
  field (user_or_none h) $"user" items = true ->
  exists v, user_get h (get $"user" items) k default = Returns v.
Proof.
  intros F. unfold user_get.
  destruct (get $"user" items) as [u|] eqn:G; [|eexists; reflexivity].
  pose proof (field_get _ _ _ F G) as D.
  destruct u as [| | | |a]; try discriminate D; [eexists; reflexivity|].
  simpl in D. simpl.
  destruct (deref h a) as [[uitems|uitems]|]; try discriminate D.
  destruct uitems; eexists; reflexivity.
Qed.

Lemma user_get_username (h : heap) (items : list (str * value)) (v : value) :
  field (user_or_none h) $"user" items = true ->
  user_get h (get $"user" items) $"username" (VStr []) = Returns v ->
  str_or_none v = true.
Proof.
  intros F. unfold user_get.
  destruct (get $"user" items) as [u|] eqn:G; [|now intros [= <-]].
  pose proof (field_get _ _ _ F G) as D.
  destruct u as [| | | |a]; try discriminate D; [now intros [= <-]|].
  simpl in D. destruct (is_true h (VRef a)); [|now intros [= <-]].
  destruct (deref h a) as [[uitems|uitems]|]; try discriminate D.
  intros [= <-]. unfold get_or.
  destruct (get _ uitems) as [w|] eqn:Gw; [|reflexivity].
  exact (field_get _ _ _ D Gw).
Qed.

Lemma py_in_str (h : heap) (needle : str) (v : value) :
  str_or_none v = true -> is_true h v = true ->
  exists b, py_in h needle v = Returns b.
Proof.
  destruct v; try discriminate. intros _ _. eexists; reflexivity.
Qed.

Lemma look_typed (h : heap) (items : list (str * value)) (tracks : list record) :
  typed_dict h items = true -> exists tr, look h items tracks = Returns tr.
Proof.
  unfold typed_dict. intros T.
  apply andb_true_iff in T as [T Tu]. apply andb_true_iff in T as [T Tt].
  apply andb_true_iff in T as [Tp Ti].
  unfold look.
  destruct (has_key $"permalink_url" items || has_key $"uri" items);
    [|eexists; reflexivity].
  set (u := if is_true h (get_or $"permalink_url" items VNone)
            then get_or $"permalink_url" items VNone
            else get_or $"uri" items (VStr [])).
  assert (S : str_or_none u = true).
  { unfold u, get_or.
    destruct (is_true h _).
    - destruct (get $"permalink_url" items) as [v|] eqn:G; [|reflexivity].
      exact (field_get _ _ _ Tp G).
    - destruct (get $"uri" items) as [v|] eqn:G; [|reflexivity].
      exact (field_get _ _ _ Ti G). }
  destruct (is_true h u) eqn:Tr; [|eexists; reflexivity].
  destruct (py_in_str h $"soundcloud.com" u S Tr) as [b1 ->].
  destruct (py_in_str h $"/sets/" u S Tr) as [b2 ->].
  destruct (py_in_str h $"/playlists/" u S Tr) as [b3 ->].
  cbn [obind].
  destruct b1; [|eexists; reflexivity].
  destruct b2; cbn [negb]; [eexists; reflexivity|].
  destruct b3; cbn [negb]; [eexists; reflexivity|].
  destruct (user_get_typed h items $"username" (VStr []) Tu) as [art ->].
  cbn [obind].
  destruct (is_true h (get_or $"artwork_url" items VNone)); cbn [obind];
    [eexists; reflexivity|].
  destruct (user_get_typed h items $"avatar_url" VNone Tu) as [th ->].
  cbn [obind]. eexists; reflexivity.
Qed.

Lemma for_each_returns
      (call : value -> list record -> option (outcome (list record)))
      (vs : list value) :
  (forall v tr, exists ts, call v tr = Some (Returns ts)) ->
  forall tr, exists ts, for_each call vs tr = Some (Returns ts).
Proof.
  intros C. induction vs as [|v vs IH]; intros tr; simpl.
  - eexists; reflexivity.
  - destruct (C v tr) as [tr' ->]. apply IH.
Qed.

Lemma search_dict_typed (fuel : nat) :
  forall h obj depth tracks,
    typed_heap h -> 1 <= fuel -> depth_limit + 2 <= fuel + depth ->
    exists ts, search_dict fuel h obj depth tracks = Some (Returns ts).
Proof.
  induction fuel as [|fuel IH]; intros h obj depth tracks T F D; [lia|].
  cbn [search_dict].
  destruct (Nat.ltb_spec depth_limit depth) as [L|L]; [eexists; reflexivity|].
  assert (Inner : forall v tr,
             exists ts, search_dict fuel h v (depth + 1) tr = Some (Returns ts)).
  { intros v tr. apply IH; [exact T | |]; unfold depth_limit in *; lia. }
  destruct obj as [| | | |a]; try (eexists; reflexivity).
  destruct (deref h a) as [[items|items]|] eqn:E; [| |eexists; reflexivity].
  - destruct (look_typed h items tracks (T a items E)) as [tr ->].
    now apply for_each_returns.
  - now apply for_each_returns.
Qed.

Lemma typed_twice_heap : typed_heap twice_heap.
Proof.
  intros a items D. destruct a as [|[|[|a]]]; simpl in D.
  - discriminate D.
  - injection D as <-. reflexivity.
  - injection D as <-. reflexivity.
  - destruct a; discriminate D.
Qed.

Lemma look_typed_record (h : heap) (items : list (str * value)) (r : record) :
  typed_dict h items = true -> look h items [] = Returns [r] ->
  plain_record r.
Proof.
  unfold typed_dict. intros T.
  apply andb_true_iff in T as [T Tu]. apply andb_true_iff in T as [T Tt].
  apply andb_true_iff in T as [Tp Ti].
  unfold look.
  destruct (has_key $"permalink_url" items || has_key $"uri" items);
    [|discriminate].
  set (u := if is_true h (get_or $"permalink_url" items VNone)
            then get_or $"permalink_url" items VNone
            else get_or $"uri" items (VStr [])).
  assert (Su : str_or_none u = true).
  { unfold u, get_or.
    destruct (is_true h _).
    - destruct (get $"permalink_url" items) as [v|] eqn:G; [|reflexivity].
      exact (field_get _ _ _ Tp G).
    - destruct (get $"uri" items) as [v|] eqn:G; [|reflexivity].
      exact (field_get _ _ _ Ti G). }
  assert (St : str_or_none (get_or $"title" items (VStr $"Unknown Track")) = true).
  { unfold get_or. destruct (get $"title" items) as [v|] eqn:G; [|reflexivity].
    exact (field_get _ _ _ Tt G). }
  destruct (is_true h u); [|discriminate].
  destruct (py_in h $"soundcloud.com" u) as [e|[|]]; cbn [obind];
    try discriminate.
  destruct (py_in h $"/sets/" u) as [e|[|]]; cbn [obind negb];
    try discriminate.
  destruct (py_in h $"/playlists/" u) as [e|[|]]; cbn [obind negb];
    try discriminate.
  destruct (user_get h (get $"user" items) $"username" (VStr [])) as [e|art]
    eqn:Ua; cbn [obind]; [discriminate|].
  destruct (if is_true h (get_or $"artwork_url" items VNone)
            then Returns (get_or $"artwork_url" items VNone)
            else user_get h (get $"user" items) $"avatar_url" VNone)
    as [e|thumb]; cbn [obind]; [discriminate|].
  intros [= <-]. unfold plain_record. cbn [url title artist].
  split; [exact Su|]. split; [exact St|].
  exact (user_get_username h items Tu Ua).
Qed.

(** X15. On data in which every dictionary has a [permalink_url], a [uri]
    and a [title] that are strings or [None], and a [user] that is [None]
    or a dictionary whose [username] is a string or [None], each of these
    when present, [extract_tracks_from_hydration] raises nothing and
    returns a list; the url, the title and the artist of every record of
    the list are strings or [None], so that the formatting of line 202 is
    applied to strings and [None] only and cannot fail.  The conditions on
    the url and the user are needed: the dictionary [{'uri': 5}] raises
    TypeError, and a dictionary with a track URL whose [user] is the
    string [bob] raises AttributeError. *)
Theorem hydration_typed_returns :
  (forall h data,
      typed_heap h ->
      exists ts,
        (forall extra,
            extract_tracks_from_hydration (12 + extra) h data
            = Some (Returns ts)) /\
        Forall plain_record ts) /\
  extract_tracks_from_hydration 12 number_url_heap (VRef 0)
  = Some (Raises TypeError) /\
  extract_tracks_from_hydration 12 text_user_heap (VRef 0)
  = Some (Raises AttributeError).
Proof.
  split; [|split; vm_compute; reflexivity].
  intros h data T. unfold extract_tracks_from_hydration.
  destruct (@search_dict_typed 12 h data 0 [] T) as [ts E];
    [lia | unfold depth_limit; lia |].
  exists ts. split.
  - intros extra.
    rewrite HydrationFacts.search_dict_stable;
      [exact E | lia | unfold depth_limit; lia].
  - apply search_dict_Forall in E; [|constructor].
    eapply Forall_impl; [|exact E].
    intros r (a & items & D & L). exact (look_typed_record h items (T a items D) L).
Qed.

Lemma hydration_typed_returns_witness :
  exists ts,
    (forall extra,
        extract_tracks_from_hydration (12 + extra) twice_heap (VRef 0)
        = Some (Returns ts)) /\
    Forall plain_record ts.
Proof.
  exact (proj1 hydration_typed_returns twice_heap (VRef 0) typed_twice_heap).
Defined.

Lemma deref_nest_list (n : nat) (items : list (str * value)) (k : nat) :
  k < n -> deref (nest n items) (S k) = Some (OList [VRef k]).
Proof.
  intros L. unfold deref, nest. cbn [nth_error].
  rewrite nth_error_map, nth_error_seq.
  - apply Nat.ltb_lt in L. now rewrite L.
Qed.

Lemma search_dict_scalar (fuel : nat) (h : heap) (v : value) (depth : nat)
      (tr : list record) :
  scalar v = true -> search_dict (S fuel) h v depth tr = Some (Returns tr).
Proof.
  intros Sv. cbn [search_dict]. destruct (depth_limit <? depth); [reflexivity|].
  now destruct v.
Qed.

Lemma for_each_scalars (fuel : nat) (h : heap) (depth : nat)
      (vs : list value) (tr : list record) :
  forallb scalar vs = true ->
  for_each (fun v => search_dict (S fuel) h v depth) vs tr = Some (Returns tr).
Proof.
  induction vs as [|v vs IH]; intros S; [reflexivity|].
  apply andb_true_iff in S as [Sv S]. cbn [for_each].
  rewrite search_dict_scalar by exact Sv. now apply IH.
Qed.

Lemma search_dict_nest (items : list (str * value)) (n k : nat) :
  forallb scalar (map snd items) = true -> k <= n ->
  forall fuel depth tracks,
    1 <= fuel -> depth_limit + 2 <= fuel + depth ->
    search_dict fuel (nest n items) (VRef k) depth tracks
    = Some (if k + depth <=? depth_limit
            then look (nest n items) items tracks
            else Returns tracks).
Proof.
  intros Sc. induction k as [|k IH]; intros K fuel depth tracks F D;
    (destruct fuel as [|fuel]; [lia|]); cbn [search_dict].
  - cbn [Nat.add].
    destruct (Nat.ltb_spec depth_limit depth) as [L|L].
    + destruct (Nat.leb_spec depth depth_limit); [lia | reflexivity].
    + destruct (Nat.leb_spec depth depth_limit); [|lia].
      change (deref (nest n items) 0) with (Some (ODict items)).
      cbv iota beta.
      destruct (look (nest n items) items tracks) as [e|tr]; [reflexivity|].
      destruct fuel as [|fuel]; [unfold depth_limit in *; lia|].
      now apply for_each_scalars.
  - destruct (Nat.ltb_spec depth_limit depth) as [L|L].
    + destruct (Nat.leb_spec (S k + depth) depth_limit); [lia | reflexivity].
    + rewrite deref_nest_list by lia. cbn [for_each].
      rewrite IH; [| lia | unfold depth_limit in *; lia
                   | unfold depth_limit in *; lia].
      replace (k + (depth + 1)) with (S k + depth) by lia.
      destruct (S k + depth <=? depth_limit); [|reflexivity].
      now destruct (look (nest n items) items tracks).
Qed.

(** X16. A dictionary whose values are numbers, strings, booleans or
    [None], placed inside [n] nested lists, is examined exactly when
    [n <= 10]: the result is then what the test of that dictionary gives,
    and for [n > 10] the result is the empty list. *)
Theorem hydration_depth_bound (items : list (str * value)) (n extra : nat) :
  forallb scalar (map snd items) = true ->
  extract_tracks_from_hydration (12 + extra) (nest n items) (VRef n)
  = Some (if n <=? 10 then look (nest n items) items [] else Returns []).
Proof.
  intros Sc. unfold extract_tracks_from_hydration.
  rewrite (@search_dict_nest items n n Sc (le_n n));
    [| lia | unfold depth_limit; lia].
  now rewrite Nat.add_0_r.
Qed.

Lemma hydration_depth_bound_witness :
  extract_tracks_from_hydration 12
    (nest 11 [($"permalink_url", VStr same_url)]) (VRef 11)
  = Some (Returns []) /\
  extract_tracks_from_hydration 12
    (nest 10 [($"permalink_url", VStr same_url)]) (VRef 10)
  = Some (look (nest 10 [($"permalink_url", VStr same_url)])
               [($"permalink_url", VStr same_url)] []).
Proof.
  split.
  - apply (@hydration_depth_bound [($"permalink_url", VStr same_url)] 11 0).
    reflexivity.
  - apply (@hydration_depth_bound [($"permalink_url", VStr same_url)] 10 0).
    reflexivity.
Defined.

End HydrationMore.
